(** * Adaptive four-way intersection controller: model and verification

    A shallow embedding of the traffic controller: the timing enforcer
    (timing/constraints.py), the adaptive timing engine (timing/adaptive.py),
    the signal state machine (models/signal.py), the intersection model
    (models/intersection.py), the conflict monitor (safety/conflict.py), the
    preemption manager (safety/preemption.py), vehicle counting and the
    simulated camera (vision/counting.py, vision/mock.py) and the controller
    loop that ties them together (controller.py).

    Conventions of the embedding.
    - Python [float] values are idealised as exact rationals [Q]; the one
      non-finite value the code manufactures, [float("inf")] for the
      preemption hold, is a constructor of [duration].  Float equality [==]
      is rational equality [Qeq].
    - Python [int] is [Z]; list indices are [nat].
    - An exception (IndexError, KeyError, StopIteration, ZeroDivisionError,
      ValueError, RuntimeError) is the [None] of an [option] result.
    - [time.monotonic()] is an explicit clock argument of the operation that
      reads it; the values of the random generator of the simulated camera
      are arguments of the operation that draws them.
    - Objects mutated in place become values passed in and returned; an
      object two components share (the controller watched by the monitor
      and driven by the preemption manager, the ring the timing engine
      rewrites under the state machine, the intersection the camera writes
      and the engine reads) is held once and threaded through their
      operations.
    - Fields that only feed logging or the dashboard (arrival rates, update
      stamps, names, the phase-change and conflict callbacks of the state
      machine) are left out.  The cycle-complete callback is the [Retime]
      input of [Signal.exec], and the observer of [Observed]. *)

From Stdlib Require Import QArith Qminmax ZArith List Bool Lia Lqa.
Import ListNotations.

Open Scope Q_scope.

Notation "'do' x <- e ; k" :=
  (match e with Some x => k | None => None end)
  (at level 10, x name, e at level 100, k at level 200).

(* ------------------------------------------------------------------ *)
(** ** Numbers as Python computes with them *)

Module Num.

Definition Qltb (a b : Q) : bool := negb (Qle_bool b a).

(** [max(a, b)]: the first argument unless the second is strictly greater. *)
Definition py_max (a b : Q) : Q := if Qltb a b then b else a.

(** [min(a, b)]: the first argument unless the second is strictly smaller. *)
Definition py_min (a b : Q) : Q := if Qltb b a then b else a.

(** [a / b] on floats raises ZeroDivisionError when [b == 0]. *)
Definition py_div (a b : Q) : option Q :=
  if Qeq_bool b 0 then None else Some (a / b).

(** [sum(xs)] *)
Definition py_sum (xs : list Q) : Q := fold_left Qplus xs 0.

(** A step duration: a float, or [float("inf")]. *)
Inductive duration : Type :=
| Finite (q : Q)
| Infinite.

(** [elapsed >= duration] *)
Definition elapsed_ge (elapsed : Q) (d : duration) : bool :=
  match d with
  | Finite q => Qle_bool q elapsed
  | Infinite => false
  end.

End Num.

(* ------------------------------------------------------------------ *)
(** ** config.py *)

Module Config.

Inductive Direction : Type := NORTH | SOUTH | EAST | WEST.

Definition Direction_eqb (a b : Direction) : bool :=
  match a, b with
  | NORTH, NORTH | SOUTH, SOUTH | EAST, EAST | WEST, WEST => true
  | _, _ => false
  end.

(** [for d in Direction] *)
Definition all_directions : list Direction := [NORTH; SOUTH; EAST; WEST].

Inductive LaneType : Type := LT_THROUGH | LT_LEFT_TURN.

Record TimingConstraints : Type := {
  min_green_s : Q;
  max_green_s : Q;
  yellow_clearance_s : Q;
  all_red_clearance_s : Q;
  startup_lost_time_s : Q;
  min_protected_left_green_s : Q;
  max_protected_left_green_s : Q;
  left_turn_queue_threshold : Z;
  min_walk_s : Q;
  ped_clearance_speed_ft_per_s : Q;
  default_crosswalk_distance_ft : Q;
  min_cycle_s : Q;
  max_cycle_s : Q;
  default_cycle_s : Q
}.

(** [TimingConstraints()] with every field at its default. *)
Definition default_timing : TimingConstraints := {|
  min_green_s := 7;
  max_green_s := 60;
  yellow_clearance_s := 4;
  all_red_clearance_s := 2.5;
  startup_lost_time_s := 2;
  min_protected_left_green_s := 8;
  max_protected_left_green_s := 25;
  left_turn_queue_threshold := 3;
  min_walk_s := 7;
  ped_clearance_speed_ft_per_s := 3.5;
  default_crosswalk_distance_ft := 48;
  min_cycle_s := 45;
  max_cycle_s := 150;
  default_cycle_s := 90
|}.

(** The [ped_clearance_s] property: crosswalk distance over walking speed. *)
Definition ped_clearance_s (c : TimingConstraints) : option Q :=
  Num.py_div (default_crosswalk_distance_ft c) (ped_clearance_speed_ft_per_s c).

Record FlowDefaults : Type := {
  through_lane_flow : Q;
  left_turn_lane_flow : Q
}.

Definition default_flow : FlowDefaults :=
  {| through_lane_flow := 1800; left_turn_lane_flow := 1600 |}.

(** A dictionary whose keys are exactly the four directions
    ([signal_heads], [approaches]). *)
Record DirMap (A : Type) : Type := {
  atN : A; atS : A; atE : A; atW : A
}.
Arguments atN {A} _.
Arguments atS {A} _.
Arguments atE {A} _.
Arguments atW {A} _.

Definition dm_get {A} (m : DirMap A) (d : Direction) : A :=
  match d with
  | NORTH => atN m | SOUTH => atS m | EAST => atE m | WEST => atW m
  end.

Definition dm_set {A} (m : DirMap A) (d : Direction) (a : A) : DirMap A :=
  match d with
  | NORTH => {| atN := a; atS := atS m; atE := atE m; atW := atW m |}
  | SOUTH => {| atN := atN m; atS := a; atE := atE m; atW := atW m |}
  | EAST => {| atN := atN m; atS := atS m; atE := a; atW := atW m |}
  | WEST => {| atN := atN m; atS := atS m; atE := atE m; atW := a |}
  end.

Definition dm_map {A B} (f : A -> B) (m : DirMap A) : DirMap B :=
  {| atN := f (atN m); atS := f (atS m); atE := f (atE m); atW := f (atW m) |}.

Definition dm_init {A} (f : Direction -> A) : DirMap A :=
  {| atN := f NORTH; atS := f SOUTH; atE := f EAST; atW := f WEST |}.

End Config.

(* ------------------------------------------------------------------ *)
(** ** models/signal.py *)

Module SignalState.
Inductive t : Type :=
| RED | GREEN | YELLOW | GREEN_ARROW | YELLOW_ARROW | FLASHING_YELLOW
| ALL_RED | DARK | WALK | PED_CLEARANCE | DONT_WALK.
End SignalState.

Module PhaseType.
Inductive t : Type := THROUGH | LEFT_TURN.
End PhaseType.

Module PhaseStep.
Inductive t : Type := GREEN | FLASHING_YELLOW | YELLOW | ALL_RED.
End PhaseStep.

Module Signal.
Import Config.

Record Phase : Type := {
  phase_id : Z;
  phase_type : PhaseType.t;
  served_directions : list Direction;
  is_left_turn : bool;
  green_time_s : Q;
  yellow_time_s : Q;
  all_red_time_s : Q;
  walk_time_s : Q;
  ped_clearance_time_s : Q;
  use_protected_left : bool
}.

Definition total_phase_time_s (p : Phase) : Q :=
  green_time_s p + yellow_time_s p + all_red_time_s p.

(** Field assignments on a phase. *)
Definition set_green_time_s (p : Phase) (v : Q) : Phase :=
  {| phase_id := phase_id p; phase_type := phase_type p;
     served_directions := served_directions p; is_left_turn := is_left_turn p;
     green_time_s := v; yellow_time_s := yellow_time_s p;
     all_red_time_s := all_red_time_s p; walk_time_s := walk_time_s p;
     ped_clearance_time_s := ped_clearance_time_s p;
     use_protected_left := use_protected_left p |}.

Definition set_yellow_time_s (p : Phase) (v : Q) : Phase :=
  {| phase_id := phase_id p; phase_type := phase_type p;
     served_directions := served_directions p; is_left_turn := is_left_turn p;
     green_time_s := green_time_s p; yellow_time_s := v;
     all_red_time_s := all_red_time_s p; walk_time_s := walk_time_s p;
     ped_clearance_time_s := ped_clearance_time_s p;
     use_protected_left := use_protected_left p |}.

Definition set_all_red_time_s (p : Phase) (v : Q) : Phase :=
  {| phase_id := phase_id p; phase_type := phase_type p;
     served_directions := served_directions p; is_left_turn := is_left_turn p;
     green_time_s := green_time_s p; yellow_time_s := yellow_time_s p;
     all_red_time_s := v; walk_time_s := walk_time_s p;
     ped_clearance_time_s := ped_clearance_time_s p;
     use_protected_left := use_protected_left p |}.

Definition set_walk_time_s (p : Phase) (v : Q) : Phase :=
  {| phase_id := phase_id p; phase_type := phase_type p;
     served_directions := served_directions p; is_left_turn := is_left_turn p;
     green_time_s := green_time_s p; yellow_time_s := yellow_time_s p;
     all_red_time_s := all_red_time_s p; walk_time_s := v;
     ped_clearance_time_s := ped_clearance_time_s p;
     use_protected_left := use_protected_left p |}.

Definition set_ped_clearance_time_s (p : Phase) (v : Q) : Phase :=
  {| phase_id := phase_id p; phase_type := phase_type p;
     served_directions := served_directions p; is_left_turn := is_left_turn p;
     green_time_s := green_time_s p; yellow_time_s := yellow_time_s p;
     all_red_time_s := all_red_time_s p; walk_time_s := walk_time_s p;
     ped_clearance_time_s := v;
     use_protected_left := use_protected_left p |}.

Definition set_use_protected_left (p : Phase) (v : bool) : Phase :=
  {| phase_id := phase_id p; phase_type := phase_type p;
     served_directions := served_directions p; is_left_turn := is_left_turn p;
     green_time_s := green_time_s p; yellow_time_s := yellow_time_s p;
     all_red_time_s := all_red_time_s p; walk_time_s := walk_time_s p;
     ped_clearance_time_s := ped_clearance_time_s p;
     use_protected_left := v |}.

Record PhaseRing : Type := { phases : list Phase }.

(** [PhaseRing.create_standard_4way]; reading [timing.ped_clearance_s]
    divides, hence the [option]. *)
Definition create_standard_4way (timing : TimingConstraints) : option PhaseRing :=
  do ped_clearance <- ped_clearance_s timing;
  Some {| phases := [
    {| phase_id := 1; phase_type := PhaseType.LEFT_TURN;
       served_directions := [NORTH; SOUTH]; is_left_turn := true;
       green_time_s := min_protected_left_green_s timing;
       yellow_time_s := yellow_clearance_s timing;
       all_red_time_s := all_red_clearance_s timing;
       walk_time_s := 0; ped_clearance_time_s := 0;
       use_protected_left := false |};
    {| phase_id := 2; phase_type := PhaseType.THROUGH;
       served_directions := [NORTH; SOUTH]; is_left_turn := false;
       green_time_s := min_green_s timing;
       yellow_time_s := yellow_clearance_s timing;
       all_red_time_s := all_red_clearance_s timing;
       walk_time_s := min_walk_s timing; ped_clearance_time_s := ped_clearance;
       use_protected_left := false |};
    {| phase_id := 3; phase_type := PhaseType.LEFT_TURN;
       served_directions := [EAST; WEST]; is_left_turn := true;
       green_time_s := min_protected_left_green_s timing;
       yellow_time_s := yellow_clearance_s timing;
       all_red_time_s := all_red_clearance_s timing;
       walk_time_s := 0; ped_clearance_time_s := 0;
       use_protected_left := false |};
    {| phase_id := 4; phase_type := PhaseType.THROUGH;
       served_directions := [EAST; WEST]; is_left_turn := false;
       green_time_s := min_green_s timing;
       yellow_time_s := yellow_clearance_s timing;
       all_red_time_s := all_red_clearance_s timing;
       walk_time_s := min_walk_s timing; ped_clearance_time_s := ped_clearance;
       use_protected_left := false |} ] |}.

Definition total_cycle_time_s (r : PhaseRing) : Q :=
  Num.py_sum (map total_phase_time_s (phases r)).

(** [(current + 1) % len(self.phases)]; it is reached only after
    [current_phase] has been read, hence on a ring that is not empty. *)
Definition next_phase_index (r : PhaseRing) (current : nat) : nat :=
  Nat.modulo (current + 1) (length (phases r)).

Record SignalHead : Type := {
  direction : Direction;
  vehicle_signal : SignalState.t;
  left_turn_signal : SignalState.t;
  pedestrian_signal : SignalState.t
}.

(** [SignalHead(direction=d)] *)
Definition new_head (d : Direction) : SignalHead :=
  {| direction := d; vehicle_signal := SignalState.RED;
     left_turn_signal := SignalState.RED;
     pedestrian_signal := SignalState.DONT_WALK |}.

Definition set_vehicle_signal (h : SignalHead) (v : SignalState.t) : SignalHead :=
  {| direction := direction h; vehicle_signal := v;
     left_turn_signal := left_turn_signal h;
     pedestrian_signal := pedestrian_signal h |}.

Definition set_left_turn_signal (h : SignalHead) (v : SignalState.t) : SignalHead :=
  {| direction := direction h; vehicle_signal := vehicle_signal h;
     left_turn_signal := v;
     pedestrian_signal := pedestrian_signal h |}.

Definition set_pedestrian_signal (h : SignalHead) (v : SignalState.t) : SignalHead :=
  {| direction := direction h; vehicle_signal := vehicle_signal h;
     left_turn_signal := left_turn_signal h;
     pedestrian_signal := v |}.

Definition Heads : Type := DirMap SignalHead.

(** The controller's runtime state.  The three callbacks are left unset
    ([None]), as [SignalController(phase_ring=..., timing=...)] builds it; the
    cycle-complete observer of the application is the [Retime] input of
    [exec] below. *)
Record SignalController : Type := {
  phase_ring : PhaseRing;
  timing : TimingConstraints;
  current_phase_idx : nat;
  current_step : PhaseStep.t;
  step_start_time : Q;
  cycle_count : Z;
  is_preempted : bool;
  preemption_direction : option Direction;
  signal_heads : Heads
}.

Definition set_signal_heads (sc : SignalController) (hs : Heads) : SignalController :=
  {| phase_ring := phase_ring sc; timing := timing sc;
     current_phase_idx := current_phase_idx sc;
     current_step := current_step sc;
     step_start_time := step_start_time sc;
     cycle_count := cycle_count sc;
     is_preempted := is_preempted sc;
     preemption_direction := preemption_direction sc;
     signal_heads := hs |}.

Definition set_current_step (sc : SignalController) (st : PhaseStep.t) : SignalController :=
  {| phase_ring := phase_ring sc; timing := timing sc;
     current_phase_idx := current_phase_idx sc;
     current_step := st;
     step_start_time := step_start_time sc;
     cycle_count := cycle_count sc;
     is_preempted := is_preempted sc;
     preemption_direction := preemption_direction sc;
     signal_heads := signal_heads sc |}.

Definition set_step_start_time (sc : SignalController) (t : Q) : SignalController :=
  {| phase_ring := phase_ring sc; timing := timing sc;
     current_phase_idx := current_phase_idx sc;
     current_step := current_step sc;
     step_start_time := t;
     cycle_count := cycle_count sc;
     is_preempted := is_preempted sc;
     preemption_direction := preemption_direction sc;
     signal_heads := signal_heads sc |}.

Definition set_current_phase_idx (sc : SignalController) (i : nat) : SignalController :=
  {| phase_ring := phase_ring sc; timing := timing sc;
     current_phase_idx := i;
     current_step := current_step sc;
     step_start_time := step_start_time sc;
     cycle_count := cycle_count sc;
     is_preempted := is_preempted sc;
     preemption_direction := preemption_direction sc;
     signal_heads := signal_heads sc |}.

Definition set_cycle_count (sc : SignalController) (n : Z) : SignalController :=
  {| phase_ring := phase_ring sc; timing := timing sc;
     current_phase_idx := current_phase_idx sc;
     current_step := current_step sc;
     step_start_time := step_start_time sc;
     cycle_count := n;
     is_preempted := is_preempted sc;
     preemption_direction := preemption_direction sc;
     signal_heads := signal_heads sc |}.

Definition set_preemption (sc : SignalController) (b : bool) (d : option Direction)
  : SignalController :=
  {| phase_ring := phase_ring sc; timing := timing sc;
     current_phase_idx := current_phase_idx sc;
     current_step := current_step sc;
     step_start_time := step_start_time sc;
     cycle_count := cycle_count sc;
     is_preempted := b;
     preemption_direction := d;
     signal_heads := signal_heads sc |}.

Definition set_phase_ring (sc : SignalController) (r : PhaseRing) : SignalController :=
  {| phase_ring := r; timing := timing sc;
     current_phase_idx := current_phase_idx sc;
     current_step := current_step sc;
     step_start_time := step_start_time sc;
     cycle_count := cycle_count sc;
     is_preempted := is_preempted sc;
     preemption_direction := preemption_direction sc;
     signal_heads := signal_heads sc |}.

(** [self.phase_ring.phases[self.current_phase_idx]]; IndexError is [None]. *)
Definition current_phase (sc : SignalController) : option Phase :=
  nth_error (phases (phase_ring sc)) (current_phase_idx sc).

(** The loop that defaults every head to red / don't walk. *)
Definition reset_head (h : SignalHead) : SignalHead :=
  {| direction := direction h; vehicle_signal := SignalState.RED;
     left_turn_signal := SignalState.RED;
     pedestrian_signal := SignalState.DONT_WALK |}.

(** The body of [for direction in phase.served_directions] applied to the
    head of one served direction. *)
Definition apply_served (phase : Phase) (step : PhaseStep.t) (head : SignalHead)
  : SignalHead :=
  match step with
  | PhaseStep.GREEN =>
      if is_left_turn phase then
        if use_protected_left phase
        then set_left_turn_signal head SignalState.GREEN_ARROW
        else set_left_turn_signal head SignalState.FLASHING_YELLOW
      else
        set_pedestrian_signal
          (set_left_turn_signal
             (set_vehicle_signal head SignalState.GREEN)
             SignalState.FLASHING_YELLOW)
          SignalState.WALK
  | PhaseStep.FLASHING_YELLOW =>
      set_left_turn_signal head SignalState.FLASHING_YELLOW
  | PhaseStep.YELLOW =>
      if is_left_turn phase then
        set_left_turn_signal head SignalState.YELLOW_ARROW
      else
        set_pedestrian_signal
          (set_left_turn_signal
             (set_vehicle_signal head SignalState.YELLOW)
             SignalState.RED)
          SignalState.PED_CLEARANCE
  | PhaseStep.ALL_RED => head
  end.

Definition _apply_signals_for_current_state (sc : SignalController)
  : option SignalController :=
  do phase <- current_phase sc;
  let heads := dm_map reset_head (signal_heads sc) in
  match current_step sc with
  | PhaseStep.ALL_RED => Some (set_signal_heads sc heads)
  | step =>
      Some (set_signal_heads sc
              (fold_left
                 (fun hs d => dm_set hs d (apply_served phase step (dm_get hs d)))
                 (served_directions phase) heads))
  end.

(** [SignalController(phase_ring, timing)] followed by [__post_init__];
    [start] is the clock reading taken for [step_start_time]. *)
Definition new_controller (ring : PhaseRing) (tm : TimingConstraints) (start : Q)
  : option SignalController :=
  _apply_signals_for_current_state
    {| phase_ring := ring; timing := tm;
       current_phase_idx := 0%nat;
       current_step := PhaseStep.GREEN;
       step_start_time := start;
       cycle_count := 0%Z;
       is_preempted := false;
       preemption_direction := None;
       signal_heads := dm_init new_head |}.

Definition _current_step_duration (sc : SignalController) : option Num.duration :=
  do phase <- current_phase sc;
  if is_preempted sc &&
     match current_step sc with PhaseStep.GREEN => true | _ => false end
  then Some Num.Infinite
  else
    match current_step sc with
    | PhaseStep.GREEN => Some (Num.Finite (green_time_s phase))
    | PhaseStep.FLASHING_YELLOW => Some (Num.Finite (green_time_s phase))
    | PhaseStep.YELLOW => Some (Num.Finite (yellow_time_s phase))
    | PhaseStep.ALL_RED => Some (Num.Finite (all_red_time_s phase))
    end.

Definition _enter_fault_mode (sc : SignalController) : SignalController :=
  set_signal_heads sc
    (dm_map
       (fun head =>
          {| direction := direction head;
             vehicle_signal := SignalState.ALL_RED;
             left_turn_signal := SignalState.ALL_RED;
             pedestrian_signal := SignalState.DONT_WALK |})
       (signal_heads sc)).

(** Membership of one head's direction in [green_directions]. *)
Definition shows_green (head : SignalHead) : bool :=
  match vehicle_signal head with
  | SignalState.GREEN | SignalState.YELLOW => true
  | _ => false
  end
  ||
  match left_turn_signal head with
  | SignalState.GREEN_ARROW => true
  | _ => false
  end.

(** The set [green_directions], in the iteration order of the heads. *)
Definition green_directions (heads : Heads) : list Direction :=
  filter (fun d => shows_green (dm_get heads d)) all_directions.

Definition mem_dir (d : Direction) (l : list Direction) : bool :=
  existsb (Direction_eqb d) l.

Definition conflicts : list (Direction * Direction) :=
  [(NORTH, EAST); (NORTH, WEST); (SOUTH, EAST); (SOUTH, WEST)].

(** Whether the loop over the conflicting pairs finds both ends green. *)
Definition conflict_found (heads : Heads) : bool :=
  let green := green_directions heads in
  existsb (fun '(d1, d2) => mem_dir d1 green && mem_dir d2 green) conflicts.

Definition _check_conflicts (sc : SignalController) : SignalController :=
  if conflict_found (signal_heads sc) then _enter_fault_mode sc else sc.

Definition _enter_preemption_phase (sc : SignalController) (now : Q)
  : SignalController :=
  let heads := dm_map reset_head (signal_heads sc) in
  let heads :=
    match preemption_direction sc with
    | Some d => dm_set heads d (set_vehicle_signal (dm_get heads d) SignalState.GREEN)
    | None => heads
    end in
  set_step_start_time
    (set_current_step (set_signal_heads sc heads) PhaseStep.GREEN) now.

Definition _advance_to_next_phase (sc : SignalController) (now : Q)
  : option SignalController :=
  let prev_idx := current_phase_idx sc in
  let sc := set_current_phase_idx sc (next_phase_index (phase_ring sc) prev_idx) in
  let sc := set_current_step sc PhaseStep.GREEN in
  let sc := set_step_start_time sc now in
  do sc <- _apply_signals_for_current_state sc;
  if Nat.eqb (current_phase_idx sc) 0 && negb (Nat.eqb prev_idx 0)
  then Some (set_cycle_count sc (cycle_count sc + 1)%Z)
  else Some sc.

(** The common tail of [_advance_step]: stamp the step start and re-derive
    the heads (the phase-change callback is unset). *)
Definition enter_step (sc : SignalController) (next : PhaseStep.t) (now : Q)
  : option SignalController :=
  _apply_signals_for_current_state
    (set_step_start_time (set_current_step sc next) now).

Definition _advance_step (sc : SignalController) (now : Q)
  : option SignalController :=
  do phase <- current_phase sc;
  match current_step sc with
  | PhaseStep.GREEN =>
      if is_left_turn phase && negb (use_protected_left phase)
      then enter_step sc PhaseStep.YELLOW now
      else enter_step sc PhaseStep.YELLOW now
  | PhaseStep.FLASHING_YELLOW => enter_step sc PhaseStep.YELLOW now
  | PhaseStep.YELLOW => enter_step sc PhaseStep.ALL_RED now
  | PhaseStep.ALL_RED =>
      if is_preempted sc &&
         match preemption_direction sc with Some _ => true | None => false end
      then Some (_enter_preemption_phase sc now)
      else _advance_to_next_phase sc now
  end.

Definition tick (sc : SignalController) (now : Q) : option SignalController :=
  let elapsed := now - step_start_time sc in
  do duration <- _current_step_duration sc;
  do sc <- (if Num.elapsed_ge elapsed duration
            then _advance_step sc now else Some sc);
  Some (_check_conflicts sc).

(** [clock] is the reading of [time.monotonic()] inside the call. *)
Definition request_preemption (sc : SignalController) (d : Direction) (clock : Q)
  : option SignalController :=
  if is_preempted sc then Some sc
  else
    let sc := set_preemption sc true (Some d) in
    match current_step sc with
    | PhaseStep.GREEN | PhaseStep.FLASHING_YELLOW =>
        _apply_signals_for_current_state
          (set_step_start_time (set_current_step sc PhaseStep.YELLOW) clock)
    | _ => Some sc
    end.

Definition clear_preemption (sc : SignalController) : SignalController :=
  set_preemption sc false None.

(** What the adaptive engine may rewrite in a phase at a cycle boundary:
    its durations and its left-turn mode; identity, kind and served
    directions stay. *)
Record Retiming : Type := {
  new_green : Q; new_yellow : Q; new_all_red : Q;
  new_walk : Q; new_ped_clearance : Q; new_protected : bool
}.

Definition retime_phase (p : Phase) (r : Retiming) : Phase :=
  {| phase_id := phase_id p; phase_type := phase_type p;
     served_directions := served_directions p; is_left_turn := is_left_turn p;
     green_time_s := new_green r; yellow_time_s := new_yellow r;
     all_red_time_s := new_all_red r; walk_time_s := new_walk r;
     ped_clearance_time_s := new_ped_clearance r;
     use_protected_left := new_protected r |}.

Fixpoint retime_phases (ps : list Phase) (rs : list Retiming) : list Phase :=
  match ps, rs with
  | p :: ps', r :: rs' => retime_phase p r :: retime_phases ps' rs'
  | _, _ => ps
  end.

(** The inputs the state machine receives. *)
Inductive Event : Type :=
| Tick (now : Q)
| RequestPreemption (d : Direction) (clock : Q)
| ClearPreemption
| Retime (rs : list Retiming).

Definition exec (sc : SignalController) (e : Event) : option SignalController :=
  match e with
  | Tick now => tick sc now
  | RequestPreemption d clock => request_preemption sc d clock
  | ClearPreemption => Some (clear_preemption sc)
  | Retime rs =>
      Some (set_phase_ring sc
              {| phases := retime_phases (phases (phase_ring sc)) rs |})
  end.

(** The states observed after each input, the starting state first. *)
Fixpoint trace (sc : SignalController) (evs : list Event)
  : option (list SignalController) :=
  match evs with
  | [] => Some [sc]
  | e :: evs' =>
      do sc' <- exec sc e;
      do tr <- trace sc' evs';
      Some (sc :: tr)
  end.

(** A head displays green: vehicle GREEN or the protected left arrow. *)
Definition green_head (head : SignalHead) : bool :=
  match vehicle_signal head with SignalState.GREEN => true | _ => false end
  ||
  match left_turn_signal head with SignalState.GREEN_ARROW => true | _ => false end.

(** A phase serves no conflicting pair of directions. *)
Definition phase_safe (p : Phase) : bool :=
  negb (existsb
          (fun '(d1, d2) =>
             mem_dir d1 (served_directions p) && mem_dir d2 (served_directions p))
          conflicts).

End Signal.

(* ------------------------------------------------------------------ *)
(** ** models/intersection.py *)

Module Intersection.
Import Config.

(** A lane, with the live state the core reads: its queue count. *)
Record Lane : Type := {
  direction : Direction;
  lane_type : LaneType;
  saturation_flow : Q;
  queue_count : Z
}.

Definition saturation_flow_per_sec (l : Lane) : Q := saturation_flow l / 3600.

Definition green_time_to_clear (l : Lane) (startup_lost_time_s : Q) : option Q :=
  if (queue_count l <=? 0)%Z then Some 0
  else
    do t <- Num.py_div (inject_Z (queue_count l)) (saturation_flow_per_sec l);
    Some (t + startup_lost_time_s).

(** [Lane.update]: the only writer of [queue_count]. *)
Definition update (l : Lane) (queue : Z) : Lane :=
  {| direction := direction l; lane_type := lane_type l;
     saturation_flow := saturation_flow l;
     queue_count := Z.max 0 queue |}.

Record Approach : Type := {
  approach_direction : Direction;
  through_lane : Lane;
  left_turn_lane : Lane;
  crosswalk_distance_ft : Q
}.

Record Intersection : Type := {
  approaches : DirMap Approach
}.

Definition approach (i : Intersection) (d : Direction) : Approach :=
  dm_get (approaches i) d.

(** [Intersection.create_standard]; [queues d] gives the through and
    left-turn counts then written by [Lane.update]. *)
Definition create_standard (flow : FlowDefaults) (crosswalk : Q)
  (queues : Direction -> Z * Z) : Intersection :=
  {| approaches :=
       dm_init (fun d =>
         {| approach_direction := d;
            through_lane :=
              update {| direction := d; lane_type := LT_THROUGH;
                        saturation_flow := through_lane_flow flow;
                        queue_count := 0 |} (fst (queues d));
            left_turn_lane :=
              update {| direction := d; lane_type := LT_LEFT_TURN;
                        saturation_flow := left_turn_lane_flow flow;
                        queue_count := 0 |} (snd (queues d));
            crosswalk_distance_ft := crosswalk |}) |}.

End Intersection.

(* ------------------------------------------------------------------ *)
(** ** timing/constraints.py *)

Module Constraints.
Import Config Signal.

Definition enforce (c : TimingConstraints) (phase : Phase) : option Phase :=
  let min_g := if is_left_turn phase
               then min_protected_left_green_s c else min_green_s c in
  let max_g := if is_left_turn phase
               then max_protected_left_green_s c else max_green_s c in
  let phase :=
    set_green_time_s phase (Num.py_max min_g (Num.py_min max_g (green_time_s phase))) in
  let phase := set_yellow_time_s phase (yellow_clearance_s c) in
  let phase := set_all_red_time_s phase (all_red_clearance_s c) in
  if negb (is_left_turn phase) then
    let phase :=
      set_walk_time_s phase (Num.py_max (min_walk_s c) (walk_time_s phase)) in
    do ped <- ped_clearance_s c;
    let phase := set_ped_clearance_time_s phase ped in
    let min_ped_green := walk_time_s phase + ped_clearance_time_s phase in
    if Num.Qltb (green_time_s phase) min_ped_green
    then Some (set_green_time_s phase min_ped_green)
    else Some phase
  else Some phase.

(** [for p in phases: self.enforce(p)] *)
Fixpoint enforce_all (c : TimingConstraints) (phases : list Phase)
  : option (list Phase) :=
  match phases with
  | [] => Some []
  | p :: ps =>
      do p' <- enforce c p;
      do ps' <- enforce_all c ps;
      Some (p' :: ps')
  end.

(** The shared body of [_extend_to_minimum] and [_reduce_to_maximum];
    [bound] is [min_cycle_s], respectively [max_cycle_s]. *)
Definition rescale (c : TimingConstraints) (bound : Q) (phases : list Phase)
  (current_total : Q) : option (list Phase) :=
  let fixed_time :=
    Num.py_sum (map (fun p => yellow_time_s p + all_red_time_s p) phases) in
  let green_time := current_total - fixed_time in
  let target_green := bound - fixed_time in
  if Qle_bool green_time 0 then Some phases
  else
    let ratio := target_green / green_time in
    enforce_all c
      (map (fun p => set_green_time_s p (green_time_s p * ratio)) phases).

Definition _extend_to_minimum (c : TimingConstraints) (phases : list Phase)
  (current_total : Q) : option (list Phase) :=
  rescale c (min_cycle_s c) phases current_total.

Definition _reduce_to_maximum (c : TimingConstraints) (phases : list Phase)
  (current_total : Q) : option (list Phase) :=
  rescale c (max_cycle_s c) phases current_total.

Definition enforce_cycle (c : TimingConstraints) (phases : list Phase)
  : option (list Phase) :=
  do phases <- enforce_all c phases;
  let total := Num.py_sum (map total_phase_time_s phases) in
  if Num.Qltb total (min_cycle_s c) then _extend_to_minimum c phases total
  else if Num.Qltb (max_cycle_s c) total then _reduce_to_maximum c phases total
  else Some phases.

End Constraints.

(* ------------------------------------------------------------------ *)
(** ** timing/adaptive.py *)

Module Adaptive.
Import Config Signal.

(** A [dict] with integer keys and float values, in insertion order. *)
Definition Dict : Type := list (Z * Q).

Fixpoint dict_get (d : Dict) (k : Z) : option Q :=
  match d with
  | [] => None
  | (k', v) :: rest => if (k =? k')%Z then Some v else dict_get rest k
  end.

(** [d[k] = v]: overwrite in place, or append a new key. *)
Fixpoint dict_set (d : Dict) (k : Z) (v : Q) : Dict :=
  match d with
  | [] => [(k, v)]
  | (k', v') :: rest =>
      if (k =? k')%Z then (k, v) :: rest else (k', v') :: dict_set rest k v
  end.

Record PhaseDemand : Type := {
  phase_id : Z;
  total_queue : Z;
  ideal_green_s : Q;
  degree_of_saturation : Q;
  needs_protected_left : bool
}.

Record CyclePlan : Type := {
  cycle_length_s : Q;
  phase_demands : list PhaseDemand;
  phase_greens : Dict
}.

Record AdaptiveTimingEngine : Type := {
  intersection : Intersection.Intersection;
  timing : TimingConstraints;
  smoothing_alpha : Q;
  _prev_ds : Dict
}.

Definition set_prev_ds (e : AdaptiveTimingEngine) (d : Dict) : AdaptiveTimingEngine :=
  {| intersection := intersection e; timing := timing e;
     smoothing_alpha := smoothing_alpha e; _prev_ds := d |}.

(** The lane of an approach a phase draws its demand from. *)
Definition relevant_lane (phase : Phase) (a : Intersection.Approach)
  : Intersection.Lane :=
  if is_left_turn phase
  then Intersection.left_turn_lane a else Intersection.through_lane a.

(** [for direction in phase.served_directions] of [_compute_demands], on
    the accumulators [(total_queue, max_ideal_green, left_turn_total)]. *)
Fixpoint served_loop (e : AdaptiveTimingEngine) (phase : Phase)
  (dirs : list Direction) (acc : Z * Q * Z) : option (Z * Q * Z) :=
  match dirs with
  | [] => Some acc
  | d :: rest =>
      let '(total_queue, max_ideal_green, left_turn_total) := acc in
      let lane := relevant_lane phase (Intersection.approach (intersection e) d) in
      let left_turn_total :=
        if is_left_turn phase
        then (left_turn_total + Intersection.queue_count lane)%Z
        else left_turn_total in
      let total_queue := (total_queue + Intersection.queue_count lane)%Z in
      do ideal <- Intersection.green_time_to_clear lane
                    (startup_lost_time_s (timing e));
      served_loop e phase rest
        (total_queue, Num.py_max max_ideal_green ideal, left_turn_total)
  end.

(** One iteration of [for phase in phase_ring.phases]: the demand appended
    and the engine with its smoothed DS stored. *)
Definition phase_demand (e : AdaptiveTimingEngine) (phase : Phase)
  : option (PhaseDemand * AdaptiveTimingEngine) :=
  do acc <- served_loop e phase (served_directions phase) (0%Z, 0, 0%Z);
  let '(total_queue, max_ideal_green, left_turn_total) := acc in
  let current_green := green_time_s phase in
  do first <- hd_error (served_directions phase);
  let sat :=
    Intersection.saturation_flow_per_sec
      (relevant_lane phase (Intersection.approach (intersection e) first)) in
  let ds := inject_Z total_queue / Num.py_max 1 (current_green * sat) in
  let prev_ds :=
    match dict_get (_prev_ds e) (Signal.phase_id phase) with
    | Some v => v
    | None => ds
    end in
  let smoothed_ds :=
    smoothing_alpha e * ds + (1 - smoothing_alpha e) * prev_ds in
  let e := set_prev_ds e (dict_set (_prev_ds e) (Signal.phase_id phase) smoothed_ds) in
  let needs_protected :=
    is_left_turn phase
    && (left_turn_queue_threshold (timing e) <=? left_turn_total)%Z in
  Some ({| phase_id := Signal.phase_id phase;
           total_queue := total_queue;
           ideal_green_s := max_ideal_green;
           degree_of_saturation := smoothed_ds;
           needs_protected_left := needs_protected |}, e).

Fixpoint demands_loop (e : AdaptiveTimingEngine) (phases : list Phase)
  : option (list PhaseDemand * AdaptiveTimingEngine) :=
  match phases with
  | [] => Some ([], e)
  | phase :: rest =>
      do r <- phase_demand e phase;
      do r' <- demands_loop (snd r) rest;
      Some (fst r :: fst r', snd r')
  end.

Definition _compute_demands (e : AdaptiveTimingEngine) (ring : PhaseRing)
  : option (list PhaseDemand * AdaptiveTimingEngine) :=
  demands_loop e (phases ring).

Definition _compute_cycle_length (e : AdaptiveTimingEngine)
  (demands : list PhaseDemand) : Q :=
  let n := Z.of_nat (length demands) in
  let total_lost :=
    inject_Z n * (yellow_clearance_s (timing e) + all_red_clearance_s (timing e)) in
  let avg_ds :=
    Num.py_sum (map degree_of_saturation demands) / inject_Z (Z.max 1 n) in
  let y := Num.py_min 0.90 avg_ds in
  let cycle :=
    if Num.Qltb y 0.05 then min_cycle_s (timing e)
    else (1.5 * total_lost + 5) / (1 - y) in
  Num.py_max (min_cycle_s (timing e)) (Num.py_min (max_cycle_s (timing e)) cycle).

(** [next(p for p in phase_ring.phases if p.phase_id == id)] *)
Definition phase_by_id (ring : PhaseRing) (id : Z) : option Phase :=
  find (fun p => (Signal.phase_id p =? id)%Z) (phases ring).

(** The weight [_allocate_green_splits] gives one demand. *)
Definition demand_weight (e : AdaptiveTimingEngine) (ring : PhaseRing)
  (demand : PhaseDemand) : option Q :=
  let weight :=
    if (total_queue demand =? 0)%Z then min_green_s (timing e)
    else Num.py_max (min_green_s (timing e)) (ideal_green_s demand) in
  do phase <- phase_by_id ring (phase_id demand);
  if is_left_turn phase && negb (needs_protected_left demand)
  then Some (min_protected_left_green_s (timing e) * 0.5)
  else Some weight.

Fixpoint weights_loop (e : AdaptiveTimingEngine) (ring : PhaseRing)
  (demands : list PhaseDemand) (weights : Dict) : option Dict :=
  match demands with
  | [] => Some weights
  | demand :: rest =>
      do weight <- demand_weight e ring demand;
      weights_loop e ring rest (dict_set weights (phase_id demand) weight)
  end.

Definition _allocate_green_splits (e : AdaptiveTimingEngine)
  (demands : list PhaseDemand) (cycle_length : Q) (ring : PhaseRing)
  : option Dict :=
  let total_fixed :=
    Num.py_sum (map (fun p => yellow_time_s p + all_red_time_s p) (phases ring)) in
  let available_green := Num.py_max 0 (cycle_length - total_fixed) in
  do weights <- weights_loop e ring demands [];
  let total_weight := Num.py_sum (map snd weights) in
  let total_weight := if Qle_bool total_weight 0 then 1 else total_weight in
  Some (fold_left
          (fun greens '(id, weight) =>
             dict_set greens id ((weight / total_weight) * available_green))
          weights []).

Definition compute_cycle_plan (e : AdaptiveTimingEngine) (ring : PhaseRing)
  : option (CyclePlan * AdaptiveTimingEngine) :=
  do r <- _compute_demands e ring;
  let '(demands, e) := r in
  let cycle_length := _compute_cycle_length e demands in
  do greens <- _allocate_green_splits e demands cycle_length ring;
  Some ({| cycle_length_s := cycle_length;
           phase_demands := demands;
           phase_greens := greens |}, e).

(** The body of [for phase in phase_ring.phases] in [apply_plan]. *)
Definition apply_to_phase (plan : CyclePlan) (phase : Phase) : Phase :=
  let phase :=
    match dict_get (phase_greens plan) (Signal.phase_id phase) with
    | Some g => set_green_time_s phase g
    | None => phase
    end in
  match find (fun d => (phase_id d =? Signal.phase_id phase)%Z)
             (phase_demands plan) with
  | Some demand => set_use_protected_left phase (needs_protected_left demand)
  | None => phase
  end.

Definition apply_plan (e : AdaptiveTimingEngine) (plan : CyclePlan)
  (ring : PhaseRing) : option PhaseRing :=
  do ps <- Constraints.enforce_cycle (timing e)
             (map (apply_to_phase plan) (phases ring));
  Some {| phases := ps |}.

(** The sum of the relevant lane queues over the served directions, and
    the largest single one of them. *)
Definition queue_of (i : Intersection.Intersection) (phase : Phase)
  (d : Direction) : Z :=
  Intersection.queue_count (relevant_lane phase (Intersection.approach i d)).

Definition phase_total_queue (i : Intersection.Intersection) (phase : Phase) : Z :=
  fold_left (fun acc d => (acc + queue_of i phase d)%Z) (served_directions phase) 0%Z.

Definition phase_critical_queue (i : Intersection.Intersection) (phase : Phase) : Z :=
  fold_left (fun acc d => Z.max acc (queue_of i phase d)) (served_directions phase) 0%Z.

(** The cycle length as the specification words it. *)
Definition spec_mean (xs : list Q) : Q :=
  match xs with
  | [] => 0
  | _ => Num.py_sum xs / inject_Z (Z.of_nat (length xs))
  end.

Definition spec_clamp (lo hi x : Q) : Q := Qmax lo (Qmin hi x).

Definition spec_cycle_length (tm : TimingConstraints) (ds : list Q) : Q :=
  let total_lost :=
    inject_Z (Z.of_nat (length ds))
    * (yellow_clearance_s tm + all_red_clearance_s tm) in
  let Y := Qmin 0.90 (spec_mean ds) in
  spec_clamp (min_cycle_s tm) (max_cycle_s tm)
    (if Qlt_le_dec Y 0.05 then min_cycle_s tm
     else (1.5 * total_lost + 5) / (1 - Y)).

End Adaptive.

(* ------------------------------------------------------------------ *)
(** ** safety/conflict.py *)

Module Conflict.
Import Config Signal.

Definition CONFLICTING_PAIRS : list (Direction * Direction) :=
  [(NORTH, EAST); (NORTH, WEST); (SOUTH, EAST); (SOUTH, WEST)].

(** The monitor's own fields; the controller it watches is passed along. *)
Record ConflictMonitor : Type := {
  fault_active : bool;
  conflict_count : Z;
  last_check_time : Q;
  clean_checks_to_clear : Z;
  _consecutive_clean : Z
}.

(** [ConflictMonitor(signal_controller=..., clean_checks_to_clear=k)] *)
Definition new_monitor (k : Z) (clock : Q) : ConflictMonitor :=
  {| fault_active := false; conflict_count := 0; last_check_time := clock;
     clean_checks_to_clear := k; _consecutive_clean := 0 |}.

Definition _on_conflict_detected (m : ConflictMonitor) (sc : SignalController)
  : ConflictMonitor * SignalController :=
  let m1 := {| fault_active := fault_active m;
               conflict_count := (conflict_count m + 1)%Z;
               last_check_time := last_check_time m;
               clean_checks_to_clear := clean_checks_to_clear m;
               _consecutive_clean := 0 |} in
  if negb (fault_active m1) then
    ({| fault_active := true;
        conflict_count := conflict_count m1;
        last_check_time := last_check_time m1;
        clean_checks_to_clear := clean_checks_to_clear m1;
        _consecutive_clean := _consecutive_clean m1 |},
     _enter_fault_mode sc)
  else (m1, sc).

(** The monitor's own computation of the conflict condition. *)
Definition conflict_seen (heads : Heads) : bool :=
  let green := filter (fun d => shows_green (dm_get heads d)) all_directions in
  existsb (fun '(d1, d2) => mem_dir d1 green && mem_dir d2 green)
          CONFLICTING_PAIRS.

(** [check]: the returned flag, the monitor and the watched controller. *)
Definition check (m : ConflictMonitor) (sc : SignalController) (clock : Q)
  : bool * ConflictMonitor * SignalController :=
  let m := {| fault_active := fault_active m;
              conflict_count := conflict_count m;
              last_check_time := clock;
              clean_checks_to_clear := clean_checks_to_clear m;
              _consecutive_clean := _consecutive_clean m |} in
  if conflict_seen (signal_heads sc) then
    let '(m', sc') := _on_conflict_detected m sc in (false, m', sc')
  else if fault_active m then
    let n := (_consecutive_clean m + 1)%Z in
    if (clean_checks_to_clear m <=? n)%Z then
      (true,
       {| fault_active := false;
          conflict_count := conflict_count m;
          last_check_time := last_check_time m;
          clean_checks_to_clear := clean_checks_to_clear m;
          _consecutive_clean := 0 |}, sc)
    else
      (true,
       {| fault_active := fault_active m;
          conflict_count := conflict_count m;
          last_check_time := last_check_time m;
          clean_checks_to_clear := clean_checks_to_clear m;
          _consecutive_clean := n |}, sc)
  else (true, m, sc).

(** A run of checks, each on the heads the controller shows at that time
    (the controller may have moved in between); the monitor after the run. *)
Fixpoint checks (m : ConflictMonitor) (scs : list SignalController) (clock : Q)
  : ConflictMonitor :=
  match scs with
  | [] => m
  | sc :: rest => checks (snd (fst (check m sc clock))) rest clock
  end.

End Conflict.

(* ------------------------------------------------------------------ *)
(** ** safety/preemption.py *)

Module Preemption.
Import Config.

Record PreemptionEvent : Type := {
  direction : Direction;
  requested_at : Q;
  activated_at : option Q;
  cleared_at : option Q;
  min_hold_s : Q
}.

(** The [is_active] property of an event. *)
Definition event_is_active (ev : PreemptionEvent) : bool :=
  match activated_at ev, cleared_at ev with
  | Some _, None => true
  | _, _ => false
  end.

Definition hold_elapsed_s (ev : PreemptionEvent) (clock : Q) : Q :=
  match activated_at ev with
  | None => 0
  | Some t => clock - t
  end.

(** The manager's own fields; its signal controller is passed along. *)
Record PreemptionManager : Type := {
  max_hold_s : Q;
  pending : list PreemptionEvent;
  active_event : option PreemptionEvent;
  history : list PreemptionEvent
}.

Definition new_manager (max_hold : Q) : PreemptionManager :=
  {| max_hold_s := max_hold; pending := []; active_event := None; history := [] |}.

Definition is_active (m : PreemptionManager) : bool :=
  match active_event m with Some _ => true | None => false end.

Definition queue_depth (m : PreemptionManager) : nat := length (pending m).

(** [PreemptionEvent(direction=d, min_hold_s=min_hold)], created at [clock]. *)
Definition new_event (d : Direction) (min_hold : Q) (clock : Q) : PreemptionEvent :=
  {| direction := d; requested_at := clock;
     activated_at := None; cleared_at := None; min_hold_s := min_hold |}.

Definition set_activated_at (ev : PreemptionEvent) (t : Q) : PreemptionEvent :=
  {| direction := direction ev; requested_at := requested_at ev;
     activated_at := Some t; cleared_at := cleared_at ev;
     min_hold_s := min_hold_s ev |}.

Definition set_cleared_at (ev : PreemptionEvent) (t : Q) : PreemptionEvent :=
  {| direction := direction ev; requested_at := requested_at ev;
     activated_at := activated_at ev; cleared_at := Some t;
     min_hold_s := min_hold_s ev |}.

Definition _activate (m : PreemptionManager) (sc : Signal.SignalController)
  (event : PreemptionEvent) (clock : Q)
  : option (PreemptionManager * Signal.SignalController) :=
  let event := set_activated_at event clock in
  let m := {| max_hold_s := max_hold_s m; pending := pending m;
              active_event := Some event; history := history m |} in
  do sc <- Signal.request_preemption sc (direction event) clock;
  Some (m, sc).

Definition request (m : PreemptionManager) (sc : Signal.SignalController)
  (d : Direction) (min_hold : Q) (clock : Q)
  : option (PreemptionManager * Signal.SignalController) :=
  let event := new_event d min_hold clock in
  match active_event m with
  | Some _ =>
      Some ({| max_hold_s := max_hold_s m; pending := pending m ++ [event];
               active_event := active_event m; history := history m |}, sc)
  | None => _activate m sc event clock
  end.

(** [self._activate(self.pending.popleft())] when the queue is not empty. *)
Definition activate_next (m : PreemptionManager) (sc : Signal.SignalController)
  (clock : Q) : option (PreemptionManager * Signal.SignalController) :=
  match pending m with
  | [] => Some (m, sc)
  | event :: rest =>
      _activate {| max_hold_s := max_hold_s m; pending := rest;
                   active_event := active_event m; history := history m |}
                sc event clock
  end.

Definition clear (m : PreemptionManager) (sc : Signal.SignalController)
  (clock : Q) : option (PreemptionManager * Signal.SignalController) :=
  match active_event m with
  | None => Some (m, sc)
  | Some ev =>
      let ev := set_cleared_at ev clock in
      let m := {| max_hold_s := max_hold_s m; pending := pending m;
                  active_event := None; history := history m ++ [ev] |} in
      let sc := Signal.clear_preemption sc in
      activate_next m sc clock
  end.

Definition tick (m : PreemptionManager) (sc : Signal.SignalController)
  (clock : Q) : option (PreemptionManager * Signal.SignalController) :=
  match active_event m with
  | None => activate_next m sc clock
  | Some ev =>
      if Qle_bool (max_hold_s m) (hold_elapsed_s ev clock)
      then clear m sc clock
      else Some (m, sc)
  end.

(** The calls the manager receives. *)
Inductive Call : Type :=
| Request (d : Direction) (min_hold : Q) (clock : Q)
| Clear (clock : Q)
| ManagerTick (clock : Q)
| SignalTick (now : Q).

Definition call (st : PreemptionManager * Signal.SignalController) (c : Call)
  : option (PreemptionManager * Signal.SignalController) :=
  let '(m, sc) := st in
  match c with
  | Request d min_hold clock => request m sc d min_hold clock
  | Clear clock => clear m sc clock
  | ManagerTick clock => tick m sc clock
  | SignalTick now => do sc' <- Signal.tick sc now; Some (m, sc')
  end.

Fixpoint calls (st : PreemptionManager * Signal.SignalController) (cs : list Call)
  : option (PreemptionManager * Signal.SignalController) :=
  match cs with
  | [] => Some st
  | c :: rest => do st' <- call st c; calls st' rest
  end.

(** Every event the manager knows of. *)
Definition all_events (m : PreemptionManager) : list PreemptionEvent :=
  pending m
  ++ match active_event m with Some ev => [ev] | None => [] end
  ++ history m.

Definition active_count (m : PreemptionManager) : nat :=
  length (filter event_is_active (all_events m)).

End Preemption.

(* ------------------------------------------------------------------ *)
(** ** controller.py *)

Module Controller.
Import Config Signal.

(** The timing recomputation of [_on_cycle_complete] (and of [setup]):
    compute the plan from the current queues, then apply it to the ring. *)
Definition recompute_timing (e : Adaptive.AdaptiveTimingEngine) (ring : PhaseRing)
  : option (Adaptive.AdaptiveTimingEngine * PhaseRing) :=
  do r <- Adaptive.compute_cycle_plan e ring;
  do ring' <- Adaptive.apply_plan (snd r) (fst r) ring;
  Some (snd r, ring').

(** The green time of the phase at position [i] of a ring. *)
Definition green_at (ring : PhaseRing) (i : nat) : option Q :=
  option_map green_time_s (nth_error (phases ring) i).

End Controller.

(* ------------------------------------------------------------------ *)
(** ** models/intersection.py: the queue views *)

Module QueueViews.
Import Config.
Import Intersection.

(** [Approach.total_queue] *)
Definition approach_total_queue (a : Approach) : Z :=
  (queue_count (through_lane a) + queue_count (left_turn_lane a))%Z.

(** [Intersection.all_lanes], in the order of the approaches *)
Definition all_lanes (i : Intersection) : list Lane :=
  flat_map (fun d => [through_lane (approach i d); left_turn_lane (approach i d)])
    all_directions.

(** [Intersection.total_queue]: [sum] over the approaches *)
Definition total_queue (i : Intersection) : Z :=
  fold_left Z.add (map (fun d => approach_total_queue (approach i d)) all_directions)
    0%Z.

(** [Intersection.snapshot]: the through and left-turn queue per direction *)
Definition snapshot (i : Intersection) : DirMap (Z * Z) :=
  dm_init (fun d =>
    (queue_count (through_lane (approach i d)),
     queue_count (left_turn_lane (approach i d)))).

End QueueViews.

(* ------------------------------------------------------------------ *)
(** ** vision/provider.py, vision/counting.py *)

Module Vision.
Import Config.

(** A detection; [vehicle_type], a label no computation reads, is left out. *)
Record DetectedVehicle : Type := {
  x : Q;
  y : Q;
  width : Q;
  height : Q;
  confidence : Q
}.

Record DetectionResult : Type := {
  vehicles : list DetectedVehicle;
  frame_timestamp : Q;
  processing_time_ms : Q;
  confidence_threshold : Q
}.

(** [LaneROI] of config.py. *)
Record LaneROI : Type := {
  direction : Direction;
  lane_type : LaneType;
  polygon : list (Q * Q)
}.

Record LaneCount : Type := {
  lc_direction : Direction;
  lc_lane_type : LaneType;
  count : Z
}.

(** The loop of [point_in_polygon]: [vj] is [polygon[j]], the vertex before
    the one being visited.  The division is evaluated only when the first
    operand of [and] holds. *)
Fixpoint crossings (px py : Q) (vj : Q * Q) (vs : list (Q * Q)) (inside : bool)
  : option bool :=
  match vs with
  | [] => Some inside
  | vi :: rest =>
      let '(xi, yi) := vi in
      let '(xj, yj) := vj in
      if negb (Bool.eqb (Num.Qltb py yi) (Num.Qltb py yj)) then
        do t <- Num.py_div ((xj - xi) * (py - yi)) (yj - yi);
        if Num.Qltb px (t + xi)
        then crossings px py vi rest (negb inside)
        else crossings px py vi rest inside
      else crossings px py vi rest inside
  end.

Definition point_in_polygon (px py : Q) (polygon : list (Q * Q)) : option bool :=
  if (length polygon <? 3)%nat then Some false
  else
    do last <- nth_error polygon (length polygon - 1);
    crossings px py last polygon false.

(** A dictionary keyed by [(direction.value, lane_type.value)]. *)
Definition Key : Type := Direction * LaneType.

Definition LaneType_eqb (a b : LaneType) : bool :=
  match a, b with
  | LT_THROUGH, LT_THROUGH | LT_LEFT_TURN, LT_LEFT_TURN => true
  | _, _ => false
  end.

Definition key_eqb (a b : Key) : bool :=
  Direction_eqb (fst a) (fst b) && LaneType_eqb (snd a) (snd b).

Definition Counts : Type := list (Key * Z).

Fixpoint counts_get (c : Counts) (k : Key) (default : Z) : Z :=
  match c with
  | [] => default
  | (k', v) :: rest => if key_eqb k k' then v else counts_get rest k default
  end.

Fixpoint counts_set (c : Counts) (k : Key) (v : Z) : Counts :=
  match c with
  | [] => [(k, v)]
  | (k', v') :: rest =>
      if key_eqb k k' then (k, v) :: rest else (k', v') :: counts_set rest k v
  end.

Definition roi_key (roi : LaneROI) : Key := (direction roi, lane_type roi).

(** The inner loop of [count_vehicles_by_lane]: the first region with a
    polygon that holds the point, if any. *)
Fixpoint first_match (px py : Q) (rois : list LaneROI) : option (option LaneROI) :=
  match rois with
  | [] => Some None
  | roi :: rest =>
      match polygon roi with
      | [] => first_match px py rest
      | _ =>
          do hit <- point_in_polygon px py (polygon roi);
          if hit then Some (Some roi) else first_match px py rest
      end
  end.

Definition count_vehicle (rois : list LaneROI) (counts : Counts)
  (vehicle : DetectedVehicle) : option Counts :=
  do m <- first_match (x vehicle) (y vehicle) rois;
  match m with
  | Some roi =>
      Some (counts_set counts (roi_key roi)
              (counts_get counts (roi_key roi) 0 + 1)%Z)
  | None => Some counts
  end.

Fixpoint count_loop (rois : list LaneROI) (counts : Counts)
  (vs : list DetectedVehicle) : option Counts :=
  match vs with
  | [] => Some counts
  | v :: rest =>
      do counts <- count_vehicle rois counts v;
      count_loop rois counts rest
  end.

Definition count_vehicles_by_lane (result : DetectionResult)
  (lane_rois : list LaneROI) : option (list LaneCount) :=
  let counts :=
    fold_left (fun c roi => counts_set c (roi_key roi) 0%Z) lane_rois [] in
  do counts <- count_loop lane_rois counts (vehicles result);
  Some (map (fun roi =>
               {| lc_direction := direction roi;
                  lc_lane_type := lane_type roi;
                  count := counts_get counts (roi_key roi) 0 |})
            lane_rois).

(** [count_vehicles_simple]; its dictionary has the four directions as
    keys. *)
Definition count_vehicles_simple (result : DetectionResult) : DirMap Z :=
  fold_left
    (fun counts v =>
       if Num.Qltb (y v) 0.3 then dm_set counts NORTH (dm_get counts NORTH + 1)%Z
       else if Num.Qltb 0.7 (y v) then dm_set counts SOUTH (dm_get counts SOUTH + 1)%Z
       else if Num.Qltb 0.7 (x v) then dm_set counts EAST (dm_get counts EAST + 1)%Z
       else if Num.Qltb (x v) 0.3 then dm_set counts WEST (dm_get counts WEST + 1)%Z
       else counts)
    (vehicles result) (dm_init (fun _ => 0%Z)).

End Vision.

(* ------------------------------------------------------------------ *)
(** ** vision/mock.py *)

Module Mock.
Import Config Vision.

(** [_queues]: once initialised the dictionary holds the through and the
    left-turn queue of each direction. *)
Definition Queues : Type := DirMap (Z * Z).

Definition queue_of (q : Queues) (d : Direction) (lt : LaneType) : Z :=
  match lt with
  | LT_THROUGH => fst (dm_get q d)
  | LT_LEFT_TURN => snd (dm_get q d)
  end.

Definition write_queue (q : Queues) (d : Direction) (lt : LaneType) (v : Z) : Queues :=
  dm_set q d
    (match lt with
     | LT_THROUGH => (v, snd (dm_get q d))
     | LT_LEFT_TURN => (fst (dm_get q d), v)
     end).

(** The provider's state.  The rates and the generator only shape how the
    random draws fall; the draws themselves are inputs of [detect]. *)
Record MockProvider : Type := {
  _initialized : bool;
  _queues : Queues
}.

(** [MockProvider()] then [initialize(config)] *)
Definition initialize : MockProvider :=
  {| _initialized := true; _queues := dm_init (fun _ => (0, 0)%Z) |}.

Definition get_queue_counts (p : MockProvider) : Queues := _queues p.

Definition set_queue (p : MockProvider) (d : Direction) (lt : LaneType) (count : Z)
  : MockProvider :=
  {| _initialized := _initialized p;
     _queues := write_queue (_queues p) d lt (Z.max 0 count) |}.

(** The outcomes of the four comparisons [self._rng.random() < ...] made
    for one approach in one [detect]. *)
Record Draws : Type := {
  through_arrival : bool;
  through_departure : bool;
  left_arrival : bool;
  left_departure : bool
}.

(** The three values of [self._rng.random()] that shape one vehicle. *)
Record Looks : Type := { r_width : Q; r_height : Q; r_confidence : Q }.

Definition _make_vehicle (looks : Looks) (d : Direction) (lt : LaneType)
  (index : Z) : DetectedVehicle :=
  let '(bx, by_) :=
    match d with
    | NORTH => (0.45, 0.1) | SOUTH => (0.55, 0.9)
    | EAST => (0.9, 0.45) | WEST => (0.1, 0.55)
    end in
  let '(bx, by_) :=
    match lt with
    | LT_LEFT_TURN =>
        match d with
        | NORTH | SOUTH => (bx - 0.05, by_)
        | _ => (bx, by_ - 0.05)
        end
    | LT_THROUGH => (bx, by_)
    end in
  let spacing := 0.03 in
  let '(bx, by_) :=
    match d with
    | NORTH => (bx, by_ - inject_Z index * spacing)
    | SOUTH => (bx, by_ + inject_Z index * spacing)
    | EAST => (bx + inject_Z index * spacing, by_)
    | WEST => (bx - inject_Z index * spacing, by_)
    end in
  let bx := Num.py_max 0.02 (Num.py_min 0.98 bx) in
  let by_ := Num.py_max 0.02 (Num.py_min 0.98 by_) in
  {| x := bx; y := by_;
     width := 0.03 + r_width looks * 0.01;
     height := 0.05 + r_height looks * 0.02;
     confidence := 0.90 + r_confidence looks * 0.10 |}.

(** [range(n)] *)
Definition range (n : Z) : list Z := map Z.of_nat (seq 0 (Z.to_nat n)).

(** [min(MAX_QUEUE, max(0, queue + arrivals - departures))] *)
Definition step_queue (q : Z) (arrival departure : bool) : Z :=
  Z.min 25 (Z.max 0 (q + (if arrival then 1 else 0) - (if departure then 1 else 0))).

(** The body of [for d in Direction] in [detect]. *)
Definition detect_direction (draws : Direction -> Draws)
  (looks : Direction -> LaneType -> Z -> Looks)
  (acc : list DetectedVehicle * Queues) (d : Direction)
  : list DetectedVehicle * Queues :=
  let '(vehicles, queues) := acc in
  let queues :=
    write_queue queues d LT_THROUGH
      (step_queue (queue_of queues d LT_THROUGH)
         (through_arrival (draws d)) (through_departure (draws d))) in
  let queues :=
    write_queue queues d LT_LEFT_TURN
      (step_queue (queue_of queues d LT_LEFT_TURN)
         (left_arrival (draws d)) (left_departure (draws d))) in
  let vehicles :=
    vehicles
    ++ map (fun i => _make_vehicle (looks d LT_THROUGH i) d LT_THROUGH i)
         (range (queue_of queues d LT_THROUGH)) in
  let vehicles :=
    vehicles
    ++ map (fun i => _make_vehicle (looks d LT_LEFT_TURN i) d LT_LEFT_TURN i)
         (range (queue_of queues d LT_LEFT_TURN)) in
  (vehicles, queues).

(** [detect]; RuntimeError before [initialize] is [None].  [t0] and
    [elapsed_ms] are the clock readings it stamps the result with. *)
Definition detect (p : MockProvider) (draws : Direction -> Draws)
  (looks : Direction -> LaneType -> Z -> Looks) (t0 elapsed_ms : Q)
  : option (DetectionResult * MockProvider) :=
  if negb (_initialized p) then None
  else
    let '(vehicles, queues) :=
      fold_left (detect_direction draws looks) all_directions ([], _queues p) in
    Some ({| vehicles := vehicles; frame_timestamp := t0;
             processing_time_ms := elapsed_ms; confidence_threshold := 0.95 |},
          {| _initialized := true; _queues := queues |}).

End Mock.

(* ------------------------------------------------------------------ *)
(** ** models/signal.py with its cycle-complete observer set *)

Module Observed.
Import Config Signal.

Section WithObserver.

(** The state of whoever observes the cycles. *)
Context {S : Type}.

(** [on_cycle_complete]: called with the new cycle count, it may change
    its owner's state and rewrite the phases of the ring the controller
    shares with it; an exception it raises is [None]. *)
Variable on_cycle_complete : Z -> S -> PhaseRing -> option (S * PhaseRing).

Definition _advance_to_next_phase (s : S) (sc : SignalController) (now : Q)
  : option (S * SignalController) :=
  let prev_idx := current_phase_idx sc in
  let sc := set_current_phase_idx sc (next_phase_index (phase_ring sc) prev_idx) in
  let sc := set_current_step sc PhaseStep.GREEN in
  let sc := set_step_start_time sc now in
  do sc <- _apply_signals_for_current_state sc;
  if Nat.eqb (current_phase_idx sc) 0 && negb (Nat.eqb prev_idx 0)
  then
    let sc := set_cycle_count sc (cycle_count sc + 1)%Z in
    do r <- on_cycle_complete (cycle_count sc) s (phase_ring sc);
    Some (fst r, set_phase_ring sc (snd r))
  else Some (s, sc).

Definition _advance_step (s : S) (sc : SignalController) (now : Q)
  : option (S * SignalController) :=
  do phase <- current_phase sc;
  match current_step sc with
  | PhaseStep.GREEN =>
      if is_left_turn phase && negb (use_protected_left phase)
      then do sc <- enter_step sc PhaseStep.YELLOW now; Some (s, sc)
      else do sc <- enter_step sc PhaseStep.YELLOW now; Some (s, sc)
  | PhaseStep.FLASHING_YELLOW =>
      do sc <- enter_step sc PhaseStep.YELLOW now; Some (s, sc)
  | PhaseStep.YELLOW =>
      do sc <- enter_step sc PhaseStep.ALL_RED now; Some (s, sc)
  | PhaseStep.ALL_RED =>
      if is_preempted sc &&
         match preemption_direction sc with Some _ => true | None => false end
      then Some (s, _enter_preemption_phase sc now)
      else _advance_to_next_phase s sc now
  end.

Definition tick (s : S) (sc : SignalController) (now : Q)
  : option (S * SignalController) :=
  let elapsed := now - step_start_time sc in
  do duration <- _current_step_duration sc;
  do r <- (if Num.elapsed_ge elapsed duration
           then _advance_step s sc now else Some (s, sc));
  Some (fst r, _check_conflicts (snd r)).

End WithObserver.

End Observed.

(* ------------------------------------------------------------------ *)
(** ** controller.py: the controller of the intersection *)

Module App.
Import Config.

(** [config.vision.provider_type]: "mock", "yolov8", or anything else. *)
Inductive ProviderType : Type := PT_MOCK | PT_YOLOV8 | PT_UNKNOWN.

(** The parts of [IntersectionConfig] the controller reads. *)
Record IntersectionConfig : Type := {
  timing : TimingConstraints;
  flow : FlowDefaults;
  provider_type : ProviderType;
  target_fps : Q
}.

(** The provider: the mock with its state, or a real detector, whose
    detections are an input of the tick. *)
Inductive Provider : Type :=
| MockProvider (p : Mock.MockProvider)
| YOLOv8Provider.

(** [create_provider] then [initialize]; ValueError is [None]. *)
Definition create_provider (config : IntersectionConfig) : option Provider :=
  match provider_type config with
  | PT_YOLOV8 => Some YOLOv8Provider
  | PT_MOCK => Some (MockProvider Mock.initialize)
  | PT_UNKNOWN => None
  end.

(** The controller.  The intersection lives in the timing engine and the
    phase ring in the signal controller, the objects it shares them with;
    the monitor and the manager are passed the signal controller they
    watch. *)
Record TrafficController : Type := {
  config : IntersectionConfig;
  signal_controller : Signal.SignalController;
  timing_engine : Adaptive.AdaptiveTimingEngine;
  conflict_monitor : Conflict.ConflictMonitor;
  preemption_manager : Preemption.PreemptionManager;
  provider : Provider;
  tick_count : Z;
  last_vision_time : Q;
  last_cycle_count : Z
}.

Definition intersection (tc : TrafficController) : Intersection.Intersection :=
  Adaptive.intersection (timing_engine tc).

Definition phase_ring (tc : TrafficController) : Signal.PhaseRing :=
  Signal.phase_ring (signal_controller tc).

(** What the world hands one tick: the clock readings of the monitor's and
    the manager's calls, the draws of the mock provider, and the detections
    of a real one. *)
Record Sensed : Type := {
  check_clock : Q;
  manager_clock : Q;
  draws : Direction -> Mock.Draws;
  looks : Direction -> LaneType -> Z -> Mock.Looks;
  detect_clock : Q;
  detect_ms : Q;
  detections : Vision.DetectionResult
}.

(** [setup]; [clock] and [monitor_clock] are the readings the signal
    controller and the monitor are stamped with. *)
Definition setup (config : IntersectionConfig) (clock monitor_clock : Q)
  : option TrafficController :=
  let intersection :=
    Intersection.create_standard (flow config)
      (default_crosswalk_distance_ft (timing config)) (fun _ => (0, 0)%Z) in
  do ring <- Signal.create_standard_4way (timing config);
  do sc <- Signal.new_controller ring (timing config) clock;
  let engine :=
    {| Adaptive.intersection := intersection;
       Adaptive.timing := timing config;
       Adaptive.smoothing_alpha := 0.6;
       Adaptive._prev_ds := [] |} in
  let monitor := Conflict.new_monitor 50 monitor_clock in
  let manager := Preemption.new_manager 30 in
  do provider <- create_provider config;
  do r <- Controller.recompute_timing engine ring;
  Some {| config := config;
          signal_controller := Signal.set_phase_ring sc (snd r);
          timing_engine := fst r;
          conflict_monitor := monitor;
          preemption_manager := manager;
          provider := provider;
          tick_count := 0;
          last_vision_time := 0;
          last_cycle_count := 0 |}.

(** [int(x)]: truncation towards zero. *)
Definition py_int (q : Q) : Z := Z.quot (Qnum q) (Z.pos (Qden q)).

Definition set_lanes (a : Intersection.Approach) (through left : Z)
  : Intersection.Approach :=
  {| Intersection.approach_direction := Intersection.approach_direction a;
     Intersection.through_lane := Intersection.update (Intersection.through_lane a) through;
     Intersection.left_turn_lane := Intersection.update (Intersection.left_turn_lane a) left;
     Intersection.crosswalk_distance_ft := Intersection.crosswalk_distance_ft a |}.

(** The two branches of [_run_vision] after the detection: the queues of
    the mock provider written to the lanes, or the quadrant counts split
    85 to 15 between the through and the left-turn lane. *)
Definition update_from_mock (i : Intersection.Intersection) (counts : Mock.Queues)
  : Intersection.Intersection :=
  {| Intersection.approaches :=
       dm_init (fun d =>
         set_lanes (Intersection.approach i d)
           (Mock.queue_of counts d LT_THROUGH)
           (Mock.queue_of counts d LT_LEFT_TURN)) |}.

Definition update_from_counts (i : Intersection.Intersection) (counts : DirMap Z)
  : Intersection.Intersection :=
  {| Intersection.approaches :=
       dm_init (fun d =>
         let count := dm_get counts d in
         set_lanes (Intersection.approach i d)
           (py_int (inject_Z count * 0.85))
           (Z.max 0 (count - py_int (inject_Z count * 0.85)))) |}.

Definition set_intersection (e : Adaptive.AdaptiveTimingEngine)
  (i : Intersection.Intersection) : Adaptive.AdaptiveTimingEngine :=
  {| Adaptive.intersection := i; Adaptive.timing := Adaptive.timing e;
     Adaptive.smoothing_alpha := Adaptive.smoothing_alpha e;
     Adaptive._prev_ds := Adaptive._prev_ds e |}.

Definition _run_vision (tc : TrafficController) (env : Sensed)
  : option TrafficController :=
  match provider tc with
  | MockProvider p =>
      do r <- Mock.detect p (draws env) (looks env) (detect_clock env) (detect_ms env);
      let counts := Mock.get_queue_counts (snd r) in
      Some {| config := config tc;
              signal_controller := signal_controller tc;
              timing_engine :=
                set_intersection (timing_engine tc)
                  (update_from_mock (intersection tc) counts);
              conflict_monitor := conflict_monitor tc;
              preemption_manager := preemption_manager tc;
              provider := MockProvider (snd r);
              tick_count := tick_count tc;
              last_vision_time := last_vision_time tc;
              last_cycle_count := last_cycle_count tc |}
  | YOLOv8Provider =>
      let counts_simple := Vision.count_vehicles_simple (detections env) in
      Some {| config := config tc;
              signal_controller := signal_controller tc;
              timing_engine :=
                set_intersection (timing_engine tc)
                  (update_from_counts (intersection tc) counts_simple);
              conflict_monitor := conflict_monitor tc;
              preemption_manager := preemption_manager tc;
              provider := YOLOv8Provider;
              tick_count := tick_count tc;
              last_vision_time := last_vision_time tc;
              last_cycle_count := last_cycle_count tc |}
  end.

(** [_on_cycle_complete], as the observer of the signal controller: its
    state is the timing engine and [last_cycle_count]; [preempting] is
    [self.preemption_manager.is_active]. *)
Definition _on_cycle_complete (preempting : bool) (cycle_count : Z)
  (s : Adaptive.AdaptiveTimingEngine * Z) (ring : Signal.PhaseRing)
  : option (Adaptive.AdaptiveTimingEngine * Z * Signal.PhaseRing) :=
  if preempting then Some (s, ring)
  else
    do r <- Controller.recompute_timing (fst s) ring;
    Some (fst r, cycle_count, snd r).

Definition tick (tc : TrafficController) (now : Q) (env : Sensed)
  : option TrafficController :=
  let count := (tick_count tc + 1)%Z in
  do vision_interval <- Num.py_div 1 (target_fps (config tc));
  do tc <- (if Qle_bool vision_interval (now - last_vision_time tc)
            then
              do tc <- _run_vision tc env;
              Some {| config := config tc;
                      signal_controller := signal_controller tc;
                      timing_engine := timing_engine tc;
                      conflict_monitor := conflict_monitor tc;
                      preemption_manager := preemption_manager tc;
                      provider := provider tc;
                      tick_count := tick_count tc;
                      last_vision_time := now;
                      last_cycle_count := last_cycle_count tc |}
            else Some tc);
  do r <- Observed.tick
            (_on_cycle_complete (Preemption.is_active (preemption_manager tc)))
            (timing_engine tc, last_cycle_count tc) (signal_controller tc) now;
  let '(engine, last_cycle, sc) := r in
  let '(healthy, monitor, sc) :=
    Conflict.check (conflict_monitor tc) sc (check_clock env) in
  do r <- Preemption.tick (preemption_manager tc) sc (manager_clock env);
  let '(manager, sc) := r in
  Some {| config := config tc;
          signal_controller := sc;
          timing_engine := engine;
          conflict_monitor := monitor;
          preemption_manager := manager;
          provider := provider tc;
          tick_count := count;
          last_vision_time := last_vision_time tc;
          last_cycle_count := last_cycle |}.

(** [trigger_preemption] and [clear_preemption], at the given clock
    reading. *)
Definition trigger_preemption (tc : TrafficController) (d : Direction) (clock : Q)
  : option TrafficController :=
  do r <- Preemption.request (preemption_manager tc) (signal_controller tc)
            d 10 clock;
  Some {| config := config tc;
          signal_controller := snd r;
          timing_engine := timing_engine tc;
          conflict_monitor := conflict_monitor tc;
          preemption_manager := fst r;
          provider := provider tc;
          tick_count := tick_count tc;
          last_vision_time := last_vision_time tc;
          last_cycle_count := last_cycle_count tc |}.

Definition clear_preemption (tc : TrafficController) (clock : Q)
  : option TrafficController :=
  do r <- Preemption.clear (preemption_manager tc) (signal_controller tc) clock;
  Some {| config := config tc;
          signal_controller := snd r;
          timing_engine := timing_engine tc;
          conflict_monitor := conflict_monitor tc;
          preemption_manager := fst r;
          provider := provider tc;
          tick_count := tick_count tc;
          last_vision_time := last_vision_time tc;
          last_cycle_count := last_cycle_count tc |}.

(** What the controller is asked to do. *)
Inductive Input : Type :=
| TickAt (now : Q) (env : Sensed)
| Trigger (d : Direction) (clock : Q)
| ClearAt (clock : Q).

Definition step (tc : TrafficController) (i : Input) : option TrafficController :=
  match i with
  | TickAt now env => tick tc now env
  | Trigger d clock => trigger_preemption tc d clock
  | ClearAt clock => clear_preemption tc clock
  end.

(** The states after each input, the starting state first. *)
Fixpoint run (tc : TrafficController) (inputs : list Input)
  : option (list TrafficController) :=
  match inputs with
  | [] => Some [tc]
  | i :: rest =>
      do tc' <- step tc i;
      do states <- run tc' rest;
      Some (tc :: states)
  end.

End App.

(* ================================================================== *)
(** * Vocabulary of the statements *)

Section EnforcerVocabulary.
Import Config Signal Constraints.

(** Equality of phases as Python's [==] on the dataclass sees it. *)
Definition phase_eq (p q : Phase) : Prop :=
  phase_id p = phase_id q /\ phase_type p = phase_type q /\
  served_directions p = served_directions q /\
  is_left_turn p = is_left_turn q /\
  use_protected_left p = use_protected_left q /\
  green_time_s p == green_time_s q /\
  yellow_time_s p == yellow_time_s q /\
  all_red_time_s p == all_red_time_s q /\
  walk_time_s p == walk_time_s q /\
  ped_clearance_time_s p == ped_clearance_time_s q.

(** The per-kind clamp of step one of [enforce]. *)
Definition clamp_green (c : TimingConstraints) (left : bool) (g : Q) : Q :=
  Num.py_max (if left then min_protected_left_green_s c else min_green_s c)
    (Num.py_min (if left then max_protected_left_green_s c else max_green_s c) g).

End EnforcerVocabulary.

Section SignalVocabulary.
Import Config Signal.

(** The heads [_apply_signals_for_current_state] derives. *)
Definition derived_heads (phase : Phase) (step : PhaseStep.t) (hs : Heads) : Heads :=
  match step with
  | PhaseStep.ALL_RED => dm_map reset_head hs
  | _ =>
      fold_left
        (fun hs d => dm_set hs d (apply_served phase step (dm_get hs d)))
        (served_directions phase) (dm_map reset_head hs)
  end.

(** The index of the current phase is inside the ring. *)
Definition valid (sc : SignalController) : Prop :=
  (current_phase_idx sc < length (phases (phase_ring sc)))%nat.

(** The controller after a sub-step change inside the current phase. *)
Definition entered (sc : SignalController) (st : PhaseStep.t) (now : Q)
  (phase : Phase) : SignalController :=
  set_signal_heads (set_step_start_time (set_current_step sc st) now)
    (derived_heads phase st (signal_heads sc)).

(** What one input does to the sub-step and to the green displays: the
    sub-step stays and no head turns green, or the machine takes one edge of
    GREEN -> YELLOW -> ALL_RED -> GREEN (FLASHING_YELLOW -> YELLOW), and
    a head can turn green only on the edge out of ALL_RED. *)
Definition one_edge (sc sc' : SignalController) : Prop :=
  (current_step sc' = current_step sc /\
   forall d, green_head (dm_get (signal_heads sc') d) = true ->
             green_head (dm_get (signal_heads sc) d) = true)
  \/ ((current_step sc = PhaseStep.GREEN \/
       current_step sc = PhaseStep.FLASHING_YELLOW) /\
      current_step sc' = PhaseStep.YELLOW /\
      forall d, green_head (dm_get (signal_heads sc') d) = false)
  \/ (current_step sc = PhaseStep.YELLOW /\
      current_step sc' = PhaseStep.ALL_RED /\
      forall d, green_head (dm_get (signal_heads sc') d) = false)
  \/ (current_step sc = PhaseStep.ALL_RED /\
      current_step sc' = PhaseStep.GREEN).

(** A controller inside a ring of safe phases whose heads do not conflict. *)
Definition safe_state (sc : SignalController) : Prop :=
  valid sc /\
  Forall (fun p => phase_safe p = true) (phases (phase_ring sc)) /\
  conflict_found (signal_heads sc) = false.



(** Two phases that differ at most in durations and left-turn mode. *)
Definition same_layout (p q : Phase) : Prop :=
  phase_id p = phase_id q /\ phase_type p = phase_type q /\
  served_directions p = served_directions q /\
  is_left_turn p = is_left_turn q.

(** The retiming that turns a phase of the same layout into [q]. *)
Definition retiming_of (q : Phase) : Retiming :=
  {| new_green := green_time_s q; new_yellow := yellow_time_s q;
     new_all_red := all_red_time_s q; new_walk := walk_time_s q;
     new_ped_clearance := ped_clearance_time_s q;
     new_protected := use_protected_left q |}.

(** The controller of the application: the standard four-phase ring under
    the default constraints, created at clock reading 0. *)
Definition standard_ring : PhaseRing :=
  match create_standard_4way default_timing with
  | Some ring => ring
  | None => {| phases := [] |}
  end.

Definition standard_controller : SignalController :=
  match new_controller standard_ring default_timing 0 with
  | Some sc => sc
  | None =>
      {| phase_ring := standard_ring; timing := default_timing;
         current_phase_idx := 0%nat; current_step := PhaseStep.GREEN;
         step_start_time := 0; cycle_count := 0%Z; is_preempted := false;
         preemption_direction := None; signal_heads := dm_init new_head |}
  end.

(** A run through a preemption of EAST during the N/S through phase and on
    to the E/W through phase, and the states it is observed in. *)
Definition preemption_run : list Event :=
  [Tick 8; Tick 12; Tick 14.5; RequestPreemption EAST 15; Tick 19;
   Tick 21.5; Tick 60; ClearPreemption; Tick 61; Tick 65;
   Tick 67.5; Tick 75.5; Tick 79.5; Tick 82].

Definition preemption_trace : list SignalController :=
  match trace standard_controller preemption_run with
  | Some tr => tr
  | None => []
  end.

Definition observed (n : nat) : SignalController :=
  nth n preemption_trace standard_controller.

(** The test suite's forced conflict: N and E vehicle heads set to GREEN
    from outside the state machine. *)
Definition forced_conflict : SignalController :=
  let heads := signal_heads standard_controller in
  let heads :=
    dm_set heads NORTH (set_vehicle_signal (dm_get heads NORTH) SignalState.GREEN) in
  let heads :=
    dm_set heads EAST (set_vehicle_signal (dm_get heads EAST) SignalState.GREEN) in
  set_signal_heads standard_controller heads.

End SignalVocabulary.

Arguments derived_heads : simpl never.

Section MonitorVocabulary.
Import Config Signal Conflict.

Definition clean (sc : SignalController) : Prop :=
  conflict_seen (signal_heads sc) = false.

End MonitorVocabulary.

Section PreemptionVocabulary.
Import Config Preemption.

(** Queued events have not been activated, the active event is active,
    archived events have been cleared. *)
Definition manager_inv (m : PreemptionManager) : Prop :=
  Forall (fun ev => activated_at ev = None /\ cleared_at ev = None) (pending m) /\
  (forall ev, active_event m = Some ev -> event_is_active ev = true) /\
  Forall (fun ev => cleared_at ev <> None) (history m).

End PreemptionVocabulary.

Section AdaptiveVocabulary.
Import Config Signal Adaptive.

(** A fresh engine on the standard intersection with the given through
    queues for N, S, E, W and empty left-turn lanes. *)
Definition engine_with (n s e w : Z) : AdaptiveTimingEngine :=
  {| intersection :=
       Intersection.create_standard default_flow 48
         (fun d => match d with
                   | NORTH => (n, 0%Z) | SOUTH => (s, 0%Z)
                   | EAST => (e, 0%Z) | WEST => (w, 0%Z)
                   end);
     timing := default_timing;
     smoothing_alpha := 0.6;
     _prev_ds := [] |}.

(** [green_time_to_clear] where it returns. *)
Definition clear_time (l : Intersection.Lane) (lost : Q) : Q :=
  if (Intersection.queue_count l <=? 0)%Z then 0
  else inject_Z (Intersection.queue_count l)
       / Intersection.saturation_flow_per_sec l + lost.

(** The ideal green of a phase: the longest clearing time among the lanes
    of its served directions. *)
Definition phase_ideal_green (i : Intersection.Intersection)
  (tm : TimingConstraints) (phase : Phase) : Q :=
  fold_left
    (fun a d =>
       Num.py_max a
         (clear_time (relevant_lane phase (Intersection.approach i d))
            (startup_lost_time_s tm)))
    (served_directions phase) 0.

(** What the demand computed for a phase holds, but for the smoothed DS. *)
Definition demand_of (i : Intersection.Intersection) (tm : TimingConstraints)
  (p : Phase) (d : PhaseDemand) : Prop :=
  phase_id d = Signal.phase_id p /\
  total_queue d = phase_total_queue i p /\
  ideal_green_s d = phase_ideal_green i tm p /\
  needs_protected_left d =
    is_left_turn p && (left_turn_queue_threshold tm <=? phase_total_queue i p)%Z.

(** The weight [_allocate_green_splits] gives the demand of a phase. *)
Definition weight_value (tm : TimingConstraints) (p : Phase) (d : PhaseDemand) : Q :=
  if is_left_turn p && negb (needs_protected_left d)
  then min_protected_left_green_s tm * 0.5
  else if (total_queue d =? 0)%Z then min_green_s tm
       else Num.py_max (min_green_s tm) (ideal_green_s d).

(** The items of the weights dictionary: one per phase, in ring order. *)
Definition weight_items (tm : TimingConstraints) (ps : list Phase)
  (ds : list PhaseDemand) : Dict :=
  map (fun pd => (Signal.phase_id (fst pd), weight_value tm (fst pd) (snd pd)))
      (combine ps ds).

End AdaptiveVocabulary.

(* ------------------------------------------------------------------ *)
(** ** Vocabulary of the properties of runs, plans, counting and the loop *)

Section RunVocabulary.
Import Config Signal.

(** The displays a head can be put in: the rest state, the five displays
    of [_apply_signals_for_current_state], the preemption green and the
    fault display. *)
Definition display_ok (h : SignalHead) : bool :=
  match vehicle_signal h, left_turn_signal h, pedestrian_signal h with
  | SignalState.RED, SignalState.RED, SignalState.DONT_WALK
  | SignalState.RED, SignalState.GREEN_ARROW, SignalState.DONT_WALK
  | SignalState.RED, SignalState.FLASHING_YELLOW, SignalState.DONT_WALK
  | SignalState.RED, SignalState.YELLOW_ARROW, SignalState.DONT_WALK
  | SignalState.GREEN, SignalState.FLASHING_YELLOW, SignalState.WALK
  | SignalState.YELLOW, SignalState.RED, SignalState.PED_CLEARANCE
  | SignalState.GREEN, SignalState.RED, SignalState.DONT_WALK
  | SignalState.ALL_RED, SignalState.ALL_RED, SignalState.DONT_WALK => true
  | _, _, _ => false
  end.

(** The three lamps of a head. *)
Definition lamps (h : SignalHead) : SignalState.t * SignalState.t * SignalState.t :=
  (vehicle_signal h, left_turn_signal h, pedestrian_signal h).

(** Every head rests: red, red, don't walk. *)
Definition all_heads_red (sc : SignalController) : Prop :=
  forall d, lamps (dm_get (signal_heads sc) d)
            = (SignalState.RED, SignalState.RED, SignalState.DONT_WALK).

(** The preemption hold for [d]: the GREEN sub-step with the vehicle signal
    of [d] green and every other lamp at rest. *)
Definition holds_for (sc : SignalController) (d : Direction) : Prop :=
  current_step sc = PhaseStep.GREEN /\
  is_preempted sc = true /\ preemption_direction sc = Some d /\
  forall d', lamps (dm_get (signal_heads sc) d')
             = (if Direction_eqb d' d then SignalState.GREEN else SignalState.RED,
                SignalState.RED, SignalState.DONT_WALK).

(** The ring position after the one transition that moves it. *)
Definition wraps (sc : SignalController) : bool :=
  Nat.eqb (next_phase_index (phase_ring sc) (current_phase_idx sc)) 0
  && negb (Nat.eqb (current_phase_idx sc) 0).

(** The test [elapsed >= duration] of [tick]. *)
Definition is_due (sc : SignalController) (now : Q) : bool :=
  match _current_step_duration sc with
  | Some dur => Num.elapsed_ge (now - step_start_time sc) dur
  | None => false
  end.

Definition rest_lamps : SignalState.t * SignalState.t * SignalState.t :=
  (SignalState.RED, SignalState.RED, SignalState.DONT_WALK).

(** The lamps a served head gets in a sub-step. *)
Definition served_lamps (phase : Phase) (step : PhaseStep.t)
  : SignalState.t * SignalState.t * SignalState.t :=
  lamps (apply_served phase step (new_head NORTH)).

(** A controller on a ring of one phase (the first of the standard ring),
    and a run through two of its phases' worth of ticks. *)
Definition single_phase_controller : SignalController :=
  match new_controller {| phases := firstn 1 (phases standard_ring) |}
          default_timing 0 with
  | Some sc => sc
  | None => standard_controller
  end.

Definition single_phase_run : list Event :=
  [Tick 8; Tick 12; Tick 14.5; Tick 22.5; Tick 26.5; Tick 29].

Definition single_phase_trace : list SignalController :=
  match trace single_phase_controller single_phase_run with
  | Some tr => tr
  | None => []
  end.

End RunVocabulary.


Section EnforcerBoundsVocabulary.
Import Config Signal Constraints.

(** What [enforce] establishes, read on a phase alone: the fixed
    clearances, the minimum green of the phase's kind and, on a through
    phase, the minimum walk, the derived pedestrian clearance and a green
    that contains both. *)
Definition meets_constraints (c : TimingConstraints) (f : Phase) : Prop :=
  yellow_time_s f = yellow_clearance_s c /\
  all_red_time_s f = all_red_clearance_s c /\
  (if is_left_turn f then min_protected_left_green_s c else min_green_s c)
  <= green_time_s f /\
  (is_left_turn f = false ->
   min_walk_s c <= walk_time_s f /\
   ped_clearance_s c = Some (ped_clearance_time_s f) /\
   walk_time_s f + ped_clearance_time_s f <= green_time_s f).

(** The ring of the application with the greens a plan might ask for. *)
Definition requested_ring : list Phase :=
  map (fun p => set_green_time_s p (if is_left_turn p then 3 else 90))
      (phases standard_ring).

End EnforcerBoundsVocabulary.

Section PlanVocabulary.
Import Config Signal Adaptive.

(** The degree of saturation [_compute_demands] computes before smoothing:
    the summed queue over the capacity of the lane of the first served
    direction, the capacity floored at 1. *)
Definition raw_ds (i : Intersection.Intersection) (p : Phase) : Q :=
  match hd_error (served_directions p) with
  | Some first =>
      inject_Z (phase_total_queue i p)
      / Num.py_max 1
          (green_time_s p
           * Intersection.saturation_flow_per_sec
               (relevant_lane p (Intersection.approach i first)))
  | None => 0
  end.

(** A phase the demand computation cannot handle: it serves no direction
    (IndexError), or one of its lanes holds a queue and has no saturation
    flow (ZeroDivisionError). *)
Definition unservable (i : Intersection.Intersection) (p : Phase) : Prop :=
  served_directions p = [] \/
  exists d, In d (served_directions p) /\
    (0 < queue_of i p d)%Z /\
    Intersection.saturation_flow (relevant_lane p (Intersection.approach i d)) == 0.

(** The fixed time of a ring: yellow plus all-red over its phases. *)
Definition ring_fixed_time (ring : PhaseRing) : Q :=
  Num.py_sum (map (fun p => yellow_time_s p + all_red_time_s p) (phases ring)).

End PlanVocabulary.

Section PreemptionRunVocabulary.
Import Config Preemption.

(** The directions of the manager's events in the order it serves them:
    those archived, the one active, those waiting. *)
Definition service_order (m : PreemptionManager) : list Direction :=
  map direction
    (history m
     ++ match active_event m with Some ev => [ev] | None => [] end
     ++ pending m).

(** The directions a list of calls requests, in the order of the calls. *)
Definition requested (cs : list Call) : list Direction :=
  flat_map (fun c => match c with Request d _ _ => [d] | _ => [] end) cs.

(** No event waits behind an idle manager. *)
Definition no_idle_wait (m : PreemptionManager) : Prop :=
  active_event m = None -> pending m = [].

(** The manager and its controller agree on the preemption in force. *)
Definition agree (m : PreemptionManager) (sc : Signal.SignalController) : Prop :=
  Signal.is_preempted sc = is_active m /\
  Signal.preemption_direction sc = option_map direction (active_event m).

(** Three requests, a clear, a time-out and a tick of the state machine. *)
Definition manager_run : list Call :=
  [Request NORTH 10 1; Request EAST 10 2; Request WEST 10 3; Clear 4;
   SignalTick 8; ManagerTick 200].

End PreemptionRunVocabulary.

Section VisionVocabulary.
Import Config Vision.

(** The bands of the frame [count_vehicles_simple] maps to the approaches,
    read as geometry: the top and bottom bands over the full width, the
    right and left bands between them, and the central square. *)
Definition in_band (d : Direction) (v : DetectedVehicle) : bool :=
  match d with
  | NORTH => Num.Qltb (y v) 0.3
  | SOUTH => Num.Qltb 0.7 (y v)
  | EAST => Qle_bool 0.3 (y v) && Qle_bool (y v) 0.7 && Num.Qltb 0.7 (x v)
  | WEST => Qle_bool 0.3 (y v) && Qle_bool (y v) 0.7 && Num.Qltb (x v) 0.3
  end.

Definition in_centre (v : DetectedVehicle) : bool :=
  Qle_bool 0.3 (y v) && Qle_bool (y v) 0.7
  && Qle_bool 0.3 (x v) && Qle_bool (x v) 0.7.

(** The number of elements a test accepts, as Python's [int]. *)
Definition how_many {A} (f : A -> bool) (l : list A) : Z :=
  Z.of_nat (length (filter f l)).

(** The axis-parallel rectangle with corners [(x0, y0)] and [(x1, y1)],
    its vertices in order. *)
Definition rectangle (x0 y0 x1 y1 : Q) : list (Q * Q) :=
  [(x0, y0); (x1, y0); (x1, y1); (x0, y1)].

(** The sum of the values of a counts dictionary. *)
Definition total (c : Counts) : Z := fold_right Z.add 0%Z (map snd c).

(** A vehicle some region of the list catches. *)
Definition caught (rois : list LaneROI) (v : DetectedVehicle) : bool :=
  match first_match (x v) (y v) rois with
  | Some (Some _) => true
  | _ => false
  end.

(** A frame and two lane regions to count it in. *)
Definition sample_vehicle (px py : Q) : DetectedVehicle :=
  {| x := px; y := py; width := 0.03; height := 0.05; confidence := 0.9 |}.

Definition sample_result : DetectionResult :=
  {| vehicles :=
       [sample_vehicle 0.45 0.1; sample_vehicle 0.4 0.2; sample_vehicle 0.9 0.45;
        sample_vehicle 0.1 0.1; sample_vehicle 0.5 0.5; sample_vehicle 0.55 0.9];
     frame_timestamp := 0; processing_time_ms := 1;
     confidence_threshold := 0.5 |}.

Definition sample_rois : list LaneROI :=
  [ {| direction := NORTH; lane_type := LT_THROUGH;
       polygon := rectangle 0.42 0 0.6 0.3 |};
    {| direction := NORTH; lane_type := LT_LEFT_TURN;
       polygon := rectangle 0.3 0 0.42 0.3 |};
    {| direction := EAST; lane_type := LT_THROUGH; polygon := [] |} ].

End VisionVocabulary.

Section MockVocabulary.
Import Config Vision Mock.

(** The queue of a lane after the arrival and departure drawn for it. *)
Definition drawn_queue (draws : Direction -> Draws) (q : Queues)
  (d : Direction) (lt : LaneType) : Z :=
  match lt with
  | LT_THROUGH =>
      step_queue (queue_of q d LT_THROUGH)
        (through_arrival (draws d)) (through_departure (draws d))
  | LT_LEFT_TURN =>
      step_queue (queue_of q d LT_LEFT_TURN)
        (left_arrival (draws d)) (left_departure (draws d))
  end.

(** The vehicles [detect] renders for one approach. *)
Definition rendered (looks : Direction -> LaneType -> Z -> Looks)
  (d : Direction) (through left : Z) : list DetectedVehicle :=
  map (fun i => _make_vehicle (looks d LT_THROUGH i) d LT_THROUGH i) (range through)
  ++ map (fun i => _make_vehicle (looks d LT_LEFT_TURN i) d LT_LEFT_TURN i)
       (range left).

(** A provider with some traffic queued, and draws for one frame. *)
Definition busy_provider : MockProvider :=
  set_queue (set_queue (set_queue initialize NORTH LT_THROUGH 25)
               EAST LT_LEFT_TURN 3) WEST LT_THROUGH 1.

Definition sample_draws (d : Direction) : Draws :=
  match d with
  | NORTH => {| through_arrival := true; through_departure := false;
                left_arrival := true; left_departure := false |}
  | WEST => {| through_arrival := false; through_departure := true;
               left_arrival := false; left_departure := true |}
  | _ => {| through_arrival := true; through_departure := true;
            left_arrival := false; left_departure := false |}
  end.

Definition sample_looks (d : Direction) (lt : LaneType) (i : Z) : Looks :=
  {| r_width := 0.5; r_height := 0.25; r_confidence := 0.75 |}.

End MockVocabulary.

Section ObservedVocabulary.
Import Config Signal.
Context {S : Type}.
Variable cb : Z -> S -> PhaseRing -> option (S * PhaseRing).

(** The observed machine takes the step of the plain one; the observer
    runs exactly when the cycle counter grows, on the ring as the step left
    it, and what it returns replaces the ring. *)
Definition observed_step (s : S) (sc : SignalController) (s' : S)
  (sc1 sc' : SignalController) : Prop :=
  (s' = s /\ sc' = sc1 /\ cycle_count sc1 = cycle_count sc)
  \/
  (exists ring',
     cb (cycle_count sc1) s (phase_ring sc1) = Some (s', ring') /\
     sc' = set_phase_ring sc1 ring' /\
     cycle_count sc1 = (cycle_count sc + 1)%Z /\
     (is_preempted sc = false \/ preemption_direction sc = None)).

End ObservedVocabulary.

Section AppVocabulary.
Import Config.

(** No lane holds a negative queue. *)
Definition lanes_nonneg (i : Intersection.Intersection) : Prop :=
  forall d,
    (0 <= Intersection.queue_count (Intersection.through_lane (Intersection.approach i d)))%Z /\
    (0 <= Intersection.queue_count (Intersection.left_turn_lane (Intersection.approach i d)))%Z.

(** The controller in order: no conflicting greens on the heads, a monitor
    that has seen and latched nothing, the manager and the state machine
    agreeing on the preemption, every completed cycle retimed, and no
    negative queue. *)
Definition in_order (tc : App.TrafficController) : Prop :=
  Signal.conflict_found (Signal.signal_heads (App.signal_controller tc)) = false /\
  Conflict.fault_active (App.conflict_monitor tc) = false /\
  Conflict.conflict_count (App.conflict_monitor tc) = 0%Z /\
  agree (App.preemption_manager tc) (App.signal_controller tc) /\
  App.last_cycle_count tc = Signal.cycle_count (App.signal_controller tc) /\
  lanes_nonneg (App.intersection tc).

(** What the proofs carry along with [in_order]. *)
Definition app_inv (tc : App.TrafficController) : Prop :=
  safe_state (App.signal_controller tc) /\
  no_idle_wait (App.preemption_manager tc) /\
  in_order tc.

(** The ring has the layout of the standard ring, and the engine the
    constraints and the lanes the flows of the configuration. *)
Definition as_configured (tc : App.TrafficController) : Prop :=
  Forall2 same_layout (Signal.phases standard_ring)
    (Signal.phases (App.phase_ring tc)) /\
  Adaptive.timing (App.timing_engine tc) = App.timing (App.config tc) /\
  (forall d,
     Intersection.saturation_flow
       (Intersection.through_lane (Intersection.approach (App.intersection tc) d))
     = through_lane_flow (App.flow (App.config tc)) /\
     Intersection.saturation_flow
       (Intersection.left_turn_lane (Intersection.approach (App.intersection tc) d))
     = left_turn_lane_flow (App.flow (App.config tc))) /\
  match App.provider tc with
  | App.MockProvider p => Mock._initialized p = true
  | App.YOLOv8Provider => True
  end.


(** The default configuration, and a sensed frame. *)
Definition default_config : App.IntersectionConfig :=
  {| App.timing := default_timing; App.flow := default_flow;
     App.provider_type := App.PT_MOCK; App.target_fps := 3 |}.

Definition real_config : App.IntersectionConfig :=
  {| App.timing := default_timing; App.flow := default_flow;
     App.provider_type := App.PT_YOLOV8; App.target_fps := 3 |}.

Definition sample_sensed (clock : Q) : App.Sensed :=
  {| App.check_clock := clock; App.manager_clock := clock;
     App.draws := sample_draws; App.looks := sample_looks;
     App.detect_clock := clock; App.detect_ms := 2;
     App.detections := sample_result |}.

Definition sample_inputs : list App.Input :=
  [App.TickAt 1 (sample_sensed 1); App.TickAt 20 (sample_sensed 20);
   App.Trigger EAST 21; App.TickAt 30 (sample_sensed 30);
   App.TickAt 40 (sample_sensed 40); App.Trigger NORTH 41;
   App.TickAt 60 (sample_sensed 60); App.ClearAt 61;
   App.TickAt 70 (sample_sensed 70)].

End AppVocabulary.

(* ================================================================== *)
(** * Verification *)

(* ------------------------------------------------------------------ *)
(** ** Comparisons, [max] and [min] *)

Section NumFacts.
Import Num.

Lemma Qltb_lt (a b : Q) : Qltb a b = true <-> a < b.
Proof.
  unfold Qltb. rewrite negb_true_iff.
  destruct (Qle_bool b a) eqn:E.
  - apply Qle_bool_iff in E. split; [discriminate | intro; lra].
  - split; [intros _ | reflexivity].
    destruct (Qlt_le_dec a b) as [H | H]; [exact H |].
    apply Qle_bool_iff in H. congruence.
Qed.

Lemma Qltb_ge (a b : Q) : Qltb a b = false <-> b <= a.
Proof.
  destruct (Qltb a b) eqn:E.
  - apply Qltb_lt in E. split; [discriminate | intro; lra].
  - split; [intros _ | reflexivity].
    destruct (Qlt_le_dec a b) as [H | H]; [| exact H].
    apply Qltb_lt in H. congruence.
Qed.

Lemma Qle_bool_gt (a b : Q) : Qle_bool a b = false <-> b < a.
Proof.
  destruct (Qle_bool a b) eqn:E.
  - apply Qle_bool_iff in E. split; [discriminate | intro; lra].
  - split; [intros _ | reflexivity].
    destruct (Qlt_le_dec b a) as [H | H]; [exact H |].
    apply Qle_bool_iff in H. congruence.
Qed.

Lemma py_max_cases (a b : Q) :
  (a < b /\ py_max a b = b) \/ (b <= a /\ py_max a b = a).
Proof.
  unfold py_max. destruct (Qltb a b) eqn:E.
  - left. split; [now apply Qltb_lt | reflexivity].
  - right. split; [now apply Qltb_ge | reflexivity].
Qed.

Lemma py_min_cases (a b : Q) :
  (b < a /\ py_min a b = b) \/ (a <= b /\ py_min a b = a).
Proof.
  unfold py_min. destruct (Qltb b a) eqn:E.
  - left. split; [now apply Qltb_lt | reflexivity].
  - right. split; [now apply Qltb_ge | reflexivity].
Qed.

Lemma py_max_Qmax (a b : Q) : py_max a b == Qmax a b.
Proof.
  destruct (py_max_cases a b) as [[H ->] | [H ->]].
  - symmetry. apply Q.max_r. lra.
  - symmetry. apply Q.max_l. exact H.
Qed.

Lemma py_min_Qmin (a b : Q) : py_min a b == Qmin a b.
Proof.
  destruct (py_min_cases a b) as [[H ->] | [H ->]].
  - symmetry. apply Q.min_r. lra.
  - symmetry. apply Q.min_l. exact H.
Qed.

Lemma py_max_lub (a b : Q) : a <= py_max a b /\ b <= py_max a b.
Proof. destruct (py_max_cases a b) as [[H ->] | [H ->]]; lra. Qed.

Lemma py_max_mono (a b b' : Q) : b <= b' -> py_max a b <= py_max a b'.
Proof.
  intro H.
  destruct (py_max_cases a b) as [[H1 ->] | [H1 ->]];
    destruct (py_max_cases a b') as [[H2 ->] | [H2 ->]]; lra.
Qed.

Lemma py_min_mono (a b b' : Q) : b <= b' -> py_min a b <= py_min a b'.
Proof.
  intro H.
  destruct (py_min_cases a b) as [[H1 ->] | [H1 ->]];
    destruct (py_min_cases a b') as [[H2 ->] | [H2 ->]]; lra.
Qed.

Lemma py_div_some (a b : Q) : ~ b == 0 -> py_div a b = Some (a / b).
Proof.
  intro H. unfold py_div.
  destruct (Qeq_bool b 0) eqn:E; [| reflexivity].
  apply Qeq_bool_iff in E. contradiction.
Qed.

Lemma py_div_inv (a b q : Q) : py_div a b = Some q -> ~ b == 0 /\ q = a / b.
Proof.
  unfold py_div. destruct (Qeq_bool b 0) eqn:E; [discriminate |].
  intro H. injection H as <-. split; [| reflexivity].
  now apply Qeq_bool_neq.
Qed.

End NumFacts.

(** Case analysis on every [max] and [min] of the goal and of the
    hypotheses. *)
Ltac py_case_on a b lem :=
  let H := fresh "Hcmp" in
  let E := fresh "Eq" in
  destruct (lem a b) as [[H E] | [H E]]; rewrite E in *; clear E.

Ltac py_cases :=
  repeat match goal with
    | |- context [Num.py_max ?a ?b] => py_case_on a b py_max_cases
    | |- context [Num.py_min ?a ?b] => py_case_on a b py_min_cases
    | _ : context [Num.py_max ?a ?b] |- _ => py_case_on a b py_max_cases
    | _ : context [Num.py_min ?a ?b] |- _ => py_case_on a b py_min_cases
    end.

(* ------------------------------------------------------------------ *)
(** ** The timing enforcer *)

Section EnforcerFacts.
Import Config Signal Constraints.

Lemma enforce_left c p :
  is_left_turn p = true ->
  enforce c p =
    Some (set_all_red_time_s
            (set_yellow_time_s
               (set_green_time_s p (clamp_green c true (green_time_s p)))
               (yellow_clearance_s c))
            (all_red_clearance_s c)).
Proof. intro H. unfold enforce, clamp_green. simpl. rewrite H. reflexivity. Qed.

Lemma enforce_through c p ped :
  is_left_turn p = false ->
  ped_clearance_s c = Some ped ->
  let walk := Num.py_max (min_walk_s c) (walk_time_s p) in
  let g := clamp_green c false (green_time_s p) in
  enforce c p =
    Some {| phase_id := phase_id p; phase_type := phase_type p;
            served_directions := served_directions p; is_left_turn := false;
            green_time_s := if Num.Qltb g (walk + ped) then walk + ped else g;
            yellow_time_s := yellow_clearance_s c;
            all_red_time_s := all_red_clearance_s c;
            walk_time_s := walk; ped_clearance_time_s := ped;
            use_protected_left := use_protected_left p |}.
Proof.
  intros H Hp. unfold enforce, clamp_green. simpl. rewrite H, Hp. simpl.
  unfold set_green_time_s, set_ped_clearance_time_s, set_walk_time_s,
    set_all_red_time_s, set_yellow_time_s. simpl. rewrite H.
  destruct (Num.Qltb _ _); reflexivity.
Qed.

Lemma enforce_through_inv c p p' :
  is_left_turn p = false -> enforce c p = Some p' ->
  exists ped, ped_clearance_s c = Some ped.
Proof.
  intros H. unfold enforce. simpl. rewrite H. simpl.
  destruct (ped_clearance_s c) as [ped |]; [eauto | discriminate].
Qed.

(** [enforce] raises only on a through phase with a zero walking speed. *)
Lemma enforce_total c p :
  ~ ped_clearance_speed_ft_per_s c == 0 -> exists p', enforce c p = Some p'.
Proof.
  intro Hs. destruct (is_left_turn p) eqn:E.
  - rewrite (enforce_left c p E). eauto.
  - erewrite enforce_through; eauto.
    unfold ped_clearance_s. now apply py_div_some.
Qed.

Lemma clamp_green_idem c (left : bool) g :
  clamp_green c left (clamp_green c left g) = clamp_green c left g.
Proof.
  unfold clamp_green.
  set (lo := if left then _ else _). set (hi := if left then _ else _).
  destruct (py_min_cases hi g) as [[H1 E1] | [H1 E1]]; rewrite E1;
    destruct (py_max_cases lo (Num.py_min hi g)) as [[H2 E2] | [H2 E2]];
    rewrite E1 in *; rewrite ?E2; py_cases; try reflexivity; lra.
Qed.

Lemma clamp_green_mono c (left : bool) g g' :
  g <= g' -> clamp_green c left g <= clamp_green c left g'.
Proof. intro H. unfold clamp_green. now apply py_max_mono, py_min_mono. Qed.

(** Above the floor of its kind, the clamp never raises a green. *)
Lemma clamp_green_le c (left : bool) g :
  (if left then min_protected_left_green_s c else min_green_s c) <= g ->
  clamp_green c left g <= g.
Proof. unfold clamp_green. intro H. py_cases; lra. Qed.

Lemma clamp_green_floor c (left : bool) g :
  (if left then min_protected_left_green_s c else min_green_s c)
  <= clamp_green c left g.
Proof. unfold clamp_green. py_cases; lra. Qed.

End EnforcerFacts.

Section EnforcerTheorems.
Import Config Signal Constraints.

(** C3.  For a through phase (one with [is_left_turn] false) and any input
    timing of the phase, [enforce] returns a phase whose walk time plus
    pedestrian clearance fits inside its green; when that sum exceeds
    [max_green_s], so does the green.  [enforce] returns whenever the
    walking speed of the constraints is not zero. *)
Theorem enforce_pedestrian_containment (c : TimingConstraints) (p : Phase) :
  is_left_turn p = false ->
  ~ ped_clearance_speed_ft_per_s c == 0 ->
  exists p',
    enforce c p = Some p' /\
    walk_time_s p' + ped_clearance_time_s p' <= green_time_s p' /\
    (max_green_s c < walk_time_s p' + ped_clearance_time_s p' ->
     max_green_s c < green_time_s p').
Proof.
  intros Hl Hs.
  assert (Hp : ped_clearance_s c =
               Some (default_crosswalk_distance_ft c / ped_clearance_speed_ft_per_s c))
    by (unfold ped_clearance_s; now apply py_div_some).
  rewrite (enforce_through c p _ Hl Hp).
  eexists. split; [reflexivity |]. simpl.
  destruct (Num.Qltb _ _) eqn:E.
  - split; [lra | intro; assumption].
  - apply Qltb_ge in E. split; [exact E | intro; lra].
Qed.

Lemma enforce_pedestrian_containment_witness :
  exists p',
    enforce default_timing
      {| phase_id := 2; phase_type := PhaseType.THROUGH;
         served_directions := [NORTH; SOUTH]; is_left_turn := false;
         green_time_s := 15; yellow_time_s := 4; all_red_time_s := 2.5;
         walk_time_s := 60; ped_clearance_time_s := 14;
         use_protected_left := false |} = Some p' /\
    walk_time_s p' + ped_clearance_time_s p' <= green_time_s p' /\
    (max_green_s default_timing < walk_time_s p' + ped_clearance_time_s p' ->
     max_green_s default_timing < green_time_s p').
Proof.
  apply (enforce_pedestrian_containment default_timing).
  - reflexivity.
  - vm_compute. discriminate.
Defined.

(** C4.  [enforce] is idempotent: whenever [enforce p] returns a phase, a
    second [enforce] returns as well and leaves every field as it was,
    for a through or a left-turn phase and any starting durations. *)
Theorem enforce_idempotent (c : TimingConstraints) (p p1 : Phase) :
  enforce c p = Some p1 ->
  exists p2, enforce c p1 = Some p2 /\ phase_eq p2 p1.
Proof.
  intro H1. destruct (is_left_turn p) eqn:Hl.
  - rewrite (enforce_left c p Hl) in H1. injection H1 as <-.
    rewrite enforce_left by exact Hl.
    eexists. split; [reflexivity |].
    unfold phase_eq. simpl. rewrite clamp_green_idem.
    repeat split; reflexivity.
  - destruct (enforce_through_inv c p p1 Hl H1) as [ped Hp].
    rewrite (enforce_through c p ped Hl Hp) in H1. injection H1 as <-.
    erewrite enforce_through; [| reflexivity | exact Hp].
    eexists. split; [reflexivity |].
    unfold phase_eq. simpl.
    set (walk := Num.py_max (min_walk_s c) (walk_time_s p)).
    assert (Hw : Num.py_max (min_walk_s c) walk = walk)
      by (unfold walk; py_cases; try reflexivity; lra).
    rewrite Hw.
    set (g := clamp_green c false (green_time_s p)).
    repeat split; try reflexivity.
    destruct (Num.Qltb g (walk + ped)) eqn:E.
    + apply Qltb_lt in E.
      assert (Hfloor : min_green_s c <= g)
        by (apply (clamp_green_floor c false)).
      assert (Hle : clamp_green c false (walk + ped) <= walk + ped)
        by (apply (clamp_green_le c false); lra).
      destruct (Num.Qltb (clamp_green c false (walk + ped)) (walk + ped)) eqn:E2.
      * reflexivity.
      * apply Qltb_ge in E2. lra.
    + unfold g at 1 2. rewrite clamp_green_idem. fold g. rewrite E. reflexivity.
Qed.

Lemma enforce_idempotent_witness :
  exists p2,
    enforce default_timing
      {| phase_id := 2; phase_type := PhaseType.THROUGH;
         served_directions := [NORTH; SOUTH]; is_left_turn := false;
         green_time_s := 20.5 + 48 / 3.5; yellow_time_s := 4; all_red_time_s := 2.5;
         walk_time_s := 20.5; ped_clearance_time_s := 48 / 3.5;
         use_protected_left := false |} = Some p2 /\
    phase_eq p2
      {| phase_id := 2; phase_type := PhaseType.THROUGH;
         served_directions := [NORTH; SOUTH]; is_left_turn := false;
         green_time_s := 20.5 + 48 / 3.5; yellow_time_s := 4; all_red_time_s := 2.5;
         walk_time_s := 20.5; ped_clearance_time_s := 48 / 3.5;
         use_protected_left := false |}.
Proof.
  apply (enforce_idempotent default_timing
           {| phase_id := 2; phase_type := PhaseType.THROUGH;
              served_directions := [NORTH; SOUTH]; is_left_turn := false;
              green_time_s := 1; yellow_time_s := 99; all_red_time_s := 0;
              walk_time_s := 20.5; ped_clearance_time_s := 0;
              use_protected_left := false |}).
  reflexivity.
Defined.

End EnforcerTheorems.

(* ------------------------------------------------------------------ *)
(** ** The signal state machine *)

Section SignalFacts.
Import Config Signal.

Lemma Direction_eqb_eq (a b : Direction) : Direction_eqb a b = true <-> a = b.
Proof. destruct a, b; simpl; split; intro H; try reflexivity; discriminate. Qed.

Lemma dm_get_set {A} (m : DirMap A) (d d' : Direction) (a : A) :
  dm_get (dm_set m d a) d' = if Direction_eqb d' d then a else dm_get m d'.
Proof. destruct d, d'; reflexivity. Qed.

Lemma dm_get_map {A B} (f : A -> B) (m : DirMap A) (d : Direction) :
  dm_get (dm_map f m) d = f (dm_get m d).
Proof. destruct d; reflexivity. Qed.

Lemma mem_dir_In (d : Direction) (l : list Direction) :
  mem_dir d l = true <-> In d l.
Proof.
  unfold mem_dir. rewrite existsb_exists. split.
  - intros [x [Hx E]]. apply Direction_eqb_eq in E. now subst.
  - intro H. exists d. split; [exact H | now apply Direction_eqb_eq].
Qed.

Lemma mem_dir_filter (f : Direction -> bool) (d : Direction) :
  mem_dir d (filter f all_directions) = f d.
Proof.
  unfold all_directions. simpl.
  destruct (f NORTH) eqn:EN, (f SOUTH) eqn:ES, (f EAST) eqn:EE, (f WEST) eqn:EW;
    destruct d; simpl; congruence.
Qed.

Lemma apply_signals_eq sc phase :
  current_phase sc = Some phase ->
  _apply_signals_for_current_state sc =
    Some (set_signal_heads sc
            (derived_heads phase (current_step sc) (signal_heads sc))).
Proof.
  intro H. unfold _apply_signals_for_current_state, derived_heads.
  rewrite H. destruct (current_step sc); reflexivity.
Qed.

(** A property of heads kept by every served-direction update holds of
    the derived heads. *)
Lemma served_fold_invariant (P : Heads -> Prop) phase step :
  (forall hs d, P hs -> P (dm_set hs d (apply_served phase step (dm_get hs d)))) ->
  forall l hs, P hs ->
    P (fold_left
         (fun hs d => dm_set hs d (apply_served phase step (dm_get hs d))) l hs).
Proof.
  intros Hstep l. induction l as [| d l IH]; intros hs H; simpl.
  - exact H.
  - apply IH, Hstep, H.
Qed.

(** Only served directions are in [green_directions] after derivation. *)
Lemma derived_heads_served phase step hs d :
  shows_green (dm_get (derived_heads phase step hs) d) = true ->
  In d (served_directions phase).
Proof.
  assert (Hreset : forall d', shows_green (dm_get (dm_map reset_head hs) d') = false)
    by (intro d'; rewrite dm_get_map; reflexivity).
  assert (Hfold : forall l hs0,
    (forall d', shows_green (dm_get hs0 d') = true -> In d' (served_directions phase)) ->
    incl l (served_directions phase) ->
    forall d', shows_green
        (dm_get (fold_left
           (fun hs d => dm_set hs d (apply_served phase step (dm_get hs d))) l hs0) d')
        = true -> In d' (served_directions phase)).
  { induction l as [| x l IH]; intros hs0 H0 Hincl d'; simpl.
    - apply H0.
    - apply IH.
      + intros d''. rewrite dm_get_set.
        destruct (Direction_eqb d'' x) eqn:E.
        * apply Direction_eqb_eq in E. subst. intros _. apply Hincl. now left.
        * apply H0.
      + intros y Hy. apply Hincl. now right. }
  unfold derived_heads. destruct step;
    try (apply Hfold; [intros d' H; now rewrite Hreset in H | apply incl_refl]).
  intro H. now rewrite Hreset in H.
Qed.

(** Outside the GREEN step no derived head displays green. *)
Lemma derived_heads_no_green phase step hs d :
  step <> PhaseStep.GREEN ->
  green_head (dm_get (derived_heads phase step hs) d) = false.
Proof.
  intro Hs.
  assert (Hreset : forall d', green_head (dm_get (dm_map reset_head hs) d') = false)
    by (intro d'; rewrite dm_get_map; reflexivity).
  destruct step; try congruence; unfold derived_heads; try apply Hreset;
    revert d;
    apply (served_fold_invariant
             (fun hs => forall d, green_head (dm_get hs d) = false));
    try exact Hreset;
    intros hs0 x H0 d; rewrite dm_get_set;
    (destruct (Direction_eqb d x); [| apply H0]);
    specialize (H0 x); unfold green_head in *; simpl;
    destruct (is_left_turn phase); simpl; try exact H0;
    destruct (vehicle_signal (dm_get hs0 x)); simpl in *; congruence.
Qed.

(** In the YELLOW sub-step of a phase every served direction is shown
    yellow: the vehicle head of a through phase, the arrow of a left-turn
    phase. *)
Lemma derived_heads_yellow phase hs d :
  In d (served_directions phase) ->
  let head := dm_get (derived_heads phase PhaseStep.YELLOW hs) d in
  if is_left_turn phase
  then left_turn_signal head = SignalState.YELLOW_ARROW
  else vehicle_signal head = SignalState.YELLOW.
Proof.
  unfold derived_heads.
  generalize (dm_map reset_head hs) as hs0.
  induction (served_directions phase) as [| x l IH] using rev_ind;
    intros hs0 Hin; [contradiction |].
  rewrite fold_left_app. simpl. rewrite dm_get_set.
  destruct (Direction_eqb d x) eqn:E.
  - destruct (is_left_turn phase); reflexivity.
  - apply in_app_or in Hin. destruct Hin as [Hin | [-> | []]].
    + now apply IH.
    + destruct d; discriminate.
Qed.

Lemma conflict_found_iff heads :
  conflict_found heads = true <->
  exists d1 d2, In (d1, d2) conflicts /\
    shows_green (dm_get heads d1) = true /\ shows_green (dm_get heads d2) = true.
Proof.
  unfold conflict_found, green_directions. rewrite existsb_exists. split.
  - intros [[d1 d2] [Hin H]]. rewrite !mem_dir_filter in H.
    apply andb_true_iff in H. exists d1, d2. tauto.
  - intros (d1 & d2 & Hin & H1 & H2). exists (d1, d2). split; [exact Hin |].
    rewrite !mem_dir_filter, H1, H2. reflexivity.
Qed.

(** Greens confined to the directions of a safe phase do not conflict. *)
Lemma safe_phase_no_conflict phase heads :
  phase_safe phase = true ->
  (forall d, shows_green (dm_get heads d) = true -> In d (served_directions phase)) ->
  conflict_found heads = false.
Proof.
  intros Hsafe Hin. destruct (conflict_found heads) eqn:E; [| reflexivity].
  apply conflict_found_iff in E. destruct E as (d1 & d2 & Hc & H1 & H2).
  unfold phase_safe in Hsafe. apply negb_true_iff in Hsafe.
  assert (X : existsb
            (fun '(d1, d2) =>
               mem_dir d1 (served_directions phase)
               && mem_dir d2 (served_directions phase)) conflicts = true).
  { apply existsb_exists. exists (d1, d2). split; [exact Hc |].
    apply andb_true_iff. split; apply mem_dir_In; auto. }
  congruence.
Qed.

(** Greens confined to one direction do not conflict. *)
Lemma single_green_no_conflict (d0 : Direction) heads :
  (forall d, shows_green (dm_get heads d) = true -> d = d0) ->
  conflict_found heads = false.
Proof.
  intro H. destruct (conflict_found heads) eqn:E; [| reflexivity].
  apply conflict_found_iff in E. destruct E as (d1 & d2 & Hc & H1 & H2).
  apply H in H1, H2. subst.
  unfold conflicts in Hc. simpl in Hc.
  repeat (destruct Hc as [Hc | Hc]; [congruence |]). contradiction.
Qed.

Lemma fault_mode_no_conflict sc :
  conflict_found (signal_heads (_enter_fault_mode sc)) = false.
Proof.
  destruct (conflict_found _) eqn:E; [| reflexivity].
  apply conflict_found_iff in E. destruct E as (d1 & d2 & _ & H1 & _).
  unfold _enter_fault_mode in H1. simpl in H1. rewrite dm_get_map in H1.
  discriminate.
Qed.

Lemma check_conflicts_no_conflict sc :
  conflict_found (signal_heads (_check_conflicts sc)) = false.
Proof.
  unfold _check_conflicts. destruct (conflict_found (signal_heads sc)) eqn:E.
  - apply fault_mode_no_conflict.
  - exact E.
Qed.

Lemma valid_current_phase sc :
  valid sc -> exists phase, current_phase sc = Some phase.
Proof.
  unfold valid, current_phase. intro H.
  destruct (nth_error _ _) eqn:E; [eauto |].
  apply nth_error_None in E. lia.
Qed.

Lemma current_phase_valid sc phase : current_phase sc = Some phase -> valid sc.
Proof.
  unfold valid, current_phase. intro H.
  apply nth_error_Some. congruence.
Qed.

Lemma current_phase_In sc phase :
  current_phase sc = Some phase -> In phase (phases (phase_ring sc)).
Proof. unfold current_phase. apply nth_error_In. Qed.

Lemma retime_phases_length ps rs : length (retime_phases ps rs) = length ps.
Proof.
  revert rs. induction ps as [| p ps IH]; intros [| r rs]; simpl; auto.
Qed.

Lemma retime_phases_safe ps rs :
  Forall (fun p => phase_safe p = true) ps ->
  Forall (fun p => phase_safe p = true) (retime_phases ps rs).
Proof.
  intro H. revert rs. induction H as [| p ps Hp Hps IH]; intros [| r rs]; simpl;
    try constructor; auto.
Qed.

End SignalFacts.

Section SignalSteps.
Import Config Signal.

Lemma enter_step_eq sc st now phase :
  current_phase sc = Some phase ->
  enter_step sc st now = Some (entered sc st now phase).
Proof.
  intro H. unfold enter_step.
  rewrite (apply_signals_eq _ phase) by exact H. reflexivity.
Qed.

Lemma advance_to_next_phase_inv sc now sc1 :
  _advance_to_next_phase sc now = Some sc1 ->
  exists phase',
    nth_error (phases (phase_ring sc))
      (next_phase_index (phase_ring sc) (current_phase_idx sc)) = Some phase' /\
    phase_ring sc1 = phase_ring sc /\
    current_phase_idx sc1 = next_phase_index (phase_ring sc) (current_phase_idx sc) /\
    current_step sc1 = PhaseStep.GREEN /\
    step_start_time sc1 = now /\
    is_preempted sc1 = is_preempted sc /\
    preemption_direction sc1 = preemption_direction sc /\
    signal_heads sc1 = derived_heads phase' PhaseStep.GREEN (signal_heads sc).
Proof.
  unfold _advance_to_next_phase.
  set (sc0 := set_step_start_time _ _).
  destruct (current_phase sc0) as [phase' |] eqn:Hp.
  - rewrite (apply_signals_eq sc0 phase' Hp). exists phase'.
    unfold current_phase in Hp. simpl in Hp.
    destruct (_ && _); injection H as <-; simpl; repeat split; auto.
  - unfold _apply_signals_for_current_state. rewrite Hp. discriminate.
Qed.

Lemma advance_to_next_phase_total sc now :
  valid sc -> exists sc1, _advance_to_next_phase sc now = Some sc1.
Proof.
  intro Hv. unfold _advance_to_next_phase.
  set (sc0 := set_step_start_time _ _).
  assert (Hv0 : valid sc0).
  { unfold valid in *. simpl. unfold next_phase_index.
    apply Nat.mod_upper_bound. lia. }
  destruct (valid_current_phase sc0 Hv0) as [phase' Hp].
  rewrite (apply_signals_eq sc0 phase' Hp).
  destruct (_ && _); eauto.
Qed.

Lemma advance_step_inv sc now sc1 phase :
  current_phase sc = Some phase ->
  _advance_step sc now = Some sc1 ->
  match current_step sc with
  | PhaseStep.GREEN | PhaseStep.FLASHING_YELLOW =>
      sc1 = entered sc PhaseStep.YELLOW now phase
  | PhaseStep.YELLOW => sc1 = entered sc PhaseStep.ALL_RED now phase
  | PhaseStep.ALL_RED =>
      (exists d, is_preempted sc = true /\ preemption_direction sc = Some d /\
                 sc1 = _enter_preemption_phase sc now)
      \/ _advance_to_next_phase sc now = Some sc1
  end.
Proof.
  intros Hp. unfold _advance_step. rewrite Hp.
  destruct (current_step sc);
    rewrite ?(enter_step_eq sc _ now phase Hp).
  - destruct (_ && _); intro H; now injection H.
  - intro H; now injection H.
  - intro H; now injection H.
  - destruct (is_preempted sc); simpl; [| now right].
    destruct (preemption_direction sc) as [d |]; [| now right].
    intro H. injection H as <-. left. exists d. auto.
Qed.

Lemma advance_step_total sc now :
  valid sc -> exists sc1, _advance_step sc now = Some sc1.
Proof.
  intro Hv. destruct (valid_current_phase sc Hv) as [phase Hp].
  unfold _advance_step. rewrite Hp.
  destruct (current_step sc);
    rewrite ?(enter_step_eq sc _ now phase Hp).
  - destruct (_ && _); eauto.
  - eauto.
  - eauto.
  - destruct (_ && _); [eauto | now apply advance_to_next_phase_total].
Qed.

Lemma tick_inv sc now sc' :
  tick sc now = Some sc' ->
  sc' = _check_conflicts sc \/
  exists sc1, _advance_step sc now = Some sc1 /\ sc' = _check_conflicts sc1.
Proof.
  unfold tick. destruct (_current_step_duration sc) as [dur |]; [| discriminate].
  destruct (Num.elapsed_ge _ _).
  - destruct (_advance_step sc now) as [sc1 |]; [| discriminate].
    intro H. injection H as <-. right. eauto.
  - intro H. injection H as <-. now left.
Qed.

Lemma step_duration_total sc :
  valid sc -> exists dur, _current_step_duration sc = Some dur.
Proof.
  intro Hv. destruct (valid_current_phase sc Hv) as [phase Hp].
  unfold _current_step_duration. rewrite Hp.
  destruct (_ && _); [eauto |]. destruct (current_step sc); eauto.
Qed.

Lemma tick_total sc now : valid sc -> exists sc', tick sc now = Some sc'.
Proof.
  intro Hv. unfold tick.
  destruct (step_duration_total sc Hv) as [dur ->].
  destruct (Num.elapsed_ge _ _); [| eauto].
  destruct (advance_step_total sc now Hv) as [sc1 ->]. eauto.
Qed.

Lemma request_preemption_inv sc d clock sc' phase :
  current_phase sc = Some phase ->
  request_preemption sc d clock = Some sc' ->
  sc' = sc \/
  (is_preempted sc = false /\
   match current_step sc with
   | PhaseStep.GREEN | PhaseStep.FLASHING_YELLOW =>
       sc' = entered (set_preemption sc true (Some d)) PhaseStep.YELLOW clock phase
   | _ => sc' = set_preemption sc true (Some d)
   end).
Proof.
  intro Hp. unfold request_preemption.
  destruct (is_preempted sc) eqn:E.
  - intro H. injection H as <-. now left.
  - assert (Hp' : current_phase
                    (set_step_start_time
                       (set_current_step (set_preemption sc true (Some d))
                          PhaseStep.YELLOW) clock) = Some phase) by exact Hp.
    simpl. destruct (current_step sc);
      rewrite ?(apply_signals_eq _ phase Hp');
      intro H; injection H as <-; right; (split; [reflexivity |]); reflexivity.
Qed.

Lemma request_preemption_total sc d clock :
  valid sc -> exists sc', request_preemption sc d clock = Some sc'.
Proof.
  intro Hv. destruct (valid_current_phase sc Hv) as [phase Hp].
  unfold request_preemption. destruct (is_preempted sc); [eauto |].
  assert (Hp' : current_phase
                  (set_step_start_time
                     (set_current_step (set_preemption sc true (Some d))
                        PhaseStep.YELLOW) clock) = Some phase) by exact Hp.
  simpl. destruct (current_step sc);
    rewrite ?(apply_signals_eq _ phase Hp'); eauto.
Qed.

Lemma exec_total sc e : valid sc -> exists sc', exec sc e = Some sc'.
Proof.
  intro Hv. destruct e; simpl.
  - now apply tick_total.
  - now apply request_preemption_total.
  - eauto.
  - eauto.
Qed.

(** [_check_conflicts] touches the heads only, and never turns one green. *)
Lemma check_conflicts_frame sc :
  phase_ring (_check_conflicts sc) = phase_ring sc /\
  current_phase_idx (_check_conflicts sc) = current_phase_idx sc /\
  current_step (_check_conflicts sc) = current_step sc /\
  step_start_time (_check_conflicts sc) = step_start_time sc /\
  is_preempted (_check_conflicts sc) = is_preempted sc /\
  preemption_direction (_check_conflicts sc) = preemption_direction sc /\
  (forall d, green_head (dm_get (signal_heads (_check_conflicts sc)) d) = true ->
             green_head (dm_get (signal_heads sc) d) = true).
Proof.
  unfold _check_conflicts. destruct (conflict_found _); simpl;
    repeat split; auto.
  intros d. rewrite dm_get_map. discriminate.
Qed.

Lemma preemption_heads_green sc now d0 d :
  preemption_direction sc = Some d0 ->
  shows_green (dm_get (signal_heads (_enter_preemption_phase sc now)) d) = true ->
  d = d0.
Proof.
  intros Hd. unfold _enter_preemption_phase. rewrite Hd. simpl.
  rewrite dm_get_set. destruct (Direction_eqb d d0) eqn:E.
  - intros _. now apply Direction_eqb_eq.
  - rewrite dm_get_map. discriminate.
Qed.

Lemma one_edge_check sc sc1 :
  one_edge sc sc1 -> one_edge sc (_check_conflicts sc1).
Proof.
  destruct (check_conflicts_frame sc1) as (_ & _ & Hs & _ & _ & _ & Hg).
  assert (Hng : (forall d, green_head (dm_get (signal_heads sc1) d) = false) ->
                forall d, green_head
                            (dm_get (signal_heads (_check_conflicts sc1)) d) = false).
  { intros H d. destruct (green_head _) eqn:E; [| reflexivity].
    apply Hg in E. now rewrite H in E. }
  unfold one_edge. rewrite Hs.
  intros [[H1 H2] | [[H1 [H2 H3]] | [[H1 [H2 H3]] | H]]]; auto 8.
Qed.

Lemma apply_signals_inv sc sc' :
  _apply_signals_for_current_state sc = Some sc' ->
  exists phase, current_phase sc = Some phase /\
    sc' = set_signal_heads sc
            (derived_heads phase (current_step sc) (signal_heads sc)).
Proof.
  destruct (current_phase sc) as [phase |] eqn:Hp.
  - rewrite (apply_signals_eq sc phase Hp). intro H. injection H as <-. eauto.
  - unfold _apply_signals_for_current_state. rewrite Hp. discriminate.
Qed.

Lemma tick_one_edge sc now sc' : tick sc now = Some sc' -> one_edge sc sc'.
Proof.
  intro H.
  assert (Hv : exists phase, current_phase sc = Some phase).
  { unfold tick, _current_step_duration in H.
    destruct (current_phase sc); [eauto | discriminate]. }
  destruct Hv as [phase Hp].
  apply tick_inv in H. destruct H as [-> | [sc1 [Ha ->]]];
    apply one_edge_check.
  - left. auto.
  - pose proof (advance_step_inv sc now sc1 phase Hp Ha) as Hc.
    destruct (current_step sc) eqn:Es.
    + subst sc1. right; left. simpl. repeat split; auto.
      intro d. now apply derived_heads_no_green.
    + subst sc1. right; left. simpl. repeat split; auto.
      intro d. now apply derived_heads_no_green.
    + subst sc1. right; right; left. simpl. repeat split; auto.
      intro d. now apply derived_heads_no_green.
    + right; right; right. split; [exact Es |].
      destruct Hc as [(d & _ & _ & ->) | Hn]; [reflexivity |].
      apply advance_to_next_phase_inv in Hn.
      destruct Hn as (phase' & _ & _ & _ & Hs & _). exact Hs.
Qed.

Lemma request_one_edge sc d clock sc' :
  request_preemption sc d clock = Some sc' -> one_edge sc sc'.
Proof.
  unfold request_preemption. destruct (is_preempted sc).
  { intro H. injection H as <-. left. auto. }
  change (current_step (set_preemption sc true (Some d))) with (current_step sc).
  destruct (current_step sc) eqn:Es; intro H;
    try (injection H as <-; left; split; [now rewrite Es | auto]);
    apply apply_signals_inv in H; destruct H as (phase & _ & ->);
    right; left; rewrite Es; simpl; repeat split; auto;
    intro d0; now apply derived_heads_no_green.
Qed.

Lemma exec_one_edge sc e sc' : exec sc e = Some sc' -> one_edge sc sc'.
Proof.
  destruct e as [now | d clock | | rs]; simpl.
  - apply tick_one_edge.
  - apply request_one_edge.
  - intro H. injection H as <-. left. auto.
  - intro H. injection H as <-. left. auto.
Qed.

End SignalSteps.

Section SignalInvariants.
Import Config Signal.

Lemma entered_safe sc st now phase :
  current_phase sc = Some phase -> safe_state sc ->
  safe_state (entered sc st now phase).
Proof.
  intros Hp (Hv & Hs & _). repeat split; auto.
  simpl. apply (safe_phase_no_conflict phase).
  - rewrite Forall_forall in Hs. apply Hs. now apply current_phase_In.
  - intro d. apply derived_heads_served.
Qed.

Lemma advance_step_safe sc now sc1 :
  safe_state sc -> _advance_step sc now = Some sc1 -> safe_state sc1.
Proof.
  intros Hsafe Ha. pose proof Hsafe as (Hv & Hs & Hc).
  destruct (valid_current_phase sc Hv) as [phase Hp].
  pose proof (advance_step_inv sc now sc1 phase Hp Ha) as Hi.
  destruct (current_step sc);
    try (subst sc1; now apply entered_safe).
  destruct Hi as [(d & _ & Hd & ->) | Hn].
  - repeat split; auto.
    apply (single_green_no_conflict d). intro d'.
    now apply preemption_heads_green.
  - apply advance_to_next_phase_inv in Hn.
    destruct Hn as (phase' & Hn & Hr & Hi & _ & _ & _ & _ & Hh).
    unfold safe_state, valid. rewrite Hr, Hi, Hh. repeat split; auto.
    + apply nth_error_Some. congruence.
    + apply (safe_phase_no_conflict phase').
      * rewrite Forall_forall in Hs. apply Hs. eapply nth_error_In, Hn.
      * intro d. apply derived_heads_served.
Qed.

(** In a safe state the controller's own check finds nothing: fault mode is
    not entered. *)
Lemma check_conflicts_safe sc : safe_state sc -> _check_conflicts sc = sc.
Proof. intros (_ & _ & Hc). unfold _check_conflicts. now rewrite Hc. Qed.

Lemma tick_safe sc now sc' :
  safe_state sc -> tick sc now = Some sc' -> safe_state sc'.
Proof.
  intros Hsafe H. apply tick_inv in H. destruct H as [-> | [sc1 [Ha ->]]].
  - now rewrite check_conflicts_safe.
  - apply (advance_step_safe sc now sc1 Hsafe) in Ha.
    now rewrite check_conflicts_safe.
Qed.

Lemma set_preemption_safe sc b d :
  safe_state sc -> safe_state (set_preemption sc b d).
Proof. intro H. exact H. Qed.

Lemma request_safe sc d clock sc' :
  safe_state sc -> request_preemption sc d clock = Some sc' -> safe_state sc'.
Proof.
  intros Hsafe H. pose proof Hsafe as (Hv & Hs & Hc).
  destruct (valid_current_phase sc Hv) as [phase Hp].
  destruct (request_preemption_inv sc d clock sc' phase Hp H) as [-> | [_ Hi]];
    [exact Hsafe |].
  pose proof (set_preemption_safe sc true (Some d) Hsafe) as Hsafe'.
  assert (Hp' : current_phase (set_preemption sc true (Some d)) = Some phase)
    by exact Hp.
  destruct (current_step sc); subst sc'.
  - now apply entered_safe.
  - now apply entered_safe.
  - exact Hsafe'.
  - exact Hsafe'.
Qed.

Lemma exec_safe sc e sc' :
  safe_state sc -> exec sc e = Some sc' -> safe_state sc'.
Proof.
  destruct e as [now | d clock | | rs]; simpl.
  - apply tick_safe.
  - apply request_safe.
  - intros Hsafe H. injection H as <-. exact Hsafe.
  - intros (Hv & Hs & Hc) H. injection H as <-.
    unfold safe_state, valid. simpl. rewrite retime_phases_length.
    repeat split; auto. now apply retime_phases_safe.
Qed.

Lemma new_controller_safe ring tm start sc :
  Forall (fun p => phase_safe p = true) (phases ring) ->
  new_controller ring tm start = Some sc -> safe_state sc.
Proof.
  intros Hs H. unfold new_controller in H.
  apply apply_signals_inv in H. destruct H as (phase & Hp & ->).
  pose proof (current_phase_valid _ _ Hp) as Hv.
  repeat split; auto. simpl.
  apply (safe_phase_no_conflict phase).
  - rewrite Forall_forall in Hs. apply Hs.
    apply (current_phase_In _ _ Hp).
  - intro d. apply derived_heads_served.
Qed.

(** An invariant that implies validity holds along every trace, and every
    trace runs to its end. *)
Lemma trace_invariant (P : SignalController -> Prop) :
  (forall sc, P sc -> valid sc) ->
  (forall sc e sc', P sc -> exec sc e = Some sc' -> P sc') ->
  forall evs sc, P sc -> exists tr, trace sc evs = Some tr /\ Forall P tr.
Proof.
  intros Hvalid Hstep evs. induction evs as [| e evs IH]; intros sc HP; simpl.
  - exists [sc]. split; [reflexivity | now constructor].
  - destruct (exec_total sc e (Hvalid sc HP)) as [sc' He]. rewrite He.
    destruct (IH sc' (Hstep sc e sc' HP He)) as (tr & -> & Htr).
    exists (sc :: tr). split; [reflexivity | now constructor].
Qed.








End SignalInvariants.

Section SignalTheorems.
Import Config Signal.

(** C1.  Take a ring whose phases each serve a non-conflicting set of
    directions (the standard ring is one) and the controller built on it.
    Every sequence of ticks, preemption requests, preemption clears and
    cycle-boundary retimings runs without an exception, and in every state
    it passes through no pair of (N,E), (N,W), (S,E), (S,W) has both
    directions in [green_directions]. *)
Theorem no_conflicting_greens (ring : PhaseRing) (tm : TimingConstraints)
  (start : Q) (sc0 : SignalController) (evs : list Event) :
  Forall (fun p => phase_safe p = true) (phases ring) ->
  new_controller ring tm start = Some sc0 ->
  exists tr,
    trace sc0 evs = Some tr /\
    forall sc, In sc tr ->
    forall d1 d2, In (d1, d2) conflicts ->
      ~ (In d1 (green_directions (signal_heads sc)) /\
         In d2 (green_directions (signal_heads sc))).
Proof.
  intros Hs Hn.
  destruct (trace_invariant safe_state (fun sc H => proj1 H) exec_safe evs sc0
              (new_controller_safe ring tm start sc0 Hs Hn))
    as (tr & Ht & Hall).
  exists tr. split; [exact Ht |].
  intros sc Hin d1 d2 Hc [H1 H2].
  rewrite Forall_forall in Hall. destruct (Hall sc Hin) as (_ & _ & Hnc).
  assert (X : conflict_found (signal_heads sc) = true).
  { apply conflict_found_iff. exists d1, d2.
    apply mem_dir_In in H1, H2. unfold green_directions in H1, H2.
    rewrite mem_dir_filter in H1, H2. auto. }
  congruence.
Qed.

Lemma no_conflicting_greens_witness :
  exists tr,
    trace standard_controller preemption_run = Some tr /\
    forall sc, In sc tr ->
    forall d1 d2, In (d1, d2) conflicts ->
      ~ (In d1 (green_directions (signal_heads sc)) /\
         In d2 (green_directions (signal_heads sc))).
Proof.
  apply (no_conflicting_greens standard_ring default_timing 0).
  - vm_compute. repeat constructor.
  - vm_compute. reflexivity.
Defined.



(** C10.  A preemption request that reaches the state machine while it is
    already preempted returns with the whole controller state as it was:
    flags, direction, phase index, sub-step, step start and heads; the
    state machine keeps no queue, the new direction is dropped. *)
Theorem request_preemption_ignored_when_preempted (sc : SignalController)
  (d : Direction) (clock : Q) :
  is_preempted sc = true ->
  request_preemption sc d clock = Some sc.
Proof. intro H. unfold request_preemption. now rewrite H. Qed.

Lemma request_preemption_ignored_when_preempted_witness :
  is_preempted (observed 4) = true /\
  preemption_direction (observed 4) = Some EAST /\
  request_preemption (observed 4) NORTH 16 = Some (observed 4).
Proof.
  split; [vm_compute; reflexivity |]. split; [vm_compute; reflexivity |].
  apply request_preemption_ignored_when_preempted.
  vm_compute. reflexivity.
Defined.

End SignalTheorems.

(* ------------------------------------------------------------------ *)
(** ** Fault mode and the conflict monitor *)

Section FaultTheorems.
Import Config Signal.

(** The claim of C7 fails: the monitor latches the fault and puts the
    controller into fault mode, and the tick at 8 s, the end of the first
    green, moves the sub-step from GREEN to YELLOW and shows a yellow arrow
    to NORTH, with the latch still set after the next check. *)
Lemma fault_mode_keeps_cycling :
  exists m scf sc',
    Conflict.check (Conflict.new_monitor 50 0) forced_conflict 0 = (false, m, scf) /\
    Conflict.fault_active m = true /\
    scf = _enter_fault_mode forced_conflict /\
    current_step scf = PhaseStep.GREEN /\
    tick scf 8 = Some sc' /\
    current_step sc' = PhaseStep.YELLOW /\
    left_turn_signal (dm_get (signal_heads sc') NORTH) = SignalState.YELLOW_ARROW /\
    Conflict.fault_active (snd (fst (Conflict.check m sc' 8))) = true.
Proof.
  eexists. eexists. eexists.
  split; [vm_compute; reflexivity |].
  repeat split; vm_compute; reflexivity.
Qed.

Lemma fault_mode_frame sc :
  phase_ring (_enter_fault_mode sc) = phase_ring sc /\
  current_phase_idx (_enter_fault_mode sc) = current_phase_idx sc /\
  current_step (_enter_fault_mode sc) = current_step sc /\
  step_start_time (_enter_fault_mode sc) = step_start_time sc /\
  cycle_count (_enter_fault_mode sc) = cycle_count sc /\
  is_preempted (_enter_fault_mode sc) = is_preempted sc /\
  preemption_direction (_enter_fault_mode sc) = preemption_direction sc.
Proof. repeat split; reflexivity. Qed.

(** C7, amended.  Entering fault mode sets the vehicle and the left-turn
    display of every head to ALL_RED and every pedestrian display to
    DONT_WALK and leaves phase index, sub-step, step start, cycle count and
    the preemption fields as they were; a tick that comes before the
    current sub-step's duration has elapsed leaves this whole state in
    place. *)
Theorem fault_mode_all_red_until_step_expires (sc : SignalController)
  (now : Q) (dur : Num.duration) :
  _current_step_duration sc = Some dur ->
  Num.elapsed_ge (now - step_start_time sc) dur = false ->
  (forall d,
      vehicle_signal (dm_get (signal_heads (_enter_fault_mode sc)) d)
        = SignalState.ALL_RED /\
      left_turn_signal (dm_get (signal_heads (_enter_fault_mode sc)) d)
        = SignalState.ALL_RED /\
      pedestrian_signal (dm_get (signal_heads (_enter_fault_mode sc)) d)
        = SignalState.DONT_WALK) /\
  current_phase_idx (_enter_fault_mode sc) = current_phase_idx sc /\
  current_step (_enter_fault_mode sc) = current_step sc /\
  step_start_time (_enter_fault_mode sc) = step_start_time sc /\
  cycle_count (_enter_fault_mode sc) = cycle_count sc /\
  is_preempted (_enter_fault_mode sc) = is_preempted sc /\
  preemption_direction (_enter_fault_mode sc) = preemption_direction sc /\
  tick (_enter_fault_mode sc) now = Some (_enter_fault_mode sc).
Proof.
  intros Hd He. split.
  { intro d. unfold _enter_fault_mode. simpl. rewrite dm_get_map. auto. }
  repeat (split; [reflexivity |]).
  unfold tick.
  change (_current_step_duration (_enter_fault_mode sc))
    with (_current_step_duration sc).
  change (step_start_time (_enter_fault_mode sc)) with (step_start_time sc).
  rewrite Hd, He. unfold _check_conflicts.
  now rewrite fault_mode_no_conflict.
Qed.

Lemma fault_mode_all_red_until_step_expires_witness :
  tick (_enter_fault_mode forced_conflict) 7.9
  = Some (_enter_fault_mode forced_conflict).
Proof.
  apply (fault_mode_all_red_until_step_expires forced_conflict 7.9 (Num.Finite 8)).
  - vm_compute. reflexivity.
  - vm_compute. reflexivity.
Defined.

End FaultTheorems.

Section MonitorTheorems.
Import Config Signal Conflict.

Lemma checks_app m l sc clock :
  checks m (l ++ [sc]) clock = snd (fst (check (checks m l clock) sc clock)).
Proof.
  revert m. induction l as [| x l IH]; intro m; simpl; [reflexivity | apply IH].
Qed.

Lemma check_conflict m sc clock :
  conflict_seen (signal_heads sc) = true ->
  let m1 := snd (fst (check m sc clock)) in
  fault_active m1 = true /\ _consecutive_clean m1 = 0%Z /\
  conflict_count m1 = (conflict_count m + 1)%Z /\
  clean_checks_to_clear m1 = clean_checks_to_clear m.
Proof.
  intro H. unfold check. rewrite H. unfold _on_conflict_detected. simpl.
  destruct (fault_active m) eqn:E; simpl; auto.
Qed.

Lemma check_clean_latched m sc clock :
  clean sc -> fault_active m = true ->
  (_consecutive_clean m + 1 < clean_checks_to_clear m)%Z ->
  let m1 := snd (fst (check m sc clock)) in
  fault_active m1 = true /\
  _consecutive_clean m1 = (_consecutive_clean m + 1)%Z /\
  conflict_count m1 = conflict_count m /\
  clean_checks_to_clear m1 = clean_checks_to_clear m.
Proof.
  intros Hc Hf Hlt. unfold check. rewrite Hc. simpl. rewrite Hf.
  destruct (Z.leb_spec (clean_checks_to_clear m) (_consecutive_clean m + 1));
    [lia |]. simpl. auto.
Qed.

Lemma check_clean_release m sc clock :
  clean sc -> fault_active m = true ->
  (clean_checks_to_clear m <= _consecutive_clean m + 1)%Z ->
  let m1 := snd (fst (check m sc clock)) in
  fault_active m1 = false /\ _consecutive_clean m1 = 0%Z.
Proof.
  intros Hc Hf Hle. unfold check. rewrite Hc. simpl. rewrite Hf.
  destruct (Z.leb_spec (clean_checks_to_clear m) (_consecutive_clean m + 1));
    [| lia]. simpl. auto.
Qed.

(** Clean checks short of the threshold count up and keep the latch. *)
Lemma checks_clean_latched clock : forall scs m,
  Forall clean scs -> fault_active m = true ->
  (0 <= _consecutive_clean m)%Z ->
  (_consecutive_clean m + Z.of_nat (length scs)
   < Z.max 1 (clean_checks_to_clear m))%Z ->
  fault_active (checks m scs clock) = true /\
  _consecutive_clean (checks m scs clock)
    = (_consecutive_clean m + Z.of_nat (length scs))%Z /\
  conflict_count (checks m scs clock) = conflict_count m /\
  clean_checks_to_clear (checks m scs clock) = clean_checks_to_clear m.
Proof.
  induction scs as [| sc scs IH]; intros m Hall Hf H0 Hlt.
  - simpl. repeat split; auto. lia.
  - inversion Hall as [| ? ? Hsc Hrest]; subst.
    change (length (sc :: scs)) with (S (length scs)) in *.
    rewrite Nat2Z.inj_succ in *.
    destruct (check_clean_latched m sc clock Hsc Hf ltac:(lia))
      as (Hf1 & Hc1 & Hn1 & Hk1).
    simpl checks.
    destruct (IH (snd (fst (check m sc clock))) Hrest Hf1 ltac:(lia)
                ltac:(rewrite Hc1, Hk1; lia))
      as (Hf2 & Hc2 & Hn2 & Hk2).
    rewrite Hf2, Hc2, Hn2, Hk2, Hc1, Hn1, Hk1. repeat split; auto. lia.
Qed.

(** C8.  A check that sees a conflict leaves [fault_active] true with the
    clean counter at 0 and one more conflict counted.  From there, with K
    the threshold [clean_checks_to_clear] (at least 1), the latch is still
    set after any n < K clean checks, the counter standing at n; the K-th
    consecutive clean check clears it; and a conflict seen inside the
    window puts the counter back to 0 with the latch set. *)
Theorem fault_latch (m : ConflictMonitor) (sc : SignalController) (clock : Q)
  (scs : list SignalController) :
  conflict_seen (signal_heads sc) = true ->
  Forall clean scs ->
  let m1 := snd (fst (check m sc clock)) in
  let K := Z.max 1 (clean_checks_to_clear m) in
  let n := Z.of_nat (length scs) in
  fault_active m1 = true /\ _consecutive_clean m1 = 0%Z /\
  conflict_count m1 = (conflict_count m + 1)%Z /\
  ((n < K)%Z ->
     fault_active (checks m1 scs clock) = true /\
     _consecutive_clean (checks m1 scs clock) = n) /\
  (n = K -> fault_active (checks m1 scs clock) = false) /\
  (forall sc', conflict_seen (signal_heads sc') = true -> (n < K)%Z ->
     let m2 := snd (fst (check (checks m1 scs clock) sc' clock)) in
     fault_active m2 = true /\ _consecutive_clean m2 = 0%Z).
Proof.
  intros Hc Hall m1 K n.
  destruct (check_conflict m sc clock Hc) as (Hf1 & Hc1 & Hn1 & Hk1).
  fold m1 in Hf1, Hc1, Hn1, Hk1.
  assert (Hlatched : forall l, Forall clean l ->
            (Z.of_nat (length l) < K)%Z ->
            fault_active (checks m1 l clock) = true /\
            _consecutive_clean (checks m1 l clock) = Z.of_nat (length l) /\
            clean_checks_to_clear (checks m1 l clock) = clean_checks_to_clear m).
  { intros l Hl Hlt.
    destruct (checks_clean_latched clock l m1 Hl Hf1 ltac:(lia)
                ltac:(rewrite Hc1, Hk1; fold K; lia))
      as (H1 & H2 & _ & H4).
    rewrite H1, H2, H4, Hc1, Hk1. auto. }
  repeat split; auto.
  - now apply Hlatched.
  - destruct (Hlatched scs Hall H) as (_ & H2 & _). exact H2.
  - intro Hn.
    destruct (@exists_last _ scs) as (l & x & ->).
    { intro E. subst scs. unfold n, K in Hn. simpl in Hn. lia. }
    apply Forall_app in Hall. destruct Hall as [Hl Hx].
    inversion Hx as [| ? ? Hx' _]; subst.
    unfold n in Hn. rewrite length_app in Hn. simpl in Hn.
    destruct (Hlatched l Hl ltac:(lia)) as (H1 & H2 & H3).
    rewrite checks_app.
    apply (check_clean_release (checks m1 l clock) x clock Hx' H1).
    rewrite H2, H3. unfold K in Hn. lia.
  - destruct (Hlatched scs Hall H0) as (H1 & _).
    destruct (check_conflict (checks m1 scs clock) sc' clock H) as (X & _).
    exact X.
  - destruct (check_conflict (checks m1 scs clock) sc' clock H) as (_ & X & _).
    exact X.
Qed.

(** The run of scenario S5 at the default threshold: the forced conflict,
    then the repaired heads checked 49 times. *)
Lemma fault_latch_witness :
  fault_active
    (checks (snd (fst (check (new_monitor 50 0) forced_conflict 0)))
       (repeat standard_controller 49) 0) = true /\
  _consecutive_clean
    (checks (snd (fst (check (new_monitor 50 0) forced_conflict 0)))
       (repeat standard_controller 49) 0) = 49%Z.
Proof.
  apply (proj1 (proj2 (proj2 (proj2
           (fault_latch (new_monitor 50 0) forced_conflict 0
              (repeat standard_controller 49)
              ltac:(vm_compute; reflexivity)
              ltac:(repeat constructor)))))).
  vm_compute. reflexivity.
Defined.

End MonitorTheorems.

(* ------------------------------------------------------------------ *)
(** ** The preemption manager *)

Section PreemptionTheorems.
Import Config Preemption.

Lemma entered_valid sc st now phase :
  valid sc -> valid (entered sc st now phase).
Proof. intro H. exact H. Qed.

Lemma check_conflicts_valid sc : valid sc -> valid (Signal._check_conflicts sc).
Proof.
  unfold valid. destruct (check_conflicts_frame sc) as (-> & -> & _). auto.
Qed.

Lemma advance_step_valid sc now sc1 :
  valid sc -> Signal._advance_step sc now = Some sc1 -> valid sc1.
Proof.
  intros Hv Ha. destruct (valid_current_phase sc Hv) as [phase Hp].
  pose proof (advance_step_inv sc now sc1 phase Hp Ha) as Hi.
  destruct (Signal.current_step sc);
    try (subst sc1; now apply entered_valid).
  destruct Hi as [(d & _ & _ & ->) | Hn]; [exact Hv |].
  apply advance_to_next_phase_inv in Hn.
  destruct Hn as (phase' & Hn & Hr & Hi & _).
  unfold valid. rewrite Hr, Hi. apply nth_error_Some. congruence.
Qed.

Lemma tick_valid sc now sc' :
  valid sc -> Signal.tick sc now = Some sc' -> valid sc'.
Proof.
  intros Hv H. apply tick_inv in H. destruct H as [-> | [sc1 [Ha ->]]];
    apply check_conflicts_valid; [exact Hv |].
  now apply (advance_step_valid sc now).
Qed.

Lemma request_preemption_valid sc d clock sc' :
  valid sc -> Signal.request_preemption sc d clock = Some sc' -> valid sc'.
Proof.
  intros Hv H. destruct (valid_current_phase sc Hv) as [phase Hp].
  destruct (request_preemption_inv sc d clock sc' phase Hp H) as [-> | [_ Hi]];
    [exact Hv |].
  destruct (Signal.current_step sc); subst sc'; exact Hv.
Qed.

Lemma activate_inv m sc ev clock m' sc' :
  valid sc -> manager_inv m ->
  activated_at ev = None /\ cleared_at ev = None ->
  _activate m sc ev clock = Some (m', sc') ->
  valid sc' /\ manager_inv m'.
Proof.
  intros Hv (Hp & _ & Hh) [_ Hc]. unfold _activate.
  destruct (Signal.request_preemption sc _ clock) as [sc1 |] eqn:E;
    [| discriminate].
  intro H. injection H as <- <-. split.
  - eapply request_preemption_valid; eauto.
  - repeat split; simpl; auto.
    intros ev' H. injection H as <-.
    unfold event_is_active. simpl. now rewrite Hc.
Qed.

Lemma activate_total m sc ev clock :
  valid sc -> exists m' sc', _activate m sc ev clock = Some (m', sc').
Proof.
  intro Hv. unfold _activate.
  destruct (request_preemption_total sc (direction (set_activated_at ev clock))
              clock Hv) as [sc' ->]. eauto.
Qed.

Lemma activate_next_inv m sc clock m' sc' :
  valid sc -> manager_inv m -> active_event m = None ->
  activate_next m sc clock = Some (m', sc') ->
  valid sc' /\ manager_inv m'.
Proof.
  intros Hv (Hp & Ha & Hh) Hnone. unfold activate_next.
  destruct (pending m) as [| ev rest] eqn:E.
  - intro H. injection H as <- <-. split; [exact Hv |].
    repeat split; auto. rewrite E. constructor.
  - inversion Hp as [| ? ? Hev Hrest]; subst.
    apply activate_inv; auto.
    repeat split; simpl; auto.
Qed.

Lemma activate_next_total m sc clock :
  valid sc -> exists m' sc', activate_next m sc clock = Some (m', sc').
Proof.
  intro Hv. unfold activate_next. destruct (pending m); [eauto |].
  now apply activate_total.
Qed.

Lemma clear_inv m sc clock m' sc' :
  valid sc -> manager_inv m -> clear m sc clock = Some (m', sc') ->
  valid sc' /\ manager_inv m'.
Proof.
  intros Hv Hm. pose proof Hm as (Hp & Ha & Hh). unfold clear.
  destruct (active_event m) as [ev |] eqn:E.
  - apply activate_next_inv; auto.
    repeat split; simpl; auto; try discriminate.
    apply Forall_app. split; [exact Hh |].
    constructor; [simpl; discriminate | constructor].
  - intro H. injection H as <- <-. auto.
Qed.

Lemma clear_total m sc clock :
  valid sc -> exists m' sc', clear m sc clock = Some (m', sc').
Proof.
  intro Hv. unfold clear. destruct (active_event m); [| eauto].
  now apply activate_next_total.
Qed.

Lemma call_inv st c st' :
  valid (snd st) -> manager_inv (fst st) -> call st c = Some st' ->
  valid (snd st') /\ manager_inv (fst st').
Proof.
  destruct st as [m sc], st' as [m' sc']. simpl. intros Hv Hm.
  pose proof Hm as (Hp & Ha & Hh).
  destruct c as [d h clock | clock | clock | now]; simpl.
  - unfold request. destruct (active_event m) as [ev |] eqn:E.
    + intro H. injection H as <- <-. split; [exact Hv |].
      repeat split; simpl; auto.
      apply Forall_app. split; [exact Hp |]. repeat constructor.
    + apply activate_inv; auto.
  - now apply clear_inv.
  - unfold tick. destruct (active_event m) as [ev |] eqn:E.
    + destruct (Qle_bool _ _).
      * now apply clear_inv.
      * intro H. injection H as <- <-. auto.
    + now apply activate_next_inv.
  - destruct (Signal.tick sc now) as [sc1 |] eqn:E; [| discriminate].
    intro H. injection H as <- <-. split; [| exact Hm].
    now apply (tick_valid sc now).
Qed.

Lemma call_total st c :
  valid (snd st) -> exists st', call st c = Some st'.
Proof.
  destruct st as [m sc]. simpl. intro Hv.
  destruct c as [d h clock | clock | clock | now]; simpl.
  - unfold request. destruct (active_event m); [eauto |].
    destruct (activate_total m sc (new_event d h clock) clock Hv)
      as (m' & sc' & ->). eauto.
  - destruct (clear_total m sc clock Hv) as (m' & sc' & ->). eauto.
  - unfold tick. destruct (active_event m).
    + destruct (Qle_bool _ _); [| eauto].
      destruct (clear_total m sc clock Hv) as (m' & sc' & ->). eauto.
    + destruct (activate_next_total m sc clock Hv) as (m' & sc' & ->). eauto.
  - destruct (tick_total sc now Hv) as [sc' ->]. eauto.
Qed.

Lemma calls_inv cs : forall st,
  valid (snd st) -> manager_inv (fst st) ->
  exists st', calls st cs = Some st' /\ valid (snd st') /\ manager_inv (fst st').
Proof.
  induction cs as [| c cs IH]; intros st Hv Hm; simpl.
  - eauto.
  - destruct (call_total st c Hv) as [st1 E]. rewrite E.
    destruct (call_inv st c st1 Hv Hm E) as [Hv1 Hm1].
    now apply IH.
Qed.

Lemma filter_none {A} (f : A -> bool) (l : list A) :
  Forall (fun x => f x = false) l -> filter f l = [].
Proof.
  induction 1 as [| x l Hx _ IH]; simpl; [reflexivity |].
  now rewrite Hx.
Qed.

Lemma manager_inv_count m :
  manager_inv m -> active_count m = if is_active m then 1%nat else 0%nat.
Proof.
  intros (Hp & Ha & Hh). unfold active_count, all_events, is_active.
  rewrite !filter_app, !length_app.
  rewrite (filter_none event_is_active (pending m)).
  2:{ eapply Forall_impl; [| exact Hp]. intros ev [H1 _].
      unfold event_is_active. now rewrite H1. }
  rewrite (filter_none event_is_active (history m)).
  2:{ eapply Forall_impl; [| exact Hh]. intros ev H1. simpl in H1.
      unfold event_is_active.
      destruct (activated_at ev), (cleared_at ev); simpl; congruence. }
  destruct (active_event m) as [ev |]; simpl; [| reflexivity].
  now rewrite (Ha ev eq_refl).
Qed.

(** C9.  (1) A request made while an event is active appends the new
    event to the pending queue and leaves the active event and the state
    machine as they are.  (2) A request made while none is active makes the
    new event the active one at once, stamped with its activation time, and
    passes its direction to the state machine.  (3) [clear] stamps the
    active event with [cleared_at], appends it to the history, tells the
    state machine to clear preemption, and then, if the queue is not empty,
    takes its oldest event off the front, activates it and requests
    preemption for it.  (4) Over any run of requests, clears, manager ticks
    and signal ticks from an idle manager no call raises and at most one of
    all the events known to the manager is active, the one in
    [active_event]. *)
Theorem preemption_manager_contract :
  (forall m sc d h clock ev,
      active_event m = Some ev ->
      request m sc d h clock =
        Some ({| max_hold_s := max_hold_s m;
                 pending := pending m ++ [new_event d h clock];
                 active_event := Some ev;
                 history := history m |}, sc)) /\
  (forall m sc d h clock,
      active_event m = None -> valid sc ->
      exists sc',
        Signal.request_preemption sc d clock = Some sc' /\
        request m sc d h clock =
          Some ({| max_hold_s := max_hold_s m;
                   pending := pending m;
                   active_event :=
                     Some (set_activated_at (new_event d h clock) clock);
                   history := history m |}, sc')) /\
  (forall m sc clock ev,
      active_event m = Some ev -> valid sc ->
      match pending m with
      | [] =>
          clear m sc clock =
            Some ({| max_hold_s := max_hold_s m;
                     pending := [];
                     active_event := None;
                     history := history m ++ [set_cleared_at ev clock] |},
                  Signal.clear_preemption sc)
      | next :: rest =>
          exists sc',
            Signal.request_preemption (Signal.clear_preemption sc)
              (direction next) clock = Some sc' /\
            clear m sc clock =
              Some ({| max_hold_s := max_hold_s m;
                       pending := rest;
                       active_event := Some (set_activated_at next clock);
                       history := history m ++ [set_cleared_at ev clock] |},
                    sc')
      end) /\
  (forall max_hold sc0 cs,
      valid sc0 ->
      exists m sc,
        calls (new_manager max_hold, sc0) cs = Some (m, sc) /\
        (active_count m <= 1)%nat /\
        active_count m = (if is_active m then 1%nat else 0%nat) /\
        Forall (fun ev => event_is_active ev = false) (pending m) /\
        Forall (fun ev => event_is_active ev = false) (history m)).
Proof.
  split; [| split; [| split]].
  - intros m sc d h clock ev E. unfold request. rewrite E. reflexivity.
  - intros m sc d h clock E Hv. unfold request, _activate. rewrite E.
    destruct (request_preemption_total sc d clock Hv) as [sc' Hr].
    exists sc'. split; [exact Hr |]. simpl. now rewrite Hr.
  - intros m sc clock ev E Hv. unfold clear, activate_next. rewrite E. simpl.
    destruct (pending m) as [| next rest]; [reflexivity |].
    unfold _activate. simpl.
    destruct (request_preemption_total (Signal.clear_preemption sc)
                (direction next) clock Hv) as [sc' Hr].
    exists sc'. split; [exact Hr |]. now rewrite Hr.
  - intros max_hold sc0 cs Hv.
    destruct (calls_inv cs (new_manager max_hold, sc0) Hv) as ([m sc] & Hc & _ & Hm).
    { repeat split; simpl; auto. discriminate. }
    exists m, sc. split; [exact Hc |].
    pose proof (manager_inv_count m Hm) as Hn.
    destruct Hm as (Hp & Ha & Hh). simpl in *.
    repeat split.
    + rewrite Hn. destruct (is_active m); lia.
    + exact Hn.
    + eapply Forall_impl; [| exact Hp]. intros ev [H1 _].
      unfold event_is_active. now rewrite H1.
    + eapply Forall_impl; [| exact Hh]. intros ev H1. simpl in H1.
      unfold event_is_active.
      destruct (activated_at ev), (cleared_at ev); simpl; congruence.
Qed.

End PreemptionTheorems.

(* ------------------------------------------------------------------ *)
(** ** The adaptive timing engine: cycle length *)

Section CycleLengthTheorems.
Import Config Signal Adaptive.

Lemma py_sum_nil : Num.py_sum [] = 0.
Proof. reflexivity. Qed.

Lemma average_is_mean (demands : list PhaseDemand) :
  Num.py_sum (map degree_of_saturation demands)
    / inject_Z (Z.max 1 (Z.of_nat (length demands)))
  == spec_mean (map degree_of_saturation demands).
Proof.
  destruct demands as [| d ds].
  - reflexivity.
  - unfold spec_mean. rewrite length_map.
    replace (Z.max 1 (Z.of_nat (length (d :: ds))))
      with (Z.of_nat (length (d :: ds))) by (simpl length; lia).
    reflexivity.
Qed.

(** C5.  For every list of phase demands, with Y the smaller of 0.90 and
    the mean of the smoothed degrees of saturation (0 for no demands) and
    [total_lost] the number of demands times yellow plus all-red clearance,
    the engine's cycle length is [min_cycle_s] when Y < 0.05 and otherwise
    [(1.5 * total_lost + 5) / (1 - Y)] clamped between [min_cycle_s] and
    [max_cycle_s]; it lies within those bounds whenever they are ordered. *)
Theorem cycle_length_webster (e : AdaptiveTimingEngine)
  (demands : list PhaseDemand) :
  let tm := timing e in
  let ds := map degree_of_saturation demands in
  let Y := Qmin 0.90 (spec_mean ds) in
  let total_lost :=
    inject_Z (Z.of_nat (length demands))
    * (yellow_clearance_s tm + all_red_clearance_s tm) in
  _compute_cycle_length e demands == spec_cycle_length tm ds /\
  (Y < 0.05 -> _compute_cycle_length e demands == min_cycle_s tm) /\
  (0.05 <= Y ->
   _compute_cycle_length e demands
   == Qmax (min_cycle_s tm)
        (Qmin (max_cycle_s tm) ((1.5 * total_lost + 5) / (1 - Y)))) /\
  (min_cycle_s tm <= max_cycle_s tm ->
   min_cycle_s tm <= _compute_cycle_length e demands <= max_cycle_s tm).
Proof.
  intros tm ds Y total_lost.
  pose proof (average_is_mean demands) as Havg. fold ds in Havg.
  assert (Hy : Num.py_min 0.90
                 (Num.py_sum ds / inject_Z (Z.max 1 (Z.of_nat (length demands))))
               == Y).
  { rewrite py_min_Qmin. unfold Y. now rewrite Havg. }
  assert (Hlow : Y < 0.05 -> _compute_cycle_length e demands == min_cycle_s tm).
  { intro HY. unfold _compute_cycle_length. fold tm ds.
    destruct (Num.Qltb _ 0.05) eqn:E.
    - py_cases; try reflexivity; lra.
    - apply Qltb_ge in E. rewrite Hy in E. lra. }
  assert (Hhigh : 0.05 <= Y ->
            _compute_cycle_length e demands
            == Qmax (min_cycle_s tm)
                 (Qmin (max_cycle_s tm) ((1.5 * total_lost + 5) / (1 - Y)))).
  { intro HY. unfold _compute_cycle_length. fold tm ds.
    destruct (Num.Qltb _ 0.05) eqn:E.
    - apply Qltb_lt in E. rewrite Hy in E. lra.
    - rewrite py_max_Qmax, py_min_Qmin. fold total_lost. now rewrite Hy. }
  split; [| split; [exact Hlow | split; [exact Hhigh |]]].
  - unfold spec_cycle_length, spec_clamp.
    replace (length ds) with (length demands) by (symmetry; apply length_map).
    fold tm Y total_lost.
    destruct (Qlt_le_dec Y 0.05) as [HY | HY].
    + rewrite (Hlow HY). symmetry. apply Q.max_l, Q.le_min_r.
    + exact (Hhigh HY).
  - intro Hord. unfold _compute_cycle_length. subst tm.
    match goal with
    | |- context [Num.py_min (max_cycle_s _) ?c] => generalize c
    end.
    clear - Hord. intro cycle. py_cases; lra.
Qed.

(** Four demands at mean DS 19/14: Y is capped at 0.90 and the cycle comes
    out at the maximum. *)
Lemma cycle_length_webster_witness :
  let e := {| intersection :=
                Intersection.create_standard default_flow 48 (fun _ => (0, 0)%Z);
              timing := default_timing; smoothing_alpha := 0.6;
              _prev_ds := [] |} in
  let demands :=
    [ {| phase_id := 1; total_queue := 0; ideal_green_s := 0;
         degree_of_saturation := 0; needs_protected_left := false |};
      {| phase_id := 2; total_queue := 10; ideal_green_s := 12;
         degree_of_saturation := 20 # 7; needs_protected_left := false |};
      {| phase_id := 3; total_queue := 0; ideal_green_s := 0;
         degree_of_saturation := 0; needs_protected_left := false |};
      {| phase_id := 4; total_queue := 9; ideal_green_s := 20;
         degree_of_saturation := 18 # 7; needs_protected_left := false |} ] in
  _compute_cycle_length e demands == 150 /\
  45 <= _compute_cycle_length e demands <= 150.
Proof.
  intros e demands. split.
  - rewrite (proj1 (proj2 (proj2 (cycle_length_webster e demands)))).
    + vm_compute. reflexivity.
    + vm_compute. discriminate.
  - apply (proj2 (proj2 (proj2 (cycle_length_webster e demands)))).
    vm_compute. discriminate.
Defined.

End CycleLengthTheorems.

(* ------------------------------------------------------------------ *)
(** ** The adaptive timing engine: green splits *)

Section GreenSplitCounterexample.
Import Config Signal Adaptive.

(** The claim of C6 fails: with through queues N=5, S=5, E=9, W=0 the N/S
    through phase has the larger total queue (10 against 9), yet after the
    plan is computed and applied it holds 37.2 s of green against 60 s for
    the E/W through phase, whose single longest queue is the larger. *)
Lemma total_queue_does_not_order_greens :
  match Controller.recompute_timing (engine_with 5 5 9 0) standard_ring,
        nth_error (phases standard_ring) 1,
        nth_error (phases standard_ring) 3 with
  | Some (e', ring'), Some p2, Some p4 =>
      phase_type p2 = phase_type p4 /\
      is_left_turn p2 = is_left_turn p4 /\
      phase_total_queue (intersection (engine_with 5 5 9 0)) p2 = 10%Z /\
      phase_total_queue (intersection (engine_with 5 5 9 0)) p4 = 9%Z /\
      match Controller.green_at ring' 1, Controller.green_at ring' 3 with
      | Some g2, Some g4 => g2 == 186 # 5 /\ g4 == 60 /\ g2 < g4
      | _, _ => False
      end
  | _, _, _ => False
  end.
Proof.
  vm_compute. repeat split; reflexivity.
Qed.

End GreenSplitCounterexample.

Section DictFacts.
Import Adaptive.

Lemma dict_set_fresh (d : Dict) k v :
  ~ In k (map fst d) -> dict_set d k v = d ++ [(k, v)].
Proof.
  induction d as [| [k' v'] d IH]; simpl; intro H; [reflexivity |].
  destruct (Z.eqb_spec k k') as [-> | Hne]; [tauto |].
  rewrite IH; tauto.
Qed.

Lemma dict_get_In (d : Dict) k v :
  NoDup (map fst d) -> In (k, v) d -> dict_get d k = Some v.
Proof.
  induction d as [| [k' v'] d IH]; simpl; intros Hnd Hin; [contradiction |].
  inversion Hnd as [| ? ? Hk Hnd']; subst.
  destruct Hin as [E | Hin].
  - injection E as -> ->. now rewrite Z.eqb_refl.
  - destruct (Z.eqb_spec k k') as [-> | Hne]; [| now apply IH].
    exfalso. apply Hk. change k' with (fst (k', v)). now apply in_map.
Qed.

(** Filling a dictionary from items with distinct new keys lists them in
    order. *)
Lemma dict_fill (g : Z * Q -> Q) : forall (items : list (Z * Q)) (acc : Dict),
  NoDup (map fst acc ++ map fst items) ->
  fold_left (fun d '(k, w) => dict_set d k (g (k, w))) items acc
  = acc ++ map (fun kw => (fst kw, g kw)) items.
Proof.
  induction items as [| [k w] items IH]; intros acc Hnd; simpl.
  - now rewrite app_nil_r.
  - rewrite dict_set_fresh.
    + rewrite IH.
      * now rewrite <- app_assoc.
      * rewrite map_app. simpl. rewrite <- app_assoc. exact Hnd.
    + simpl in Hnd. apply NoDup_remove_2 in Hnd.
      intro H. apply Hnd. apply in_or_app. now left.
Qed.

End DictFacts.

Section SumFacts.

Lemma fold_plus_shift (l : list Q) : forall a, fold_left Qplus l a == a + Num.py_sum l.
Proof.
  unfold Num.py_sum. induction l as [| x l IH]; intro a; simpl.
  - lra.
  - rewrite (IH (a + x)), (IH (0 + x)). lra.
Qed.

Lemma py_sum_cons x l : Num.py_sum (x :: l) == x + Num.py_sum l.
Proof. unfold Num.py_sum at 1. simpl. rewrite fold_plus_shift. lra. Qed.

(** The sum of a list all of whose elements equal [c]. *)
Lemma py_sum_const (c : Q) (l : list Q) :
  Forall (fun x => x == c) l ->
  Num.py_sum l == inject_Z (Z.of_nat (length l)) * c.
Proof.
  induction 1 as [| x l Hx _ IH].
  - change (0 == 0 * c). ring.
  - cbv beta in Hx. rewrite py_sum_cons, IH. simpl length.
    generalize (length l). intro n. rewrite Hx. rewrite Nat2Z.inj_succ.
    unfold Z.succ. rewrite inject_Z_plus. change (inject_Z 1) with 1. ring.
Qed.

Lemma Forall2_nth_error_rel {A B} (R : A -> B -> Prop) l l' i x y :
  Forall2 R l l' -> nth_error l i = Some x -> nth_error l' i = Some y -> R x y.
Proof.
  intro H. revert i. induction H as [| a b l l' Hab _ IH]; intros [| i]; simpl;
    try discriminate.
  - intros Hx Hy. injection Hx as <-. injection Hy as <-. exact Hab.
  - apply IH.
Qed.

Lemma Forall2_map_l {A B C} (R : B -> C -> Prop) (f : A -> B) l l' :
  Forall2 R (map f l) l' <-> Forall2 (fun a c => R (f a) c) l l'.
Proof.
  split.
  - revert l'. induction l as [| a l IH]; intros l' H; inversion H; subst;
      constructor; auto.
  - induction 1; simpl; constructor; auto.
Qed.

Lemma Forall2_compose {A B C} (R1 : A -> B -> Prop) (R2 : B -> C -> Prop) l1 l2 l3 :
  Forall2 R1 l1 l2 -> Forall2 R2 l2 l3 ->
  Forall2 (fun a c => exists b, R1 a b /\ R2 b c) l1 l3.
Proof.
  intro H. revert l3. induction H as [| a b l1 l2 Hab _ IH]; intros l3 H2;
    inversion H2; subst; constructor; eauto.
Qed.

End SumFacts.

Section DemandFacts.
Import Config Signal Adaptive.

Lemma green_time_to_clear_inv l lost x :
  Intersection.green_time_to_clear l lost = Some x -> x = clear_time l lost.
Proof.
  unfold Intersection.green_time_to_clear, clear_time.
  destruct (_ <=? _)%Z.
  - intro H. now injection H.
  - destruct (Num.py_div _ _) as [t |] eqn:E; [| discriminate].
    apply py_div_inv in E. destruct E as [_ ->]. intro H. now injection H.
Qed.

Lemma served_loop_inv e phase : forall dirs t mi lt res,
  served_loop e phase dirs (t, mi, lt) = Some res ->
  res =
    (fold_left (fun acc d => (acc + queue_of (intersection e) phase d)%Z) dirs t,
     fold_left
       (fun a d =>
          Num.py_max a
            (clear_time
               (relevant_lane phase (Intersection.approach (intersection e) d))
               (startup_lost_time_s (timing e))))
       dirs mi,
     if is_left_turn phase
     then fold_left (fun acc d => (acc + queue_of (intersection e) phase d)%Z) dirs lt
     else lt).
Proof.
  induction dirs as [| d dirs IH]; intros t mi lt res; simpl.
  - intro H. injection H as <-. now destruct (is_left_turn phase).
  - destruct (Intersection.green_time_to_clear _ _) as [ideal |] eqn:E;
      [| discriminate].
    apply green_time_to_clear_inv in E. subst ideal.
    intro H. apply IH in H. subst res. unfold queue_of.
    now destruct (is_left_turn phase).
Qed.

Lemma phase_demand_inv e p d e' :
  phase_demand e p = Some (d, e') ->
  demand_of (intersection e) (timing e) p d /\
  intersection e' = intersection e /\ timing e' = timing e.
Proof.
  unfold phase_demand.
  destruct (served_loop e p (served_directions p) (0%Z, 0, 0%Z))
    as [[[t mi] lt] |] eqn:E; [| discriminate].
  apply served_loop_inv in E. injection E as -> -> ->.
  destruct (hd_error (served_directions p)); [| discriminate].
  intro H. injection H as <- <-. simpl.
  repeat split. unfold demand_of. simpl.
  destruct (is_left_turn p); reflexivity.
Qed.

Lemma demands_loop_inv : forall ps e ds e',
  demands_loop e ps = Some (ds, e') ->
  Forall2 (demand_of (intersection e) (timing e)) ps ds /\
  intersection e' = intersection e /\ timing e' = timing e.
Proof.
  induction ps as [| p ps IH]; intros e ds e'; simpl.
  - intro H. injection H as <- <-. repeat split. constructor.
  - destruct (phase_demand e p) as [[d e1] |] eqn:E1; [| discriminate].
    simpl. destruct (demands_loop e1 ps) as [[ds' e2] |] eqn:E2; [| discriminate].
    simpl. intro H. injection H as <- <-.
    apply phase_demand_inv in E1. destruct E1 as (Hd & Hi & Ht).
    apply IH in E2. destruct E2 as (Hds & Hi2 & Ht2).
    rewrite Hi, Ht in Hds. repeat split; try congruence.
    now constructor.
Qed.

Lemma phase_by_id_nodup ps p :
  NoDup (map Signal.phase_id ps) -> In p ps ->
  phase_by_id {| phases := ps |} (Signal.phase_id p) = Some p.
Proof.
  unfold phase_by_id. simpl.
  induction ps as [| q ps IH]; simpl; intros Hnd Hin; [contradiction |].
  inversion Hnd as [| ? ? Hq Hnd']; subst.
  destruct (Z.eqb_spec (Signal.phase_id q) (Signal.phase_id p)) as [E | Hne].
  - destruct Hin as [-> | Hin]; [reflexivity |].
    exfalso. apply Hq. rewrite E. now apply in_map.
  - destruct Hin as [-> | Hin]; [congruence | now apply IH].
Qed.

Lemma demand_weight_eq e ring p d :
  NoDup (map Signal.phase_id (phases ring)) -> In p (phases ring) ->
  phase_id d = Signal.phase_id p ->
  demand_weight e ring d = Some (weight_value (timing e) p d).
Proof.
  intros Hnd Hin Hid. unfold demand_weight. rewrite Hid.
  destruct ring as [ps]. simpl in *.
  rewrite (phase_by_id_nodup ps p Hnd Hin). unfold weight_value.
  destruct (is_left_turn p && negb (needs_protected_left d)); reflexivity.
Qed.

Lemma weight_items_keys tm i ps ds :
  Forall2 (demand_of i tm) ps ds ->
  map fst (weight_items tm ps ds) = map Signal.phase_id ps.
Proof.
  unfold weight_items. induction 1 as [| p d ps ds _ _ IH]; simpl;
    [reflexivity | now rewrite IH].
Qed.

Lemma weights_loop_eq e ring i : forall ps ds acc,
  NoDup (map Signal.phase_id (phases ring)) ->
  Forall2 (demand_of i (timing e)) ps ds ->
  incl ps (phases ring) ->
  NoDup (map fst acc ++ map Signal.phase_id ps) ->
  weights_loop e ring ds acc = Some (acc ++ weight_items (timing e) ps ds).
Proof.
  intros ps ds acc Hring H. revert acc.
  induction H as [| p d ps ds Hpd _ IH]; intros acc Hincl Hnd; simpl.
  - unfold weight_items. simpl. now rewrite app_nil_r.
  - destruct Hpd as (Hid & _).
    rewrite (demand_weight_eq e ring p d Hring (Hincl p (or_introl eq_refl)) Hid).
    rewrite Hid. rewrite dict_set_fresh.
    + rewrite IH.
      * unfold weight_items. simpl. now rewrite <- app_assoc.
      * intros x Hx. apply Hincl. now right.
      * rewrite map_app. simpl. rewrite <- app_assoc. exact Hnd.
    + simpl in Hnd. apply NoDup_remove_2 in Hnd.
      intro H. apply Hnd. apply in_or_app. now left.
Qed.

End DemandFacts.

Section PlanFacts.
Import Config Signal Adaptive.

Lemma Forall2_nth_error_l {A B} (R : A -> B -> Prop) l l' n x :
  Forall2 R l l' -> nth_error l n = Some x ->
  exists y, nth_error l' n = Some y /\ R x y.
Proof.
  intro H. revert n. induction H as [| a b l l' Hab _ IH]; intros [| n]; simpl;
    try discriminate.
  - intro Hx. injection Hx as <-. eauto.
  - apply IH.
Qed.

Lemma nth_error_combine {A B} (l : list A) (l' : list B) n x y :
  nth_error l n = Some x -> nth_error l' n = Some y ->
  nth_error (combine l l') n = Some (x, y).
Proof.
  revert l' n. induction l as [| a l IH]; intros [| b l'] [| n]; simpl;
    try discriminate.
  - intros Hx Hy. injection Hx as <-. injection Hy as <-. reflexivity.
  - apply IH.
Qed.

Lemma allocate_green_splits_eq e ring i ds cl :
  NoDup (map Signal.phase_id (phases ring)) ->
  Forall2 (demand_of i (timing e)) (phases ring) ds ->
  exists tw av,
    0 < tw /\ 0 <= av /\
    _allocate_green_splits e ds cl ring =
      Some (map (fun kw => (fst kw, snd kw / tw * av))
              (weight_items (timing e) (phases ring) ds)).
Proof.
  intros Hnd Hds. unfold _allocate_green_splits.
  rewrite (weights_loop_eq e ring i (phases ring) ds [] Hnd Hds)
    by (try apply incl_refl; exact Hnd).
  simpl app.
  set (items := weight_items (timing e) (phases ring) ds).
  set (tw0 := Num.py_sum (map snd items)).
  set (tw := if Qle_bool tw0 0 then 1 else tw0).
  set (av := Num.py_max 0 _).
  exists tw, av. split; [| split].
  - unfold tw. destruct (Qle_bool tw0 0) eqn:E; [reflexivity |].
    now apply Qle_bool_gt.
  - unfold av. apply py_max_lub.
  - f_equal.
    apply (dict_fill (fun kw => snd kw / tw * av) items []).
    simpl. unfold items. now rewrite (weight_items_keys _ i).
Qed.

(** The plan gives every phase of the ring a green in proportion to its
    weight: one positive divisor and one available green for all. *)
Lemma plan_green e ring plan e' :
  compute_cycle_plan e ring = Some (plan, e') ->
  NoDup (map Signal.phase_id (phases ring)) ->
  timing e' = timing e /\
  exists tw av,
    0 < tw /\ 0 <= av /\
    forall n p, nth_error (phases ring) n = Some p ->
      exists d,
        demand_of (intersection e) (timing e) p d /\
        dict_get (phase_greens plan) (Signal.phase_id p)
          = Some (weight_value (timing e) p d / tw * av).
Proof.
  intros H Hnd. unfold compute_cycle_plan, _compute_demands in H.
  destruct (demands_loop e (phases ring)) as [[ds e1] |] eqn:E; [| discriminate].
  apply demands_loop_inv in E. destruct E as (Hds & Hi & Ht).
  rewrite <- Ht in Hds.
  destruct (allocate_green_splits_eq e1 ring (intersection e) ds
              (_compute_cycle_length e1 ds) Hnd Hds)
    as (tw & av & Htw & Hav & Hg).
  rewrite Hg in H. injection H as <- <-.
  split; [exact Ht |]. exists tw, av. split; [exact Htw |]. split; [exact Hav |].
  intros n p Hp.
  destruct (Forall2_nth_error_l _ _ _ n p Hds Hp) as (d & Hd & Hpd).
  exists d. rewrite Ht in Hpd. split; [exact Hpd |]. simpl.
  apply dict_get_In.
  - rewrite map_map. simpl.
    change (map (fun x : Z * Q => fst x)) with (@map (Z * Q) Z fst).
    rewrite (weight_items_keys _ (intersection e)); [exact Hnd |].
    rewrite Ht. now rewrite <- Ht at 1.
  - rewrite <- Ht.
    apply (in_map (fun kw => (fst kw, snd kw / tw * av))
             (weight_items (timing e1) (phases ring) ds)
             (Signal.phase_id p, weight_value (timing e1) p d)).
    unfold weight_items.
    apply (in_map (fun pd => (Signal.phase_id (fst pd),
                              weight_value (timing e1) (fst pd) (snd pd)))
             (combine (phases ring) ds) (p, d)).
    apply (nth_error_In _ n). apply nth_error_combine; assumption.
Qed.

End PlanFacts.

Section FoldFacts.

Lemma fold_py_max_spec {A} (f : A -> Q) : forall (l : list A) (a : Q),
  a <= fold_left (fun a d => Num.py_max a (f d)) l a /\
  (forall d, In d l -> f d <= fold_left (fun a d => Num.py_max a (f d)) l a) /\
  (fold_left (fun a d => Num.py_max a (f d)) l a = a \/
   exists d, In d l /\ fold_left (fun a d => Num.py_max a (f d)) l a = f d).
Proof.
  induction l as [| x l IH]; intro a; simpl.
  - split; [lra |]. split; [contradiction | now left].
  - destruct (IH (Num.py_max a (f x))) as (H1 & H2 & H3).
    destruct (py_max_lub a (f x)) as [Ha Hx].
    split; [lra |]. split.
    + intros d [-> | Hd]; [lra | now apply H2].
    + destruct H3 as [H3 | (d & Hd & H3)].
      * rewrite H3. destruct (py_max_cases a (f x)) as [[_ E] | [_ E]];
          rewrite E; [right; exists x; auto | now left].
      * right. exists d. auto.
Qed.

Lemma fold_Zmax_spec {A} (f : A -> Z) : forall (l : list A) (a : Z),
  (a <= fold_left (fun a d => Z.max a (f d)) l a)%Z /\
  (forall d, In d l -> (f d <= fold_left (fun a d => Z.max a (f d)) l a)%Z) /\
  (fold_left (fun a d => Z.max a (f d)) l a = a \/
   exists d, In d l /\ fold_left (fun a d => Z.max a (f d)) l a = f d).
Proof.
  induction l as [| x l IH]; intro a; simpl.
  - split; [lia |]. split; [contradiction | now left].
  - destruct (IH (Z.max a (f x))) as (H1 & H2 & H3).
    split; [lia |]. split.
    + intros d [-> | Hd]; [lia | now apply H2].
    + destruct H3 as [H3 | (d & Hd & H3)].
      * rewrite H3. destruct (Z.max_spec a (f x)) as [[_ E] | [_ E]];
          rewrite E; [right; exists x; auto | now left].
      * right. exists d. auto.
Qed.

Lemma fold_Zplus_nonneg {A} (f : A -> Z) : forall (l : list A) (a : Z),
  (forall d, In d l -> (0 <= f d)%Z) ->
  (a <= fold_left (fun a d => (a + f d)%Z) l a)%Z.
Proof.
  induction l as [| x l IH]; intros a H; simpl; [lia |].
  specialize (IH (a + f x)%Z (fun d Hd => H d (or_intror Hd))).
  specialize (H x (or_introl eq_refl)). lia.
Qed.

End FoldFacts.

Section WeightOrder.
Import Config Signal Adaptive.

Variable i : Intersection.Intersection.
Variable tm : TimingConstraints.
Variables p1 p2 : Phase.
Variable s : Q.

Hypothesis same_kind : is_left_turn p1 = is_left_turn p2.
Hypothesis queues_nonneg2 :
  forall d, In d (served_directions p2) -> (0 <= queue_of i p2 d)%Z.
Hypothesis flow1 :
  forall d, In d (served_directions p1) ->
    Intersection.saturation_flow (relevant_lane p1 (Intersection.approach i d)) = s.
Hypothesis flow2 :
  forall d, In d (served_directions p2) ->
    Intersection.saturation_flow (relevant_lane p2 (Intersection.approach i d)) = s.
Hypothesis flow_pos : 0 < s.
Hypothesis permissive_below_min :
  min_protected_left_green_s tm * 0.5 <= min_green_s tm.
Hypothesis more_total : (phase_total_queue i p2 < phase_total_queue i p1)%Z.
Hypothesis more_critical :
  (phase_critical_queue i p2 <= phase_critical_queue i p1)%Z.

Lemma clear_time_order (l1 l2 : Intersection.Lane) :
  Intersection.saturation_flow l1 = s -> Intersection.saturation_flow l2 = s ->
  (0 < Intersection.queue_count l2 <= Intersection.queue_count l1)%Z ->
  clear_time l2 (startup_lost_time_s tm) <= clear_time l1 (startup_lost_time_s tm).
Proof.
  intros H1 H2 Hq. unfold clear_time, Intersection.saturation_flow_per_sec.
  rewrite H1, H2.
  destruct (Z.leb_spec (Intersection.queue_count l2) 0); [lia |].
  destruct (Z.leb_spec (Intersection.queue_count l1) 0); [lia |].
  assert (Hinv : 0 < / (s / 3600)).
  { apply Qinv_lt_0_compat. apply Qlt_shift_div_l; lra. }
  assert (Hle : inject_Z (Intersection.queue_count l2)
                <= inject_Z (Intersection.queue_count l1))
    by (rewrite <- Zle_Qle; lia).
  unfold Qdiv at 1 3.
  apply Qplus_le_l. apply Qmult_le_compat_r; [exact Hle | lra].
Qed.

Lemma ideal_green_order :
  phase_ideal_green i tm p2 <= phase_ideal_green i tm p1.
Proof.
  unfold phase_ideal_green.
  set (f1 := fun d => clear_time (relevant_lane p1 (Intersection.approach i d))
                        (startup_lost_time_s tm)).
  set (f2 := fun d => clear_time (relevant_lane p2 (Intersection.approach i d))
                        (startup_lost_time_s tm)).
  change (fold_left (fun a d => Num.py_max a (f2 d)) (served_directions p2) 0
          <= fold_left (fun a d => Num.py_max a (f1 d)) (served_directions p1) 0).
  destruct (fold_py_max_spec f1 (served_directions p1) 0) as (H1a & H1b & _).
  destruct (fold_py_max_spec f2 (served_directions p2) 0) as (_ & _ & H2c).
  destruct H2c as [-> | (d2 & Hd2 & ->)]; [exact H1a |].
  destruct (Z_le_gt_dec
              (Intersection.queue_count
                 (relevant_lane p2 (Intersection.approach i d2))) 0)
    as [Hz | Hpos].
  { replace (f2 d2) with 0; [exact H1a |].
    unfold f2, clear_time. apply Z.leb_le in Hz. now rewrite Hz. }
  unfold phase_critical_queue in more_critical.
  destruct (fold_Zmax_spec (queue_of i p2) (served_directions p2) 0%Z)
    as (_ & Hc2 & _).
  destruct (fold_Zmax_spec (queue_of i p1) (served_directions p1) 0%Z)
    as (_ & _ & Hc1).
  specialize (Hc2 d2 Hd2). unfold queue_of at 1 in Hc2.
  destruct Hc1 as [Hc1 | (d1 & Hd1 & Hc1)]; rewrite Hc1 in more_critical;
    [lia |].
  apply Qle_trans with (f1 d1); [| now apply H1b].
  unfold f1. apply clear_time_order; auto.
  fold (queue_of i p1 d1). lia.
Qed.

Lemma weight_order (d1 d2 : PhaseDemand) :
  demand_of i tm p1 d1 -> demand_of i tm p2 d2 ->
  weight_value tm p2 d2 <= weight_value tm p1 d1.
Proof.
  intros (_ & Ht1 & Hi1 & Hn1) (_ & Ht2 & Hi2 & Hn2).
  pose proof ideal_green_order as Hideal.
  assert (Hz2 : (0 <= phase_total_queue i p2)%Z)
    by (apply (fold_Zplus_nonneg (queue_of i p2)); exact queues_nonneg2).
  unfold weight_value. rewrite Ht1, Ht2, Hi1, Hi2, Hn1, Hn2, <- same_kind.
  destruct (Z.eqb_spec (phase_total_queue i p1) 0) as [E1 | _]; [lia |].
  destruct (is_left_turn p1); simpl.
  - destruct (Z.leb_spec (left_turn_queue_threshold tm) (phase_total_queue i p2));
      destruct (Z.leb_spec (left_turn_queue_threshold tm) (phase_total_queue i p1));
      simpl; try lia.
    + destruct (Z.eqb_spec (phase_total_queue i p2) 0); py_cases; lra.
    + py_cases; lra.
    + lra.
  - destruct (Z.eqb_spec (phase_total_queue i p2) 0); py_cases; lra.
Qed.

End WeightOrder.

Section EnforceCycleFacts.
Import Config Signal Constraints.

Lemma enforce_all_Forall2 c : forall ps qs,
  enforce_all c ps = Some qs ->
  Forall2 (fun p q => enforce c p = Some q) ps qs.
Proof.
  induction ps as [| p ps IH]; intros qs; simpl.
  - intro H. injection H as <-. constructor.
  - destruct (enforce c p) as [q |] eqn:E; [| discriminate].
    destruct (enforce_all c ps) as [qs' |]; [| discriminate].
    intro H. injection H as <-. constructor; auto.
Qed.

Lemma enforce_fixed c p q :
  enforce c p = Some q ->
  yellow_time_s q = yellow_clearance_s c /\
  all_red_time_s q = all_red_clearance_s c.
Proof.
  intro H. destruct (is_left_turn p) eqn:Hl.
  - rewrite (enforce_left c p Hl) in H. injection H as <-. auto.
  - destruct (enforce_through_inv c p q Hl H) as [ped Hp].
    rewrite (enforce_through c p ped Hl Hp) in H. injection H as <-. auto.
Qed.

Lemma fixed_time_eq c ps qs :
  Forall2 (fun p q => enforce c p = Some q) ps qs ->
  Num.py_sum (map (fun p => yellow_time_s p + all_red_time_s p) qs)
  == inject_Z (Z.of_nat (length ps))
     * (yellow_clearance_s c + all_red_clearance_s c).
Proof.
  intro H. rewrite (Forall2_length H).
  rewrite <- (length_map (fun p => yellow_time_s p + all_red_time_s p) qs).
  apply py_sum_const.
  induction H as [| p q ps qs Hpq _ IH]; simpl; constructor; auto.
  destruct (enforce_fixed c p q Hpq) as [-> ->]. reflexivity.
Qed.

(** [enforce] is monotone in the green it is given, between phases of one
    kind, when the phase with more green also walks at least as long. *)
Lemma enforce_mono c a1 a2 q1 q2 :
  is_left_turn a1 = is_left_turn a2 ->
  walk_time_s a2 <= walk_time_s a1 ->
  green_time_s a2 <= green_time_s a1 ->
  enforce c a1 = Some q1 -> enforce c a2 = Some q2 ->
  is_left_turn q1 = is_left_turn q2 /\
  walk_time_s q2 <= walk_time_s q1 /\
  green_time_s q2 <= green_time_s q1.
Proof.
  intros Hk Hw Hg H1 H2. destruct (is_left_turn a1) eqn:Hl1; symmetry in Hk.
  - rewrite (enforce_left c a1 Hl1) in H1. rewrite (enforce_left c a2 Hk) in H2.
    injection H1 as <-. injection H2 as <-. simpl.
    repeat split; [congruence | exact Hw | now apply clamp_green_mono].
  - destruct (enforce_through_inv c a1 q1 Hl1 H1) as [ped Hp].
    rewrite (enforce_through c a1 ped Hl1 Hp) in H1.
    rewrite (enforce_through c a2 ped Hk Hp) in H2.
    injection H1 as <-. injection H2 as <-. simpl.
    pose proof (py_max_mono (min_walk_s c) _ _ Hw) as Hw'.
    pose proof (clamp_green_mono c false _ _ Hg) as Hg'.
    repeat split; [exact Hw' |].
    destruct (Num.Qltb (clamp_green c false (green_time_s a2)) _) eqn:E2;
      destruct (Num.Qltb (clamp_green c false (green_time_s a1)) _) eqn:E1;
      try apply Qltb_lt in E1; try apply Qltb_ge in E1;
      try apply Qltb_lt in E2; try apply Qltb_ge in E2; lra.
Qed.

Lemma scale_mono (q1 q2 : Phase) (r : Q) :
  0 <= r -> green_time_s q2 <= green_time_s q1 ->
  green_time_s (set_green_time_s q2 (green_time_s q2 * r))
  <= green_time_s (set_green_time_s q1 (green_time_s q1 * r)).
Proof. intros Hr H. simpl. now apply Qmult_le_compat_r. Qed.

(** Where [enforce_cycle] returns it has enforced every phase once, or once
    before and once after scaling every green by one non-negative ratio. *)
Lemma enforce_cycle_inv c ps pf :
  inject_Z (Z.of_nat (length ps))
  * (yellow_clearance_s c + all_red_clearance_s c) <= max_cycle_s c ->
  enforce_cycle c ps = Some pf ->
  Forall2 (fun p f => enforce c p = Some f) ps pf \/
  exists r, 0 <= r /\
    Forall2
      (fun p f =>
         exists q, enforce c p = Some q /\
           enforce c (set_green_time_s q (green_time_s q * r)) = Some f)
      ps pf.
Proof.
  intros Hfix. unfold enforce_cycle.
  destruct (enforce_all c ps) as [qs |] eqn:E; [| discriminate].
  apply enforce_all_Forall2 in E.
  pose proof (fixed_time_eq c ps qs E) as Hfixed.
  set (total := Num.py_sum (map total_phase_time_s qs)).
  assert (Hscaled : forall bound,
    0 < total - Num.py_sum (map (fun p => yellow_time_s p + all_red_time_s p) qs) ->
    0 <= bound - Num.py_sum (map (fun p => yellow_time_s p + all_red_time_s p) qs) ->
    rescale c bound qs total = Some pf ->
    exists r, 0 <= r /\
      Forall2
        (fun p f =>
           exists q, enforce c p = Some q /\
             enforce c (set_green_time_s q (green_time_s q * r)) = Some f)
        ps pf).
  { intros bound Hgt Hb. unfold rescale.
    destruct (Qle_bool _ 0) eqn:Ele.
    { apply Qle_bool_iff in Ele. lra. }
    intro H. apply enforce_all_Forall2 in H. apply Forall2_map_l in H.
    eexists. split; [| exact (Forall2_compose _ _ _ _ _ E H)].
    apply Qle_shift_div_l; [exact Hgt | lra]. }
  assert (Hsame : forall bound,
    ~ 0 < total - Num.py_sum (map (fun p => yellow_time_s p + all_red_time_s p) qs) ->
    rescale c bound qs total = Some pf -> qs = pf).
  { intros bound Hgt. unfold rescale.
    destruct (Qle_bool _ 0) eqn:Ele.
    - intro H. now injection H.
    - apply Qle_bool_gt in Ele. contradiction. }
  destruct (Qlt_le_dec 0
              (total - Num.py_sum
                         (map (fun p => yellow_time_s p + all_red_time_s p) qs)))
    as [Hpos | Hnonpos].
  - destruct (Num.Qltb total (min_cycle_s c)) eqn:E1.
    + apply Qltb_lt in E1. intro H. right.
      apply (Hscaled (min_cycle_s c)); auto. lra.
    + destruct (Num.Qltb (max_cycle_s c) total) eqn:E2.
      * intro H. right. apply (Hscaled (max_cycle_s c)); auto.
        rewrite Hfixed. lra.
      * intro H. injection H as <-. now left.
  - assert (Hn : ~ 0 < total - Num.py_sum
                         (map (fun p => yellow_time_s p + all_red_time_s p) qs))
      by lra.
    destruct (Num.Qltb total (min_cycle_s c)).
    + intro H. apply (Hsame _ Hn) in H. subst. now left.
    + destruct (Num.Qltb (max_cycle_s c) total).
      * intro H. apply (Hsame _ Hn) in H. subst. now left.
      * intro H. injection H as <-. now left.
Qed.

Lemma enforce_same_layout c p q : enforce c p = Some q -> same_layout p q.
Proof.
  intro H. destruct (is_left_turn p) eqn:Hl.
  - rewrite (enforce_left c p Hl) in H. injection H as <-.
    repeat split; auto.
  - destruct (enforce_through_inv c p q Hl H) as [ped Hp].
    rewrite (enforce_through c p ped Hl Hp) in H. injection H as <-.
    repeat split; auto.
Qed.

Lemma same_layout_trans p q r : same_layout p q -> same_layout q r -> same_layout p r.
Proof. unfold same_layout. intuition congruence. Qed.

Lemma enforce_cycle_same_layout c ps pf :
  enforce_cycle c ps = Some pf -> Forall2 same_layout ps pf.
Proof.
  unfold enforce_cycle.
  destruct (enforce_all c ps) as [qs |] eqn:E; [| discriminate].
  apply enforce_all_Forall2 in E.
  assert (Hqs : Forall2 same_layout ps qs).
  { eapply Forall2_impl; [| exact E]. intros p q. apply enforce_same_layout. }
  assert (Hres : forall bound total,
            rescale c bound qs total = Some pf -> Forall2 same_layout ps pf).
  { intros bound total. unfold rescale. destruct (Qle_bool _ 0).
    - intro H. injection H as <-. exact Hqs.
    - intro H. apply enforce_all_Forall2 in H. apply Forall2_map_l in H.
      pose proof (Forall2_compose _ _ _ _ _ Hqs H) as Hc.
      eapply Forall2_impl; [| exact Hc].
      intros p f (q & Hpq & Hqf). apply enforce_same_layout in Hqf.
      apply (same_layout_trans p q f Hpq). exact Hqf. }
  destruct (Num.Qltb _ (min_cycle_s c)); [apply Hres |].
  destruct (Num.Qltb (max_cycle_s c) _); [apply Hres |].
  intro H. injection H as <-. exact Hqs.
Qed.

Lemma same_layout_retime ps pf :
  Forall2 same_layout ps pf -> pf = retime_phases ps (map retiming_of pf).
Proof.
  induction 1 as [| p q ps pf (H1 & H2 & H3 & H4) _ IH]; simpl; [reflexivity |].
  rewrite <- IH. f_equal. unfold retime_phase, retiming_of. simpl.
  rewrite H1, H2, H3, H4. now destruct q.
Qed.

(** Applying a plan is a retiming of the ring: what the cycle-complete
    observer does to the state machine is a [Retime] input. *)
Lemma apply_plan_retimes e plan ring ring' :
  Adaptive.apply_plan e plan ring = Some ring' ->
  exists rs, phases ring' = retime_phases (phases ring) rs.
Proof.
  unfold Adaptive.apply_plan.
  destruct (enforce_cycle _ _) as [pf |] eqn:E; [| discriminate].
  intro H. injection H as <-. simpl.
  apply enforce_cycle_same_layout in E.
  apply (proj1 (Forall2_map_l same_layout _ _ _)) in E.
  exists (map retiming_of pf). apply same_layout_retime.
  eapply Forall2_impl; [| exact E].
  intros p f (H1 & H2 & H3 & H4). unfold Adaptive.apply_to_phase in *.
  destruct (Adaptive.dict_get _ _); destruct (find _ _); simpl in *;
    repeat split; assumption.
Qed.

(** Through [enforce_cycle] the order of the greens of two phases of one
    kind is kept. *)
Lemma enforce_cycle_mono c ps pf n1 n2 a1 a2 f1 f2 :
  inject_Z (Z.of_nat (length ps))
  * (yellow_clearance_s c + all_red_clearance_s c) <= max_cycle_s c ->
  enforce_cycle c ps = Some pf ->
  nth_error ps n1 = Some a1 -> nth_error ps n2 = Some a2 ->
  nth_error pf n1 = Some f1 -> nth_error pf n2 = Some f2 ->
  is_left_turn a1 = is_left_turn a2 ->
  walk_time_s a2 <= walk_time_s a1 ->
  green_time_s a2 <= green_time_s a1 ->
  green_time_s f2 <= green_time_s f1.
Proof.
  intros Hfix H Ha1 Ha2 Hf1 Hf2 Hk Hw Hg.
  destruct (enforce_cycle_inv c ps pf Hfix H) as [HF | (r & Hr & HF)].
  - pose proof (Forall2_nth_error_rel _ _ _ _ _ _ HF Ha1 Hf1) as E1.
    pose proof (Forall2_nth_error_rel _ _ _ _ _ _ HF Ha2 Hf2) as E2.
    simpl in E1, E2.
    now destruct (enforce_mono c a1 a2 f1 f2 Hk Hw Hg E1 E2) as (_ & _ & X).
  - pose proof (Forall2_nth_error_rel _ _ _ _ _ _ HF Ha1 Hf1) as (q1 & E1 & S1).
    pose proof (Forall2_nth_error_rel _ _ _ _ _ _ HF Ha2 Hf2) as (q2 & E2 & S2).
    destruct (enforce_mono c a1 a2 q1 q2 Hk Hw Hg E1 E2) as (Hk' & Hw' & Hg').
    now destruct (enforce_mono c
                    (set_green_time_s q1 (green_time_s q1 * r))
                    (set_green_time_s q2 (green_time_s q2 * r))
                    f1 f2 Hk' Hw' (scale_mono q1 q2 r Hr Hg') S1 S2)
      as (_ & _ & X).
Qed.

End EnforceCycleFacts.

Section GreenSplitTheorem.
Import Config Signal Adaptive.

Lemma apply_to_phase_fields plan p g :
  dict_get (phase_greens plan) (Signal.phase_id p) = Some g ->
  green_time_s (apply_to_phase plan p) = g /\
  is_left_turn (apply_to_phase plan p) = is_left_turn p /\
  walk_time_s (apply_to_phase plan p) = walk_time_s p.
Proof.
  intro H. unfold apply_to_phase. rewrite H.
  destruct (find _ _); simpl; auto.
Qed.

(** C6, amended.  Let the engine compute a plan for a ring whose phase ids
    are distinct and apply it through the enforcer, the fixed clearance
    time of the ring being within [max_cycle_s] and the permissive
    left-turn weight (half of [min_protected_left_green_s]) not above
    [min_green_s].  Take two phases p1 and p2 of the same kind whose lanes
    have one and the same positive saturation flow, p2's queues being
    non-negative and p2's walk time not longer than p1's.  If the total
    queue of p1 is strictly greater than that of p2 and the largest
    single-direction queue of p1 is at least that of p2, then after the
    plan is applied green(p1) >= green(p2). *)
Theorem critical_queue_orders_greens
  (e e' : AdaptiveTimingEngine) (ring ring' : PhaseRing)
  (n1 n2 : nat) (p1 p2 p1' p2' : Phase) (s : Q) :
  Controller.recompute_timing e ring = Some (e', ring') ->
  NoDup (map Signal.phase_id (phases ring)) ->
  nth_error (phases ring) n1 = Some p1 ->
  nth_error (phases ring) n2 = Some p2 ->
  nth_error (phases ring') n1 = Some p1' ->
  nth_error (phases ring') n2 = Some p2' ->
  is_left_turn p1 = is_left_turn p2 ->
  walk_time_s p2 <= walk_time_s p1 ->
  (forall d, In d (served_directions p2) ->
     (0 <= queue_of (intersection e) p2 d)%Z) ->
  (forall d, In d (served_directions p1) ->
     Intersection.saturation_flow
       (relevant_lane p1 (Intersection.approach (intersection e) d)) = s) ->
  (forall d, In d (served_directions p2) ->
     Intersection.saturation_flow
       (relevant_lane p2 (Intersection.approach (intersection e) d)) = s) ->
  0 < s ->
  min_protected_left_green_s (timing e) * 0.5 <= min_green_s (timing e) ->
  inject_Z (Z.of_nat (length (phases ring)))
  * (yellow_clearance_s (timing e) + all_red_clearance_s (timing e))
  <= max_cycle_s (timing e) ->
  (phase_total_queue (intersection e) p2
   < phase_total_queue (intersection e) p1)%Z ->
  (phase_critical_queue (intersection e) p2
   <= phase_critical_queue (intersection e) p1)%Z ->
  green_time_s p2' <= green_time_s p1'.
Proof.
  intros Hrun Hnd Hp1 Hp2 Hp1' Hp2' Hk Hw Hq2 Hs1 Hs2 Hs Hperm Hfix Htot Hcrit.
  unfold Controller.recompute_timing in Hrun.
  destruct (compute_cycle_plan e ring) as [[plan e1] |] eqn:Eplan;
    [| discriminate].
  simpl in Hrun. unfold apply_plan in Hrun.
  destruct (Constraints.enforce_cycle (timing e1)
              (map (apply_to_phase plan) (phases ring))) as [pf |] eqn:Ecyc;
    [| discriminate].
  injection Hrun as <- <-. simpl in Hp1', Hp2'.
  destruct (plan_green e ring plan e1 Eplan Hnd)
    as (Ht & tw & av & Htw & Hav & Hgreen).
  destruct (Hgreen n1 p1 Hp1) as (d1 & Hd1 & Hg1).
  destruct (Hgreen n2 p2 Hp2) as (d2 & Hd2 & Hg2).
  pose proof (weight_order (intersection e) (timing e) p1 p2 s
                Hk Hq2 Hs1 Hs2 Hs Hperm Htot Hcrit d1 d2 Hd1 Hd2) as Hweights.
  destruct (apply_to_phase_fields plan p1 _ Hg1) as (Ea1 & Ek1 & Ew1).
  destruct (apply_to_phase_fields plan p2 _ Hg2) as (Ea2 & Ek2 & Ew2).
  rewrite Ht in Ecyc.
  apply (enforce_cycle_mono (timing e)
           (map (apply_to_phase plan) (phases ring)) pf n1 n2
           (apply_to_phase plan p1) (apply_to_phase plan p2) p1' p2');
    auto using map_nth_error.
  - now rewrite length_map.
  - congruence.
  - rewrite Ew1, Ew2. exact Hw.
  - rewrite Ea1, Ea2.
    assert (Hinv : 0 <= / tw) by (apply Qlt_le_weak, Qinv_lt_0_compat, Htw).
    unfold Qdiv. apply Qmult_le_compat_r; [| exact Hav].
    apply Qmult_le_compat_r; [exact Hweights | exact Hinv].
Qed.

(** Scenario S1: through queues N=15, S=12, E=2, W=1 on the standard ring
    and intersection; the N/S through phase ends with at least the green
    of the E/W through phase. *)
Lemma critical_queue_orders_greens_witness :
  match Controller.recompute_timing (engine_with 15 12 2 1) standard_ring with
  | Some (_, ring') =>
      match nth_error (phases ring') 1, nth_error (phases ring') 3 with
      | Some p2', Some p4' => green_time_s p4' <= green_time_s p2'
      | _, _ => False
      end
  | None => False
  end.
Proof.
  destruct (Controller.recompute_timing (engine_with 15 12 2 1) standard_ring)
    as [[e' ring'] |] eqn:E; [| vm_compute in E; discriminate].
  destruct (nth_error (phases ring') 1) as [p2' |] eqn:E2;
    [| vm_compute in E; injection E as <- <-; vm_compute in E2; discriminate].
  destruct (nth_error (phases ring') 3) as [p4' |] eqn:E4;
    [| vm_compute in E; injection E as <- <-; vm_compute in E4; discriminate].
  apply (critical_queue_orders_greens (engine_with 15 12 2 1) e'
           standard_ring ring' 1 3
           (nth 1 (phases standard_ring) p2') (nth 3 (phases standard_ring) p2')
           p2' p4' 1800 E).
  - vm_compute. repeat constructor; intro H; simpl in H; intuition discriminate.
  - reflexivity.
  - reflexivity.
  - exact E2.
  - exact E4.
  - reflexivity.
  - vm_compute. discriminate.
  - intros d [<- | [<- | []]]; vm_compute; discriminate.
  - intros d [<- | [<- | []]]; reflexivity.
  - intros d [<- | [<- | []]]; reflexivity.
  - reflexivity.
  - vm_compute. discriminate.
  - vm_compute. discriminate.
  - vm_compute. reflexivity.
  - vm_compute. discriminate.
Defined.

End GreenSplitTheorem.

(* ------------------------------------------------------------------ *)
(** ** Scenarios *)

Section Scenarios.
Import Config Signal.

(** Scenario S6 on the manager of the standard controller: N is active at
    once, E waits, and clearing N activates E and empties the queue. *)
Lemma preemption_manager_contract_witness :
  exists m sc,
    Preemption.calls (Preemption.new_manager 30, standard_controller)
      [Preemption.Request NORTH 10 1; Preemption.Request EAST 10 2;
       Preemption.Clear 3] = Some (m, sc) /\
    (Preemption.active_count m <= 1)%nat.
Proof.
  destruct (proj2 (proj2 (proj2 preemption_manager_contract))
              30 standard_controller
              [Preemption.Request NORTH 10 1; Preemption.Request EAST 10 2;
               Preemption.Clear 3])
    as (m & sc & Hc & Hn & _).
  - unfold valid. vm_compute. repeat constructor.
  - exists m, sc. split; [exact Hc | exact Hn].
Defined.

Example preemption_queue_scenario :
  match Preemption.calls (Preemption.new_manager 30, standard_controller)
          [Preemption.Request NORTH 10 1; Preemption.Request EAST 10 2] with
  | Some (m, sc) =>
      option_map Preemption.direction (Preemption.active_event m) = Some NORTH /\
      Preemption.queue_depth m = 1%nat /\
      preemption_direction sc = Some NORTH /\
      match Preemption.clear m sc 3 with
      | Some (m', sc') =>
          option_map Preemption.direction (Preemption.active_event m') = Some EAST /\
          Preemption.queue_depth m' = 0%nat /\
          map Preemption.direction (Preemption.history m') = [NORTH] /\
          preemption_direction sc' = Some EAST
      | None => False
      end
  | None => False
  end.
Proof. vm_compute. repeat split; reflexivity. Qed.

(** The displays around the end of a preemption hold in [preemption_run]:
    EAST holds green during the hold; in the YELLOW sub-step that follows
    the clear, yellow is displayed on the directions of the current phase
    (N and S) and EAST is back at red. *)
Example preemption_hold_displays :
  current_step (observed 8) = PhaseStep.GREEN /\
  vehicle_signal (dm_get (signal_heads (observed 8)) EAST) = SignalState.GREEN /\
  current_step (observed 9) = PhaseStep.YELLOW /\
  vehicle_signal (dm_get (signal_heads (observed 9)) EAST) = SignalState.RED /\
  vehicle_signal (dm_get (signal_heads (observed 9)) NORTH) = SignalState.YELLOW /\
  current_step (observed 10) = PhaseStep.ALL_RED.
Proof. vm_compute. repeat split; reflexivity. Qed.

(** Scenario S5 with the default threshold: 49 clean checks keep the latch,
    the 50th releases it. *)
Example forced_conflict_scenario :
  let m1 := snd (fst (Conflict.check (Conflict.new_monitor 50 0) forced_conflict 0)) in
  Conflict.fault_active m1 = true /\ Conflict.conflict_count m1 = 1%Z /\
  Conflict.fault_active
    (Conflict.checks m1 (repeat standard_controller 49) 0) = true /\
  Conflict.fault_active
    (Conflict.checks m1 (repeat standard_controller 50) 0) = false.
Proof. vm_compute. repeat split; reflexivity. Qed.

End Scenarios.

(* ================================================================== *)
(** * Further properties of the code *)

(* ------------------------------------------------------------------ *)
(** ** The state machine: what a run can and cannot do *)

Section RunFacts.
Import Config Signal.

Lemma trace_Forall (P : SignalController -> Prop) :
  (forall sc e sc', P sc -> exec sc e = Some sc' -> P sc') ->
  forall evs sc tr, P sc -> trace sc evs = Some tr -> Forall P tr.
Proof.
  intros Hstep. induction evs as [| e evs IH]; intros sc tr HP H; simpl in H.
  - injection H as <-. constructor; [exact HP | constructor].
  - destruct (exec sc e) as [sc' |] eqn:E; [| discriminate].
    destruct (trace sc' evs) as [tr' |] eqn:T; [| discriminate].
    injection H as <-. constructor; [exact HP |].
    eapply IH; [| exact T]. eapply Hstep; eauto.
Qed.

Lemma no_green_no_conflict heads :
  (forall d, shows_green (dm_get heads d) = false) ->
  conflict_found heads = false.
Proof.
  intro H. apply (single_green_no_conflict NORTH).
  intros d Hd. rewrite H in Hd. discriminate.
Qed.

Lemma lamps_shows_green h v l p :
  lamps h = (v, l, p) ->
  shows_green h =
    (match v with SignalState.GREEN | SignalState.YELLOW => true | _ => false end
     || match l with SignalState.GREEN_ARROW => true | _ => false end).
Proof.
  unfold lamps, shows_green. intro H. injection H as Hv Hl _.
  now rewrite Hv, Hl.
Qed.

Lemma all_red_no_conflict sc : all_heads_red sc -> _check_conflicts sc = sc.
Proof.
  intro H. unfold _check_conflicts.
  rewrite no_green_no_conflict; [reflexivity |].
  intro d. now rewrite (lamps_shows_green _ _ _ _ (H d)).
Qed.

Lemma hold_no_conflict sc d : holds_for sc d -> _check_conflicts sc = sc.
Proof.
  intros (_ & _ & _ & H). unfold _check_conflicts.
  rewrite (single_green_no_conflict d); [reflexivity |].
  intros d' Hd'. rewrite (lamps_shows_green _ _ _ _ (H d')) in Hd'.
  destruct (Direction_eqb d' d) eqn:E; [now apply Direction_eqb_eq | discriminate].
Qed.

Lemma derived_all_red phase hs d :
  lamps (dm_get (derived_heads phase PhaseStep.ALL_RED hs) d)
  = (SignalState.RED, SignalState.RED, SignalState.DONT_WALK).
Proof. unfold derived_heads. rewrite dm_get_map. reflexivity. Qed.

Lemma enter_preemption_holds sc now d :
  is_preempted sc = true -> preemption_direction sc = Some d ->
  holds_for (_enter_preemption_phase sc now) d.
Proof.
  intros Hp Hd. unfold holds_for, _enter_preemption_phase. rewrite Hd. simpl.
  repeat split; auto.
  intro d'. rewrite dm_get_set.
  destruct (Direction_eqb d' d); rewrite ?dm_get_map; reflexivity.
Qed.

(** A due tick, spelled out. *)
Lemma tick_due sc now phase q :
  current_phase sc = Some phase ->
  _current_step_duration sc = Some (Num.Finite q) ->
  q <= now - step_start_time sc ->
  tick sc now = (do sc1 <- _advance_step sc now; Some (_check_conflicts sc1)).
Proof.
  intros Hp Hd Hq. unfold tick. rewrite Hd. simpl.
  apply Qle_bool_iff in Hq. rewrite Hq. reflexivity.
Qed.

Lemma tick_not_due sc now dur :
  _current_step_duration sc = Some dur ->
  Num.elapsed_ge (now - step_start_time sc) dur = false ->
  tick sc now = Some (_check_conflicts sc).
Proof. intros Hd He. unfold tick. rewrite Hd, He. reflexivity. Qed.

End RunFacts.

Section RunSteps.
Import Config Signal.

Lemma tick_some_phase sc now sc' :
  tick sc now = Some sc' -> exists phase, current_phase sc = Some phase.
Proof.
  unfold tick, _current_step_duration.
  destruct (current_phase sc) as [phase |]; [eauto | discriminate].
Qed.

Lemma request_when_free sc d clock phase :
  is_preempted sc = false -> current_phase sc = Some phase ->
  request_preemption sc d clock =
    Some (match current_step sc with
          | PhaseStep.GREEN | PhaseStep.FLASHING_YELLOW =>
              entered (set_preemption sc true (Some d)) PhaseStep.YELLOW clock phase
          | _ => set_preemption sc true (Some d)
          end).
Proof.
  intros Hf Hp. unfold request_preemption. rewrite Hf.
  assert (Hp' : current_phase
                  (set_step_start_time
                     (set_current_step (set_preemption sc true (Some d))
                        PhaseStep.YELLOW) clock) = Some phase) by exact Hp.
  simpl. destruct (current_step sc);
    rewrite ?(apply_signals_eq _ phase Hp'); reflexivity.
Qed.

(** What [_advance_to_next_phase] does to the cycle counter. *)
Lemma advance_to_next_phase_cycle sc now sc1 :
  _advance_to_next_phase sc now = Some sc1 ->
  cycle_count sc1 =
    (if wraps sc then cycle_count sc + 1 else cycle_count sc)%Z.
Proof.
  unfold _advance_to_next_phase, wraps.
  set (sc0 := set_step_start_time _ _).
  destruct (current_phase sc0) as [phase' |] eqn:Hp.
  - rewrite (apply_signals_eq sc0 phase' Hp). simpl.
    destruct (_ && _); intro H; injection H as <-; reflexivity.
  - unfold _apply_signals_for_current_state. rewrite Hp. discriminate.
Qed.

(** What a due tick out of each sub-step produces. *)
Lemma tick_leaves_yellow sc now phase :
  current_phase sc = Some phase ->
  current_step sc = PhaseStep.YELLOW ->
  is_due sc now = true ->
  tick sc now = Some (entered sc PhaseStep.ALL_RED now phase).
Proof.
  intros Hp Hs Hd. unfold is_due in Hd. unfold tick.
  destruct (_current_step_duration sc) as [dur |]; [| discriminate].
  simpl. rewrite Hd. unfold _advance_step. rewrite Hp, Hs.
  rewrite (enter_step_eq sc _ now phase Hp).
  rewrite all_red_no_conflict; [reflexivity |]. intro d. apply derived_all_red.
Qed.

Lemma tick_enters_hold sc now phase d :
  current_phase sc = Some phase ->
  current_step sc = PhaseStep.ALL_RED ->
  is_preempted sc = true -> preemption_direction sc = Some d ->
  is_due sc now = true ->
  tick sc now = Some (_enter_preemption_phase sc now).
Proof.
  intros Hp Hs Hpre Hdir Hd. unfold is_due in Hd. unfold tick.
  destruct (_current_step_duration sc) as [dur |]; [| discriminate].
  simpl. rewrite Hd. unfold _advance_step. rewrite Hp, Hs, Hpre, Hdir. simpl.
  rewrite (hold_no_conflict _ d); [reflexivity |]. now apply enter_preemption_holds.
Qed.

(** The frame of one tick: the ring, and what moves the position in it. *)
Lemma tick_ring_position sc now sc' :
  tick sc now = Some sc' ->
  phase_ring sc' = phase_ring sc /\
  is_preempted sc' = is_preempted sc /\
  preemption_direction sc' = preemption_direction sc /\
  ((current_phase_idx sc' = current_phase_idx sc /\
    cycle_count sc' = cycle_count sc)
   \/
   (current_step sc = PhaseStep.ALL_RED /\ current_step sc' = PhaseStep.GREEN /\
    (is_preempted sc = false \/ preemption_direction sc = None) /\
    current_phase_idx sc' = next_phase_index (phase_ring sc) (current_phase_idx sc) /\
    cycle_count sc' =
      (if wraps sc then cycle_count sc + 1 else cycle_count sc)%Z)).
Proof.
  intro H. destruct (tick_some_phase _ _ _ H) as [phase Hp].
  assert (Hcc : forall s, cycle_count (_check_conflicts s) = cycle_count s).
  { intro s. unfold _check_conflicts. now destruct (conflict_found _). }
  destruct (tick_inv _ _ _ H) as [-> | (sc1 & Ha & ->)];
    destruct (check_conflicts_frame sc) as (Hr & Hi & Hs & _ & Hpr & Hd & _).
  - rewrite Hr, Hi, Hpr, Hd, Hcc. repeat split; auto.
  - destruct (check_conflicts_frame sc1) as (Hr1 & Hi1 & Hs1 & _ & Hpr1 & Hd1 & _).
    rewrite Hr1, Hi1, Hs1, Hpr1, Hd1, Hcc.
    destruct (current_step sc) eqn:Es.
    + pose proof (advance_step_inv sc now sc1 phase Hp Ha) as Hinv.
      rewrite Es in Hinv. subst sc1. simpl. repeat split; auto.
    + pose proof (advance_step_inv sc now sc1 phase Hp Ha) as Hinv.
      rewrite Es in Hinv. subst sc1. simpl. repeat split; auto.
    + pose proof (advance_step_inv sc now sc1 phase Hp Ha) as Hinv.
      rewrite Es in Hinv. subst sc1. simpl. repeat split; auto.
    + unfold _advance_step in Ha. rewrite Hp, Es in Ha.
      destruct (is_preempted sc) eqn:Ep;
        [destruct (preemption_direction sc) as [d |] eqn:Ed |]; simpl in Ha.
      * injection Ha as <-. simpl. repeat split; auto.
      * pose proof (advance_to_next_phase_cycle _ _ _ Ha) as Hc.
        destruct (advance_to_next_phase_inv _ _ _ Ha)
          as (phase' & _ & Hr2 & Hi2 & Hs2 & _ & Hpr2 & Hd2 & _).
        rewrite Hr2, Hpr2, Hd2, Ep, Ed. repeat split; auto.
        right. repeat split; auto.
      * pose proof (advance_to_next_phase_cycle _ _ _ Ha) as Hc.
        destruct (advance_to_next_phase_inv _ _ _ Ha)
          as (phase' & _ & Hr2 & Hi2 & Hs2 & _ & Hpr2 & Hd2 & _).
        rewrite Hr2, Hpr2, Hd2, Ep. repeat split; auto.
        right. repeat split; auto.
Qed.

Lemma request_ring_position sc d clock sc' :
  request_preemption sc d clock = Some sc' ->
  phase_ring sc' = phase_ring sc /\
  current_phase_idx sc' = current_phase_idx sc /\
  cycle_count sc' = cycle_count sc.
Proof.
  unfold request_preemption. destruct (is_preempted sc).
  - intro H. injection H as <-. auto.
  - simpl. destruct (current_step sc); intro H;
      try (injection H as <-; auto);
      apply apply_signals_inv in H; destruct H as (phase & _ & ->); auto.
Qed.

End RunSteps.

Section DisplayFacts.
Import Config Signal.

Lemma apply_served_lamps phase step h :
  lamps h = rest_lamps \/ lamps h = served_lamps phase step ->
  lamps (apply_served phase step h) = served_lamps phase step.
Proof.
  unfold served_lamps, rest_lamps, lamps, apply_served.
  destruct step, (is_left_turn phase), (use_protected_left phase); simpl;
    intros [H | H]; injection H as Hv Hl Hp; rewrite ?Hv, ?Hl, ?Hp; reflexivity.
Qed.

Lemma derived_heads_lamps phase step hs d :
  lamps (dm_get (derived_heads phase step hs) d) = rest_lamps \/
  lamps (dm_get (derived_heads phase step hs) d) = served_lamps phase step.
Proof.
  assert (Hfold : forall l hs0,
            (forall d, lamps (dm_get hs0 d) = rest_lamps \/
                       lamps (dm_get hs0 d) = served_lamps phase step) ->
            forall d,
              lamps (dm_get
                       (fold_left
                          (fun hs d => dm_set hs d (apply_served phase step (dm_get hs d)))
                          l hs0) d) = rest_lamps \/
              lamps (dm_get
                       (fold_left
                          (fun hs d => dm_set hs d (apply_served phase step (dm_get hs d)))
                          l hs0) d) = served_lamps phase step).
  { intros l hs0 H0.
    apply (served_fold_invariant
             (fun hs => forall d, lamps (dm_get hs d) = rest_lamps \/
                                  lamps (dm_get hs d) = served_lamps phase step));
      [| exact H0].
    intros hs1 d1 H1 d2. rewrite dm_get_set.
    destruct (Direction_eqb d2 d1); [| apply H1].
    right. apply apply_served_lamps, H1. }
  assert (Hrest : forall d, lamps (dm_get (dm_map reset_head hs) d) = rest_lamps \/
                            lamps (dm_get (dm_map reset_head hs) d)
                            = served_lamps phase step).
  { intro d0. left. rewrite dm_get_map. reflexivity. }
  unfold derived_heads. destruct step; try (apply Hfold; exact Hrest).
  apply Hrest.
Qed.

Lemma lamps_display_ok phase step h :
  lamps h = rest_lamps \/ lamps h = served_lamps phase step -> display_ok h = true.
Proof.
  unfold served_lamps, rest_lamps, lamps, apply_served, display_ok.
  destruct step, (is_left_turn phase), (use_protected_left phase); simpl;
    intros [H | H]; injection H as -> -> ->; reflexivity.
Qed.

Lemma derived_heads_display_ok phase step hs d :
  display_ok (dm_get (derived_heads phase step hs) d) = true.
Proof. apply (lamps_display_ok phase step), derived_heads_lamps. Qed.

Lemma check_conflicts_display_ok sc :
  (forall d, display_ok (dm_get (signal_heads sc) d) = true) ->
  forall d, display_ok (dm_get (signal_heads (_check_conflicts sc)) d) = true.
Proof.
  intros H d. unfold _check_conflicts. destruct (conflict_found _); [| apply H].
  unfold _enter_fault_mode. simpl. rewrite dm_get_map. reflexivity.
Qed.

Lemma exec_display_ok sc e sc' :
  (forall d, display_ok (dm_get (signal_heads sc) d) = true) ->
  exec sc e = Some sc' ->
  forall d, display_ok (dm_get (signal_heads sc') d) = true.
Proof.
  intros H He. destruct e as [now | d0 clock | | rs]; simpl in He.
  - destruct (tick_some_phase _ _ _ He) as [phase Hp].
    destruct (tick_inv _ _ _ He) as [-> | (sc1 & Ha & ->)];
      apply check_conflicts_display_ok; [exact H |].
    pose proof (advance_step_inv sc now sc1 phase Hp Ha) as Hinv.
    destruct (current_step sc);
      try (subst sc1; intro d; apply derived_heads_display_ok).
    destruct Hinv as [(d1 & _ & Hd1 & ->) | Hn].
    + intro d. unfold _enter_preemption_phase. rewrite Hd1. simpl.
      rewrite dm_get_set.
      destruct (Direction_eqb d d1); rewrite ?dm_get_map; reflexivity.
    + destruct (advance_to_next_phase_inv _ _ _ Hn)
        as (phase' & _ & _ & _ & _ & _ & _ & _ & ->).
      intro d. apply derived_heads_display_ok.
  - unfold request_preemption in He. destruct (is_preempted sc).
    + injection He as <-. exact H.
    + simpl in He. destruct (current_step sc);
        try (injection He as <-; exact H);
        apply apply_signals_inv in He; destruct He as (phase & _ & ->);
        intro d; apply derived_heads_display_ok.
  - injection He as <-. exact H.
  - injection He as <-. exact H.
Qed.

Lemma new_controller_display_ok ring tm start sc :
  new_controller ring tm start = Some sc ->
  forall d, display_ok (dm_get (signal_heads sc) d) = true.
Proof.
  unfold new_controller. intro H. apply apply_signals_inv in H.
  destruct H as (phase & _ & ->). intro d. apply derived_heads_display_ok.
Qed.

Lemma exec_not_flashing sc e sc' :
  current_step sc <> PhaseStep.FLASHING_YELLOW ->
  exec sc e = Some sc' ->
  current_step sc' <> PhaseStep.FLASHING_YELLOW.
Proof.
  intros H He.
  destruct (exec_one_edge _ _ _ He)
    as [[Hs _] | [(_ & Hs & _) | [(_ & Hs & _) | (_ & Hs)]]];
    rewrite Hs; try exact H; discriminate.
Qed.

End DisplayFacts.

Section RunTheorems.
Import Config Signal.

(** X1.  [tick] never cuts a sub-step short: when a tick changes the
    sub-step it stamps the new one with the tick's time, and the time spent
    in the old one had reached its duration -- the phase's green time for
    GREEN (which a tick leaves only when no preemption holds it), its yellow
    time for YELLOW and its all-red time for ALL_RED. *)
Theorem tick_respects_step_durations (sc : SignalController) (now : Q)
  (sc' : SignalController) (phase : Phase) :
  current_phase sc = Some phase ->
  tick sc now = Some sc' ->
  current_step sc' <> current_step sc ->
  step_start_time sc' = now /\
  match current_step sc with
  | PhaseStep.GREEN =>
      is_preempted sc = false /\ green_time_s phase <= now - step_start_time sc
  | PhaseStep.FLASHING_YELLOW => green_time_s phase <= now - step_start_time sc
  | PhaseStep.YELLOW => yellow_time_s phase <= now - step_start_time sc
  | PhaseStep.ALL_RED => all_red_time_s phase <= now - step_start_time sc
  end.
Proof.
  intros Hp Ht Hne. unfold tick in Ht.
  destruct (_current_step_duration sc) as [dur |] eqn:Ed; [| discriminate].
  simpl in Ht. destruct (Num.elapsed_ge _ _) eqn:Ee.
  - destruct (_advance_step sc now) as [sc1 |] eqn:Ea; [| discriminate].
    injection Ht as <-. split.
    + destruct (check_conflicts_frame sc1) as (_ & _ & _ & -> & _).
      pose proof (advance_step_inv sc now sc1 phase Hp Ea) as Hinv.
      destruct (current_step sc); try (subst sc1; reflexivity).
      destruct Hinv as [(d & _ & _ & ->) | Hn]; [reflexivity |].
      destruct (advance_to_next_phase_inv _ _ _ Hn)
        as (phase' & _ & _ & _ & _ & Hs & _). exact Hs.
    + unfold _current_step_duration in Ed. rewrite Hp in Ed.
      destruct (is_preempted sc), (current_step sc); simpl in Ed;
        injection Ed as <-; simpl in Ee; try discriminate;
        apply Qle_bool_iff in Ee; auto.
  - injection Ht as <-. exfalso. apply Hne. apply check_conflicts_frame.
Qed.

Lemma tick_respects_step_durations_witness :
  step_start_time (observed 1) = 8 /\
  is_preempted standard_controller = false /\
  min_protected_left_green_s default_timing
  <= 8 - step_start_time standard_controller.
Proof.
  refine (tick_respects_step_durations standard_controller 8 (observed 1)
            {| phase_id := 1; phase_type := PhaseType.LEFT_TURN;
               served_directions := [NORTH; SOUTH]; is_left_turn := true;
               green_time_s := min_protected_left_green_s default_timing;
               yellow_time_s := yellow_clearance_s default_timing;
               all_red_time_s := all_red_clearance_s default_timing;
               walk_time_s := 0; ped_clearance_time_s := 0;
               use_protected_left := false |} _ _ _).
  - vm_compute. reflexivity.
  - vm_compute. reflexivity.
  - vm_compute. discriminate.
Defined.

(** X2.  The preemption hold has no time-out of its own: in the GREEN
    sub-step of a preempted controller whose heads do not conflict, ticks
    change nothing, however late they come. *)
Theorem preemption_hold_ignores_ticks (sc : SignalController) (nows : list Q) :
  valid sc ->
  is_preempted sc = true ->
  current_step sc = PhaseStep.GREEN ->
  conflict_found (signal_heads sc) = false ->
  trace sc (map Tick nows) = Some (repeat sc (S (length nows))).
Proof.
  intros Hv Hpre Hs Hc.
  assert (Ht : forall now, tick sc now = Some sc).
  { intro now. destruct (valid_current_phase sc Hv) as [phase Hp].
    rewrite (tick_not_due sc now Num.Infinite).
    - unfold _check_conflicts. now rewrite Hc.
    - unfold _current_step_duration. now rewrite Hp, Hpre, Hs.
    - reflexivity. }
  induction nows as [| now nows IH]; [reflexivity |].
  simpl. rewrite Ht. simpl in IH. rewrite IH. reflexivity.
Qed.

Lemma preemption_hold_ignores_ticks_witness :
  trace (observed 6) (map Tick [22; 60; 86400])
  = Some (repeat (observed 6) 4).
Proof.
  apply (preemption_hold_ignores_ticks (observed 6) [22; 60; 86400]).
  - unfold valid. vm_compute. lia.
  - vm_compute. reflexivity.
  - vm_compute. reflexivity.
  - vm_compute. reflexivity.
Defined.

(** X3.  A preemption request accepted in any sub-step reaches the hold
    through the clearance: from GREEN (or FLASHING_YELLOW) it forces YELLOW,
    the first due tick gives ALL_RED with every head at rest, and the next
    due tick enters the hold with the vehicle signal of the requested
    direction the only lamp not at rest; accepted during YELLOW or ALL_RED
    it lets the running clearance finish.  The position in the ring and the
    cycle counter are those of the interrupted state. *)
Theorem preemption_reaches_hold (sc : SignalController) (d : Direction)
  (clock : Q) :
  valid sc ->
  is_preempted sc = false ->
  exists s1,
    request_preemption sc d clock = Some s1 /\
    current_step s1 =
      match current_step sc with
      | PhaseStep.ALL_RED => PhaseStep.ALL_RED
      | _ => PhaseStep.YELLOW
      end /\
    forall t1, is_due s1 t1 = true ->
      exists s2,
        tick s1 t1 = Some s2 /\
        current_phase_idx s2 = current_phase_idx sc /\
        cycle_count s2 = cycle_count sc /\
        match current_step sc with
        | PhaseStep.ALL_RED => holds_for s2 d
        | _ =>
            current_step s2 = PhaseStep.ALL_RED /\ all_heads_red s2 /\
            forall t2, is_due s2 t2 = true ->
              exists s3,
                tick s2 t2 = Some s3 /\ holds_for s3 d /\
                current_phase_idx s3 = current_phase_idx sc /\
                cycle_count s3 = cycle_count sc
        end.
Proof.
  intros Hv Hfree. destruct (valid_current_phase sc Hv) as [phase Hp].
  rewrite (request_when_free sc d clock phase Hfree Hp).
  eexists. split; [reflexivity |].
  assert (Hclear : forall s1,
            current_phase s1 = Some phase ->
            current_step s1 = PhaseStep.YELLOW ->
            is_preempted s1 = true -> preemption_direction s1 = Some d ->
            current_phase_idx s1 = current_phase_idx sc ->
            cycle_count s1 = cycle_count sc ->
            forall t1, is_due s1 t1 = true ->
              exists s2,
                tick s1 t1 = Some s2 /\
                current_phase_idx s2 = current_phase_idx sc /\
                cycle_count s2 = cycle_count sc /\
                current_step s2 = PhaseStep.ALL_RED /\ all_heads_red s2 /\
                forall t2, is_due s2 t2 = true ->
                  exists s3,
                    tick s2 t2 = Some s3 /\ holds_for s3 d /\
                    current_phase_idx s3 = current_phase_idx sc /\
                    cycle_count s3 = cycle_count sc).
  { intros s1 Hp1 Hs1 Hpre1 Hd1 Hi1 Hc1 t1 Hdue1.
    exists (entered s1 PhaseStep.ALL_RED t1 phase).
    split; [now apply tick_leaves_yellow |].
    split; [exact Hi1 |]. split; [exact Hc1 |]. split; [reflexivity |].
    split; [intro d'; apply derived_all_red |].
    intros t2 Hdue2.
    exists (_enter_preemption_phase (entered s1 PhaseStep.ALL_RED t1 phase) t2).
    split; [apply (tick_enters_hold _ t2 phase d); auto |].
    split; [apply enter_preemption_holds; auto |].
    split; [exact Hi1 | exact Hc1]. }
  destruct (current_step sc) eqn:Es.
  - split; [reflexivity |]. apply Hclear; auto.
  - split; [reflexivity |]. apply Hclear; auto.
  - split; [exact Es |]. apply Hclear; auto.
  - split; [exact Es |]. intros t1 Hdue1.
    exists (_enter_preemption_phase (set_preemption sc true (Some d)) t1).
    split; [apply (tick_enters_hold _ t1 phase d); auto |].
    split; [reflexivity |]. split; [reflexivity |].
    apply enter_preemption_holds; auto.
Qed.

Lemma preemption_reaches_hold_witness :
  exists s1,
    request_preemption (observed 3) EAST 15 = Some s1 /\
    current_step s1 = PhaseStep.YELLOW /\
    forall t1, is_due s1 t1 = true ->
      exists s2,
        tick s1 t1 = Some s2 /\
        current_phase_idx s2 = current_phase_idx (observed 3) /\
        cycle_count s2 = cycle_count (observed 3) /\
        current_step s2 = PhaseStep.ALL_RED /\ all_heads_red s2 /\
        forall t2, is_due s2 t2 = true ->
          exists s3,
            tick s2 t2 = Some s3 /\ holds_for s3 EAST /\
            current_phase_idx s3 = current_phase_idx (observed 3) /\
            cycle_count s3 = cycle_count (observed 3).
Proof.
  apply (preemption_reaches_hold (observed 3) EAST 15).
  - unfold valid. vm_compute. lia.
  - vm_compute. reflexivity.
Defined.

(** X4.  What moves the position in the ring.  An input leaves the phase
    index and the cycle counter alone, unless it is a tick that leaves
    ALL_RED for the GREEN of the next phase, with no preemption to serve:
    then the index becomes [(index + 1) mod len(phases)] and the counter
    grows by one exactly when the index wraps from a non-zero value to 0.
    Preemption requests, clears and retimings never move the ring. *)
Theorem ring_position_accounting (sc : SignalController) (e : Event)
  (sc' : SignalController) :
  exec sc e = Some sc' ->
  (current_phase_idx sc' = current_phase_idx sc /\
   cycle_count sc' = cycle_count sc)
  \/
  ((exists now, e = Tick now) /\
   current_step sc = PhaseStep.ALL_RED /\ current_step sc' = PhaseStep.GREEN /\
   (is_preempted sc = false \/ preemption_direction sc = None) /\
   current_phase_idx sc' = next_phase_index (phase_ring sc) (current_phase_idx sc) /\
   cycle_count sc' = (if wraps sc then cycle_count sc + 1 else cycle_count sc)%Z).
Proof.
  destruct e as [now | d clock | | rs]; simpl; intro H.
  - destruct (tick_ring_position _ _ _ H) as (_ & _ & _ & [Hsame | Hmove]).
    + now left.
    + right. split; [now exists now | exact Hmove].
  - left. destruct (request_ring_position _ _ _ _ H) as (_ & Hi & Hc). auto.
  - left. injection H as <-. auto.
  - left. injection H as <-. auto.
Qed.

Lemma ring_position_accounting_witness :
  (current_phase_idx (observed 3) = current_phase_idx (observed 2) /\
   cycle_count (observed 3) = cycle_count (observed 2))
  \/
  ((exists now, Tick 14.5 = Tick now) /\
   current_step (observed 2) = PhaseStep.ALL_RED /\
   current_step (observed 3) = PhaseStep.GREEN /\
   (is_preempted (observed 2) = false \/ preemption_direction (observed 2) = None) /\
   current_phase_idx (observed 3)
   = next_phase_index (phase_ring (observed 2)) (current_phase_idx (observed 2)) /\
   cycle_count (observed 3)
   = (if wraps (observed 2) then cycle_count (observed 2) + 1
      else cycle_count (observed 2))%Z).
Proof.
  apply (ring_position_accounting (observed 2) (Tick 14.5) (observed 3)).
  vm_compute. reflexivity.
Defined.

(** X5.  A ring of a single phase never completes a cycle: the index wraps
    from 0 to 0, which [_advance_to_next_phase] does not count, so the cycle
    counter keeps its value through every run (and the cycle-complete
    observer is never called). *)
Theorem single_phase_ring_never_completes_a_cycle (sc0 : SignalController)
  (evs : list Event) (tr : list SignalController) :
  length (phases (phase_ring sc0)) = 1%nat ->
  trace sc0 evs = Some tr ->
  Forall (fun sc => cycle_count sc = cycle_count sc0) tr.
Proof.
  intros Hlen Htr.
  assert (H : Forall (fun sc => length (phases (phase_ring sc)) = 1%nat /\
                                cycle_count sc = cycle_count sc0) tr).
  { apply (trace_Forall _) with (evs := evs) (sc := sc0); auto.
    intros sc e sc' [Hl Hc] He.
    destruct e as [now | d clock | | rs]; simpl in He.
    - destruct (tick_some_phase _ _ _ He) as [phase Hp].
      apply current_phase_valid in Hp. unfold valid in Hp.
      destruct (tick_ring_position _ _ _ He) as (Hr & _ & _ & Hpos).
      rewrite Hr. split; [exact Hl |].
      destruct Hpos as [[_ ->] | (_ & _ & _ & _ & ->)]; [exact Hc |].
      unfold wraps. replace (current_phase_idx sc) with 0%nat by lia.
      rewrite andb_false_r. exact Hc.
    - destruct (request_ring_position _ _ _ _ He) as (-> & _ & ->). auto.
    - injection He as <-. auto.
    - injection He as <-. simpl. rewrite retime_phases_length. auto. }
  eapply Forall_impl; [| exact H]. intros sc [_ Hc]. exact Hc.
Qed.

Lemma single_phase_ring_never_completes_a_cycle_witness :
  Forall (fun sc => cycle_count sc = cycle_count single_phase_controller)
    single_phase_trace.
Proof.
  apply (single_phase_ring_never_completes_a_cycle single_phase_controller
           single_phase_run single_phase_trace).
  - vm_compute. reflexivity.
  - vm_compute. reflexivity.
Defined.

(** X6.  The displays of a head.  In every state of every run from a new
    controller each head shows one of eight combinations of its three
    lamps: at rest (red, red, don't walk); a left-turn arrow in green,
    flashing yellow or yellow beside a red vehicle signal and DONT_WALK;
    vehicle GREEN with the flashing-yellow left turn and WALK; vehicle YELLOW
    with a red left turn and PED_CLEARANCE; the preemption green (GREEN,
    red, don't walk); or the fault display.  So WALK is shown only beside a
    vehicle GREEN, and an arrow only beside a vehicle RED. *)
Theorem heads_show_known_displays (ring : PhaseRing) (tm : TimingConstraints)
  (start : Q) (sc0 : SignalController) (evs : list Event)
  (tr : list SignalController) :
  new_controller ring tm start = Some sc0 ->
  trace sc0 evs = Some tr ->
  Forall (fun sc => forall d, display_ok (dm_get (signal_heads sc) d) = true) tr.
Proof.
  intros Hnew Htr.
  apply (trace_Forall _ exec_display_ok evs sc0 tr); [| exact Htr].
  now apply (new_controller_display_ok ring tm start).
Qed.

Lemma heads_show_known_displays_witness :
  Forall (fun sc => forall d, display_ok (dm_get (signal_heads sc) d) = true)
    preemption_trace.
Proof.
  apply (heads_show_known_displays standard_ring default_timing 0
           standard_controller preemption_run preemption_trace).
  - vm_compute. reflexivity.
  - vm_compute. reflexivity.
Defined.

(** X7.  The FLASHING_YELLOW sub-step is never entered: no input takes the
    machine into it, so a run that does not start in it never visits it.
    (The flashing-yellow left-turn lamp is shown inside the GREEN sub-step.) *)
Theorem flashing_yellow_step_never_entered (sc0 : SignalController)
  (evs : list Event) (tr : list SignalController) :
  current_step sc0 <> PhaseStep.FLASHING_YELLOW ->
  trace sc0 evs = Some tr ->
  Forall (fun sc => current_step sc <> PhaseStep.FLASHING_YELLOW) tr.
Proof.
  intros H0 Htr. exact (trace_Forall _ exec_not_flashing evs sc0 tr H0 Htr).
Qed.

Lemma flashing_yellow_step_never_entered_witness :
  Forall (fun sc => current_step sc <> PhaseStep.FLASHING_YELLOW) preemption_trace.
Proof.
  apply (flashing_yellow_step_never_entered standard_controller preemption_run
           preemption_trace).
  - vm_compute. discriminate.
  - vm_compute. reflexivity.
Defined.

End RunTheorems.

(* ------------------------------------------------------------------ *)
(** ** The timing enforcer: bounds, errors and the cycle pass *)

Section EnforcerBounds.
Import Config Signal Constraints.

Lemma enforce_none_iff c p :
  enforce c p = None <->
  is_left_turn p = false /\ ped_clearance_speed_ft_per_s c == 0.
Proof.
  destruct (is_left_turn p) eqn:Hl.
  - rewrite (enforce_left c p Hl). split; [discriminate | intros [H _]; discriminate].
  - unfold enforce. simpl. rewrite Hl. simpl.
    unfold ped_clearance_s, Num.py_div.
    destruct (Qeq_bool (ped_clearance_speed_ft_per_s c) 0) eqn:E.
    + apply Qeq_bool_iff in E. split; auto.
    + apply Qeq_bool_neq in E. simpl.
      destruct (Num.Qltb _ _); (split; [discriminate | intros [_ H]; contradiction]).
Qed.

Lemma enforce_all_none_iff c ps :
  enforce_all c ps = None <->
  ped_clearance_speed_ft_per_s c == 0 /\
  exists p, In p ps /\ is_left_turn p = false.
Proof.
  induction ps as [| p ps IH]; simpl.
  - split; [discriminate | intros (_ & p & [] & _)].
  - destruct (enforce c p) as [q |] eqn:E.
    + assert (Hq : ~ (is_left_turn p = false /\ ped_clearance_speed_ft_per_s c == 0)).
      { intro H. apply enforce_none_iff in H. congruence. }
      destruct (enforce_all c ps) as [qs |] eqn:Es.
      * split; [discriminate |]. intros (Hz & p0 & [<- | Hin] & Hl).
        -- exfalso. apply Hq. auto.
        -- assert (Hn : Some qs = None) by (apply IH; eauto).
           discriminate.
      * split; [| reflexivity]. intros _.
        destruct IH as [IH _]. destruct (IH eq_refl) as (Hz & p0 & Hin & Hl).
        eauto.
    + apply enforce_none_iff in E. destruct E as [Hl Hz].
      split; [| reflexivity]. intros _. split; [exact Hz |]. exists p. auto.
Qed.

Lemma enforce_protected c p q :
  enforce c p = Some q -> use_protected_left q = use_protected_left p.
Proof.
  intro H. destruct (is_left_turn p) eqn:Hl.
  - rewrite (enforce_left c p Hl) in H. now injection H as <-.
  - destruct (enforce_through_inv c p q Hl H) as [ped Hp].
    rewrite (enforce_through c p ped Hl Hp) in H. now injection H as <-.
Qed.

Lemma enforce_meets c p q : enforce c p = Some q -> meets_constraints c q.
Proof.
  intro H. unfold meets_constraints. destruct (is_left_turn p) eqn:Hl.
  - rewrite (enforce_left c p Hl) in H. injection H as <-. simpl. rewrite Hl.
    repeat split; auto; try discriminate. apply (clamp_green_floor c true).
  - destruct (enforce_through_inv c p q Hl H) as [ped Hp].
    rewrite (enforce_through c p ped Hl Hp) in H. injection H as <-. simpl.
    pose proof (clamp_green_floor c false (green_time_s p)) as Hfloor.
    simpl in Hfloor.
    repeat split; auto.
    + destruct (Num.Qltb _ _) eqn:E; [apply Qltb_lt in E; lra | exact Hfloor].
    + apply py_max_lub.
    + destruct (Num.Qltb _ _) eqn:E; [lra | apply Qltb_ge in E; exact E].
Qed.

(** Every phase [enforce_cycle] returns is an output of [enforce]. *)
Lemma enforce_cycle_image c ps pf :
  enforce_cycle c ps = Some pf ->
  Forall2
    (fun p f => exists q, same_layout p q /\
                          use_protected_left q = use_protected_left p /\
                          enforce c q = Some f)
    ps pf.
Proof.
  unfold enforce_cycle.
  destruct (enforce_all c ps) as [qs |] eqn:E; [| discriminate].
  apply enforce_all_Forall2 in E.
  assert (Hqs : Forall2
                  (fun p f => exists q, same_layout p q /\
                                        use_protected_left q = use_protected_left p /\
                                        enforce c q = Some f) ps qs).
  { eapply Forall2_impl; [| exact E]. intros p q Hpq. exists p.
    repeat split; auto. }
  assert (Hres : forall bound total,
            rescale c bound qs total = Some pf ->
            Forall2
              (fun p f => exists q, same_layout p q /\
                                    use_protected_left q = use_protected_left p /\
                                    enforce c q = Some f) ps pf).
  { intros bound total. unfold rescale. destruct (Qle_bool _ 0).
    - intro H. injection H as <-. exact Hqs.
    - intro H. apply enforce_all_Forall2 in H. apply Forall2_map_l in H.
      pose proof (Forall2_compose _ _ _ _ _ E H) as Hc.
      eapply Forall2_impl; [| exact Hc].
      intros p f (q & Hpq & Hqf). eexists. split; [| split; [| exact Hqf]].
      + apply enforce_same_layout in Hpq. exact Hpq.
      + apply enforce_protected in Hpq. exact Hpq. }
  destruct (Num.Qltb _ (min_cycle_s c)); [apply Hres |].
  destruct (Num.Qltb (max_cycle_s c) _); [apply Hres |].
  intro H. injection H as <-. exact Hqs.
Qed.

(** X8.  The bounds [enforce] puts on a phase.  The clearances are the
    configured ones and the green is never below the minimum of the phase's
    kind.  A left-turn phase keeps its walk and pedestrian-clearance times
    and, when the configured minimum does not exceed the maximum, its green
    stays within the maximum.  A through phase gets a walk time of at least
    [min_walk_s] that is not shortened, and its green exceeds [max_green_s]
    only by being exactly the walk plus the pedestrian clearance. *)
Theorem enforce_output_bounds (c : TimingConstraints) (p p' : Phase) :
  enforce c p = Some p' ->
  yellow_time_s p' = yellow_clearance_s c /\
  all_red_time_s p' = all_red_clearance_s c /\
  (if is_left_turn p then min_protected_left_green_s c else min_green_s c)
  <= green_time_s p' /\
  if is_left_turn p
  then
    walk_time_s p' = walk_time_s p /\
    ped_clearance_time_s p' = ped_clearance_time_s p /\
    (min_protected_left_green_s c <= max_protected_left_green_s c ->
     green_time_s p' <= max_protected_left_green_s c)
  else
    min_walk_s c <= walk_time_s p' /\ walk_time_s p <= walk_time_s p' /\
    (min_green_s c <= max_green_s c ->
     green_time_s p' <= max_green_s c \/
     green_time_s p' = walk_time_s p' + ped_clearance_time_s p').
Proof.
  intro H. destruct (is_left_turn p) eqn:Hl.
  - rewrite (enforce_left c p Hl) in H. injection H as <-. simpl.
    repeat split; auto.
    + apply (clamp_green_floor c true).
    + unfold clamp_green. intro Hmm. py_cases; lra.
  - destruct (enforce_through_inv c p p' Hl H) as [ped Hp].
    rewrite (enforce_through c p ped Hl Hp) in H. injection H as <-. simpl.
    pose proof (clamp_green_floor c false (green_time_s p)) as Hfloor.
    simpl in Hfloor.
    repeat split; auto; try apply py_max_lub.
    + destruct (Num.Qltb _ _) eqn:E; [apply Qltb_lt in E; lra | exact Hfloor].
    + intro Hmm. destruct (Num.Qltb _ _); [now right | left].
      unfold clamp_green. py_cases; lra.
Qed.

Lemma enforce_output_bounds_witness :
  exists p',
    enforce default_timing
      {| phase_id := 1; phase_type := PhaseType.LEFT_TURN;
         served_directions := [NORTH; SOUTH]; is_left_turn := true;
         green_time_s := 40; yellow_time_s := 3; all_red_time_s := 1;
         walk_time_s := 0; ped_clearance_time_s := 0;
         use_protected_left := true |} = Some p' /\
    yellow_time_s p' = 4 /\ all_red_time_s p' = 2.5 /\
    8 <= green_time_s p' /\ walk_time_s p' = 0 /\
    ped_clearance_time_s p' = 0 /\
    (min_protected_left_green_s default_timing
     <= max_protected_left_green_s default_timing ->
     green_time_s p' <= 25).
Proof.
  eexists. split; [reflexivity |].
  apply (enforce_output_bounds default_timing
           {| phase_id := 1; phase_type := PhaseType.LEFT_TURN;
              served_directions := [NORTH; SOUTH]; is_left_turn := true;
              green_time_s := 40; yellow_time_s := 3; all_red_time_s := 1;
              walk_time_s := 0; ped_clearance_time_s := 0;
              use_protected_left := true |}).
  reflexivity.
Defined.

Lemma enforce_cycle_none_iff (c : TimingConstraints) (ps : list Phase) :
  enforce_cycle c ps = None <->
  ped_clearance_speed_ft_per_s c == 0 /\
  exists p, In p ps /\ is_left_turn p = false.
Proof.
  split.
  - unfold enforce_cycle.
    destruct (enforce_all c ps) as [qs |] eqn:E.
    + intro H. exfalso.
      assert (Hno : ~ (ped_clearance_speed_ft_per_s c == 0 /\
                       exists p, In p ps /\ is_left_turn p = false)).
      { intro Hc. apply enforce_all_none_iff in Hc. congruence. }
      apply enforce_all_Forall2 in E.
      assert (Hres : forall bound total, rescale c bound qs total <> None).
      { intros bound total. unfold rescale.
        destruct (Qle_bool _ 0); [discriminate |].
        intro Hn. apply enforce_all_none_iff in Hn.
        destruct Hn as (Hz & p & Hin & Hl). apply Hno. split; [exact Hz |].
        apply in_map_iff in Hin. destruct Hin as (q & <- & Hq).
        simpl in Hl. clear - E Hq Hl.
        induction E as [| p0 q0 ps0 qs0 Hpq _ IH]; [destruct Hq |].
        destruct Hq as [<- | Hq].
        - exists p0. split; [now left |].
          apply enforce_same_layout in Hpq.
          destruct Hpq as (_ & _ & _ & ->). exact Hl.
        - destruct (IH Hq) as (p1 & Hin1 & Hl1). exists p1. split; [now right | exact Hl1]. }
      destruct (Num.Qltb _ (min_cycle_s c)); [now apply Hres in H |].
      destruct (Num.Qltb (max_cycle_s c) _); [now apply Hres in H |].
      discriminate.
    + intros _. now apply enforce_all_none_iff.
  - intro H. apply enforce_all_none_iff in H. unfold enforce_cycle. now rewrite H.
Qed.

(** X9.  When the enforcer raises.  [enforce_cycle] fails (with
    ZeroDivisionError, from the [ped_clearance_s] property) exactly when the
    configured walking speed is zero and the list holds a phase that is not
    a left turn; in every other case it returns, also through the rescaling
    passes. *)
Theorem enforce_cycle_raises_iff (c : TimingConstraints) (ps : list Phase) :
  enforce_cycle c ps = None <->
  ped_clearance_speed_ft_per_s c == 0 /\
  exists p, In p ps /\ is_left_turn p = false.
Proof. exact (enforce_cycle_none_iff c ps). Qed.

(** X10.  The cycle pass keeps the per-phase guarantees.  Whatever
    [enforce_cycle] returns -- also after stretching or shrinking the greens
    to the cycle bounds -- has one phase per input phase, of the same
    identity, kind, served directions and left-turn mode, and each satisfies
    the constraints of [enforce]: fixed clearances, minimum green, minimum
    walk and the green containing walk plus pedestrian clearance. *)
Theorem enforce_cycle_keeps_phase_constraints (c : TimingConstraints)
  (ps pf : list Phase) :
  enforce_cycle c ps = Some pf ->
  Forall2
    (fun p f =>
       same_layout p f /\ use_protected_left f = use_protected_left p /\
       meets_constraints c f)
    ps pf.
Proof.
  intro H. apply enforce_cycle_image in H.
  eapply Forall2_impl; [| exact H].
  intros p f (q & Hpq & Hprot & Hqf). split; [| split].
  - apply (same_layout_trans p q f Hpq). now apply (enforce_same_layout c).
  - rewrite <- Hprot. now apply (enforce_protected c).
  - now apply (enforce_meets c q).
Qed.

Lemma enforce_cycle_keeps_phase_constraints_witness :
  match enforce_cycle default_timing requested_ring with
  | Some pf =>
      Forall2
        (fun p f =>
           same_layout p f /\ use_protected_left f = use_protected_left p /\
           meets_constraints default_timing f)
        requested_ring pf
  | None => False
  end.
Proof.
  destruct (enforce_cycle default_timing requested_ring) as [pf |] eqn:E.
  - apply (enforce_cycle_keeps_phase_constraints default_timing requested_ring pf).
    exact E.
  - vm_compute in E. discriminate.
Defined.

End EnforcerBounds.

(* ------------------------------------------------------------------ *)
(** ** The adaptive engine: the plan as a whole *)

Section PlanSums.
Import Config Signal Adaptive.

Lemma py_sum_scale (t a : Q) (l : list Q) :
  ~ t == 0 ->
  Num.py_sum (map (fun x => x / t * a) l) == Num.py_sum l / t * a.
Proof.
  intro Ht. induction l as [| x l IH]; simpl map.
  - rewrite py_sum_nil. field. exact Ht.
  - rewrite !py_sum_cons, IH. field. exact Ht.
Qed.

Lemma py_sum_pos (l : list Q) :
  Forall (fun x => 0 < x) l -> l <> [] -> 0 < Num.py_sum l.
Proof.
  intros H Hne. destruct H as [| x l Hx Hl]; [congruence |].
  rewrite py_sum_cons. clear Hne.
  assert (0 <= Num.py_sum l); [| lra].
  induction Hl as [| y l Hy _ IH]; [rewrite py_sum_nil; lra |].
  rewrite py_sum_cons. lra.
Qed.

Lemma weight_value_pos tm p d :
  0 < min_green_s tm -> 0 < min_protected_left_green_s tm ->
  0 < weight_value tm p d.
Proof.
  intros Hg Hl. unfold weight_value.
  destruct (_ && _); [lra |].
  destruct (_ =? _)%Z; [exact Hg |].
  pose proof (py_max_lub (min_green_s tm) (ideal_green_s d)). lra.
Qed.

Lemma weight_items_pos tm ps ds :
  0 < min_green_s tm -> 0 < min_protected_left_green_s tm ->
  Forall (fun x => 0 < x) (map snd (weight_items tm ps ds)).
Proof.
  intros Hg Hl. unfold weight_items. rewrite map_map. simpl.
  apply Forall_forall. intros x Hx. apply in_map_iff in Hx.
  destruct Hx as ([p d] & <- & _). now apply weight_value_pos.
Qed.

Lemma weight_items_length tm i ps ds :
  Forall2 (demand_of i tm) ps ds -> length (weight_items tm ps ds) = length ps.
Proof.
  intro H. rewrite <- (length_map fst), (weight_items_keys tm i ps ds H).
  apply length_map.
Qed.

(** The greens of the plan in closed form, with the divisor and the
    available green named. *)
Lemma plan_greens_closed e ring plan e' :
  compute_cycle_plan e ring = Some (plan, e') ->
  NoDup (map Signal.phase_id (phases ring)) ->
  exists ds,
    Forall2 (demand_of (intersection e) (timing e)) (phases ring) ds /\
    phase_demands plan = ds /\
    let items := weight_items (timing e) (phases ring) ds in
    let tw0 := Num.py_sum (map snd items) in
    let tw := if Qle_bool tw0 0 then 1 else tw0 in
    let av := Num.py_max 0 (cycle_length_s plan - ring_fixed_time ring) in
    phase_greens plan = map (fun kw => (fst kw, snd kw / tw * av)) items.
Proof.
  intros H Hnd. unfold compute_cycle_plan, _compute_demands in H.
  destruct (demands_loop e (phases ring)) as [[ds e1] |] eqn:E; [| discriminate].
  apply demands_loop_inv in E. destruct E as (Hds & Hi & Ht).
  exists ds. split; [exact Hds |].
  rewrite <- Ht in Hds.
  unfold _allocate_green_splits in H.
  rewrite (weights_loop_eq e1 ring (intersection e) (phases ring) ds [] Hnd Hds)
    in H by (try apply incl_refl; exact Hnd).
  simpl app in H. injection H as <- <-. simpl. split; [reflexivity |].
  rewrite <- Ht.
  apply (dict_fill
           (fun kw => snd kw
                      / (if Qle_bool
                              (Num.py_sum
                                 (map snd (weight_items (timing e1) (phases ring) ds))) 0
                         then 1
                         else Num.py_sum
                                (map snd (weight_items (timing e1) (phases ring) ds)))
                      * Num.py_max 0 (_compute_cycle_length e1 ds - ring_fixed_time ring))
           (weight_items (timing e1) (phases ring) ds) []).
  simpl. now rewrite (weight_items_keys _ (intersection e)).
Qed.

(** X11.  The plan shares out exactly the available green.  With distinct
    phase ids, a ring that is not empty and positive minimum greens, the
    greens of the plan -- one per phase, in ring order, none negative -- sum
    to the cycle length less the ring's yellow and all-red times (or to 0
    when that is negative). *)
Theorem plan_greens_sum_to_available_green (e e' : AdaptiveTimingEngine)
  (ring : PhaseRing) (plan : CyclePlan) :
  compute_cycle_plan e ring = Some (plan, e') ->
  NoDup (map Signal.phase_id (phases ring)) ->
  phases ring <> [] ->
  0 < min_green_s (timing e) ->
  0 < min_protected_left_green_s (timing e) ->
  map fst (phase_greens plan) = map Signal.phase_id (phases ring) /\
  Forall (fun kv => 0 <= snd kv) (phase_greens plan) /\
  Num.py_sum (map snd (phase_greens plan))
  == Num.py_max 0 (cycle_length_s plan - ring_fixed_time ring).
Proof.
  intros H Hnd Hne Hg Hl.
  destruct (plan_greens_closed e ring plan e' H Hnd) as (ds & Hds & _ & Hgreens).
  cbv zeta in Hgreens.
  set (items := weight_items (timing e) (phases ring) ds) in *.
  set (tw0 := Num.py_sum (map snd items)) in *.
  set (av := Num.py_max 0 _) in *.
  assert (Hpos : Forall (fun x => 0 < x) (map snd items))
    by now apply weight_items_pos.
  assert (Htw0 : 0 < tw0).
  { apply py_sum_pos; [exact Hpos |].
    intro Hnil. apply map_eq_nil in Hnil.
    apply (f_equal (@length _)) in Hnil. unfold items in Hnil.
    rewrite (weight_items_length _ _ _ _ Hds) in Hnil.
    destruct (phases ring); [congruence | discriminate]. }
  assert (Etw : Qle_bool tw0 0 = false) by now apply Qle_bool_gt.
  rewrite Etw in Hgreens.
  assert (Hav : 0 <= av) by (unfold av; apply py_max_lub).
  rewrite Hgreens. split; [| split].
  - rewrite map_map. simpl.
    change (map (fun x : Z * Q => fst x) items) with (map fst items).
    unfold items. apply (weight_items_keys _ _ _ _ Hds).
  - apply Forall_forall. intros kv Hkv. apply in_map_iff in Hkv.
    destruct Hkv as (kw & <- & Hin). simpl.
    assert (0 < snd kw).
    { rewrite Forall_forall in Hpos. apply Hpos. now apply in_map. }
    apply Qmult_le_0_compat; [| exact Hav].
    apply Qle_shift_div_l; [exact Htw0 | lra].
  - rewrite map_map. simpl.
    rewrite <- (map_map snd (fun w => w / tw0 * av)).
    rewrite py_sum_scale by lra. fold tw0. field. lra.
Qed.

Lemma plan_greens_sum_to_available_green_witness :
  match compute_cycle_plan (engine_with 15 12 2 1) standard_ring with
  | Some (plan, _) =>
      map fst (phase_greens plan) = [1; 2; 3; 4]%Z /\
      Forall (fun kv => 0 <= snd kv) (phase_greens plan) /\
      Num.py_sum (map snd (phase_greens plan))
      == Num.py_max 0 (cycle_length_s plan - ring_fixed_time standard_ring)
  | None => False
  end.
Proof.
  destruct (compute_cycle_plan (engine_with 15 12 2 1) standard_ring)
    as [[plan e'] |] eqn:E.
  - apply (plan_greens_sum_to_available_green (engine_with 15 12 2 1) e'
             standard_ring plan E).
    + vm_compute. repeat constructor; simpl; intuition discriminate.
    + vm_compute. discriminate.
    + reflexivity.
    + reflexivity.
  - vm_compute in E. discriminate.
Defined.

End PlanSums.

Section PlanDemands.
Import Config Signal Adaptive.

Lemma dict_get_set_same (d : Dict) k v : dict_get (dict_set d k v) k = Some v.
Proof.
  induction d as [| [k' v'] d IH]; simpl.
  - now rewrite Z.eqb_refl.
  - destruct (Z.eqb_spec k k') as [-> | Hne]; simpl.
    + now rewrite Z.eqb_refl.
    + destruct (Z.eqb_spec k k'); [contradiction | exact IH].
Qed.

Lemma dict_get_set_other (d : Dict) k k' v :
  k' <> k -> dict_get (dict_set d k v) k' = dict_get d k'.
Proof.
  intro Hne. induction d as [| [k0 v0] d IH]; simpl.
  - destruct (Z.eqb_spec k' k); [contradiction | reflexivity].
  - destruct (Z.eqb_spec k k0) as [-> | Hk]; simpl.
    + destruct (Z.eqb_spec k' k0); [contradiction | reflexivity].
    + destruct (Z.eqb_spec k' k0); [reflexivity | exact IH].
Qed.

(** [phase_demand] in closed form: the smoothed DS and the store. *)
Lemma phase_demand_smoothing e p d e' :
  phase_demand e p = Some (d, e') ->
  degree_of_saturation d =
    smoothing_alpha e * raw_ds (intersection e) p
    + (1 - smoothing_alpha e)
      * match dict_get (_prev_ds e) (Signal.phase_id p) with
        | Some v => v
        | None => raw_ds (intersection e) p
        end /\
  _prev_ds e' =
    dict_set (_prev_ds e) (Signal.phase_id p) (degree_of_saturation d) /\
  smoothing_alpha e' = smoothing_alpha e.
Proof.
  unfold phase_demand, raw_ds.
  destruct (served_loop e p (served_directions p) (0%Z, 0, 0%Z))
    as [[[t mi] lt] |] eqn:E; [| discriminate].
  apply served_loop_inv in E. injection E as -> -> ->.
  destruct (hd_error (served_directions p)) as [first |]; [| discriminate].
  intro H. injection H as <- <-. simpl. repeat split.
Qed.

Lemma served_loop_none_iff e phase : forall dirs acc,
  served_loop e phase dirs acc = None <->
  exists d, In d dirs /\
    Intersection.green_time_to_clear
      (relevant_lane phase (Intersection.approach (intersection e) d))
      (startup_lost_time_s (timing e)) = None.
Proof.
  induction dirs as [| d dirs IH]; intros [[t mi] lt]; simpl.
  - split; [discriminate | intros (d & [] & _)].
  - destruct (Intersection.green_time_to_clear _ _) as [ideal |] eqn:E.
    + rewrite IH. split.
      * intros (d' & Hin & Hn). eauto.
      * intros (d' & [<- | Hin] & Hn); [congruence | eauto].
    + split; [| reflexivity]. intros _. exists d. auto.
Qed.

Lemma green_time_to_clear_none_iff l lost :
  Intersection.green_time_to_clear l lost = None <->
  (0 < Intersection.queue_count l)%Z /\ Intersection.saturation_flow l == 0.
Proof.
  unfold Intersection.green_time_to_clear, Num.py_div,
    Intersection.saturation_flow_per_sec.
  destruct (Z.leb_spec (Intersection.queue_count l) 0) as [Hle | Hgt].
  - split; [discriminate | intros [H _]; lia].
  - destruct (Qeq_bool (Intersection.saturation_flow l / 3600) 0) eqn:E.
    + apply Qeq_bool_iff in E. split; [| reflexivity]. intros _.
      split; [exact Hgt |].
      setoid_replace (Intersection.saturation_flow l)
        with (Intersection.saturation_flow l / 3600 * 3600) by field.
      rewrite E. reflexivity.
    + apply Qeq_bool_neq in E. split; [discriminate |].
      intros [_ Hz]. exfalso. apply E. rewrite Hz. reflexivity.
Qed.

Lemma phase_demand_none_iff e p :
  phase_demand e p = None <-> unservable (intersection e) p.
Proof.
  unfold phase_demand, unservable.
  destruct (served_loop e p (served_directions p) (0%Z, 0, 0%Z))
    as [[[t mi] lt] |] eqn:E.
  - assert (Hok : ~ exists d, In d (served_directions p) /\
                    (0 < queue_of (intersection e) p d)%Z /\
                    Intersection.saturation_flow
                      (relevant_lane p (Intersection.approach (intersection e) d)) == 0).
    { intros (d & Hin & Hq). apply green_time_to_clear_none_iff with
        (lost := startup_lost_time_s (timing e)) in Hq.
      assert (Hn : served_loop e p (served_directions p) (0%Z, 0, 0%Z) = None)
        by (apply served_loop_none_iff; eauto).
      congruence. }
    destruct (served_directions p) as [| first rest] eqn:Es; simpl.
    + split; [auto | reflexivity].
    + split; [discriminate |]. intros [Hnil | Hbad]; [discriminate | tauto].
  - split; [| reflexivity]. intros _. right.
    apply served_loop_none_iff in E. destruct E as (d & Hin & Hn).
    apply green_time_to_clear_none_iff in Hn. eauto.
Qed.

Lemma demands_loop_none_iff : forall ps e,
  demands_loop e ps = None <->
  exists p, In p ps /\ unservable (intersection e) p.
Proof.
  induction ps as [| p ps IH]; intro e; simpl.
  - split; [discriminate | intros (p & [] & _)].
  - destruct (phase_demand e p) as [[d e1] |] eqn:E.
    + assert (Hok : ~ unservable (intersection e) p).
      { intro Hb. apply phase_demand_none_iff in Hb. congruence. }
      apply phase_demand_inv in E. destruct E as (_ & Hi & _). simpl.
      destruct (demands_loop e1 ps) as [[ds e2] |] eqn:E2.
      * split; [discriminate |]. intros (p0 & [<- | Hin] & Hb); [tauto |].
        assert (Hn : demands_loop e1 ps = None)
          by (apply IH; rewrite Hi; eauto).
        congruence.
      * split; [| reflexivity]. intros _.
        apply IH in E2. destruct E2 as (p0 & Hin & Hb). rewrite Hi in Hb. eauto.
    + split; [| reflexivity]. intros _. exists p.
      apply phase_demand_none_iff in E. auto.
Qed.

Lemma find_finds {A} (f : A -> bool) (l : list A) x :
  In x l -> f x = true -> exists y, find f l = Some y.
Proof.
  induction l as [| a l IH]; simpl; [contradiction |].
  intros [-> | Hin] Hf.
  - rewrite Hf. eauto.
  - destruct (f a); eauto.
Qed.

Lemma weights_loop_total e ring i tm : forall ps ds acc,
  Forall2 (demand_of i tm) ps ds -> incl ps (phases ring) ->
  exists w, weights_loop e ring ds acc = Some w.
Proof.
  intros ps ds acc H. revert acc.
  induction H as [| p d ps ds Hpd _ IH]; intros acc Hincl; simpl; [eauto |].
  destruct Hpd as (Hid & _). unfold demand_weight, phase_by_id.
  destruct (find_finds (fun q => (Signal.phase_id q =? phase_id d)%Z) (phases ring) p)
    as [q Hq].
  - apply Hincl. now left.
  - rewrite Hid. apply Z.eqb_refl.
  - rewrite Hq. destruct (_ && _); apply IH; intros x Hx; apply Hincl; now right.
Qed.

Lemma plan_failure_cause e ring :
  compute_cycle_plan e ring = None ->
  exists p, In p (phases ring) /\ unservable (intersection e) p.
Proof.
  unfold compute_cycle_plan, _compute_demands.
  destruct (demands_loop e (phases ring)) as [[ds e1] |] eqn:E.
  - apply demands_loop_inv in E. destruct E as (Hds & _ & _).
    unfold _allocate_green_splits.
    destruct (weights_loop_total e1 ring _ _ (phases ring) ds [] Hds
                (incl_refl _)) as [w ->].
    discriminate.
  - intros _. now apply demands_loop_none_iff.
Qed.

(** X12.  When the plan computation raises.  [compute_cycle_plan] fails
    exactly when the ring holds a phase that serves no direction (the read
    of [served_directions[0]]) or a lane that holds a queue and has a zero
    saturation flow (the division in [green_time_to_clear]); an empty lane
    with a zero saturation flow is harmless, and so is the memory of the
    engine. *)
Theorem compute_cycle_plan_raises_iff (e : AdaptiveTimingEngine)
  (ring : PhaseRing) :
  compute_cycle_plan e ring = None <->
  exists p, In p (phases ring) /\ unservable (intersection e) p.
Proof.
  unfold compute_cycle_plan, _compute_demands.
  destruct (demands_loop e (phases ring)) as [[ds e1] |] eqn:E.
  - assert (Hok : ~ exists p, In p (phases ring) /\ unservable (intersection e) p).
    { intro Hb. apply demands_loop_none_iff in Hb. congruence. }
    apply demands_loop_inv in E. destruct E as (Hds & _ & _).
    unfold _allocate_green_splits.
    destruct (weights_loop_total e1 ring _ _ (phases ring) ds [] Hds
                (incl_refl _)) as [w ->].
    split; [discriminate | tauto].
  - split; [| reflexivity]. intros _. now apply demands_loop_none_iff.
Qed.

(** X13.  Exponential smoothing and its memory.  The degree of saturation
    a phase's demand reports is the raw value on the first computation for
    that phase id, whatever the smoothing factor, and afterwards the blend
    [alpha * raw + (1 - alpha) * previous], which for a factor between 0 and
    1 lies between the previous and the raw value; the reported value is
    what the engine remembers for that id, and no other id's memory
    changes. *)
Theorem smoothing_blends_with_memory (e e' : AdaptiveTimingEngine)
  (p : Phase) (d : PhaseDemand) :
  phase_demand e p = Some (d, e') ->
  let raw := raw_ds (intersection e) p in
  match dict_get (_prev_ds e) (Signal.phase_id p) with
  | None => degree_of_saturation d == raw
  | Some prev =>
      degree_of_saturation d
      == smoothing_alpha e * raw + (1 - smoothing_alpha e) * prev /\
      (0 <= smoothing_alpha e <= 1 ->
       Qmin prev raw <= degree_of_saturation d <= Qmax prev raw)
  end /\
  dict_get (_prev_ds e') (Signal.phase_id p) = Some (degree_of_saturation d) /\
  forall k, k <> Signal.phase_id p ->
    dict_get (_prev_ds e') k = dict_get (_prev_ds e) k.
Proof.
  intros H raw. apply phase_demand_smoothing in H.
  destruct H as (Hds & Hprev & _). fold raw in Hds.
  split; [| split].
  - rewrite Hds. destruct (dict_get (_prev_ds e) (Signal.phase_id p)) as [prev |].
    + split; [reflexivity |]. intros [Ha0 Ha1].
      destruct (Q.min_spec prev raw) as [[Hlt ->] | [Hle ->]];
        destruct (Q.max_spec prev raw) as [[Hlt' ->] | [Hle' ->]];
        split; nra.
    + ring.
  - rewrite Hprev. apply dict_get_set_same.
  - intros k Hk. rewrite Hprev. now apply dict_get_set_other.
Qed.

Lemma smoothing_blends_with_memory_witness :
  match nth_error (phases standard_ring) 1 with
  | Some p =>
      match phase_demand (engine_with 15 12 2 1) p with
      | Some (d, e') =>
          degree_of_saturation d
          == raw_ds (intersection (engine_with 15 12 2 1)) p /\
          dict_get (_prev_ds e') 2 = Some (degree_of_saturation d)
      | None => False
      end
  | None => False
  end.
Proof.
  destruct (nth_error (phases standard_ring) 1) as [p |] eqn:Ep;
    [| vm_compute in Ep; discriminate].
  destruct (phase_demand (engine_with 15 12 2 1) p) as [[d e'] |] eqn:E.
  - pose proof (smoothing_blends_with_memory (engine_with 15 12 2 1) e' p d E)
      as H.
    cbv zeta in H. vm_compute in Ep. injection Ep as <-.
    destruct H as (H1 & H2 & _). split; [exact H1 | exact H2].
  - vm_compute in Ep. injection Ep as <-. vm_compute in E. discriminate.
Defined.

End PlanDemands.

Section PlanComposition.
Import Config Signal Adaptive.

Lemma dict_get_zero (d : Dict) k v :
  Forall (fun kv => snd kv == 0) d -> dict_get d k = Some v -> v == 0.
Proof.
  induction 1 as [| [k' v'] d Hz _ IH]; simpl; [discriminate |].
  destruct (k =? k')%Z; [| exact IH].
  intro H. injection H as <-. exact Hz.
Qed.

Lemma dict_set_zero (d : Dict) k v :
  Forall (fun kv => snd kv == 0) d -> v == 0 ->
  Forall (fun kv => snd kv == 0) (dict_set d k v).
Proof.
  intros H Hv. induction H as [| [k' v'] d Hz Hd IH]; simpl.
  - constructor; [exact Hv | constructor].
  - destruct (k =? k')%Z; constructor; auto.
Qed.

Lemma phase_total_queue_zero i p :
  (forall d, In d (served_directions p) -> queue_of i p d = 0%Z) ->
  phase_total_queue i p = 0%Z.
Proof.
  unfold phase_total_queue. generalize (served_directions p).
  induction l as [| d l IH]; intro H; [reflexivity |].
  simpl. rewrite (H d) by now left. simpl. apply IH.
  intros d' Hd'. apply H. now right.
Qed.

Lemma raw_ds_zero i p :
  (forall d, In d (served_directions p) -> queue_of i p d = 0%Z) ->
  raw_ds i p == 0.
Proof.
  intro H. unfold raw_ds. rewrite (phase_total_queue_zero i p H).
  destruct (hd_error _); [| reflexivity].
  unfold Qdiv. change (inject_Z 0) with 0. ring.
Qed.

Lemma demands_loop_zero : forall ps e ds e',
  (forall p d, In p ps -> In d (served_directions p) ->
     queue_of (intersection e) p d = 0%Z) ->
  Forall (fun kv => snd kv == 0) (_prev_ds e) ->
  demands_loop e ps = Some (ds, e') ->
  Forall (fun d => degree_of_saturation d == 0) ds.
Proof.
  induction ps as [| p ps IH]; intros e ds e' Hq Hz; simpl.
  - intro H. injection H as <- <-. constructor.
  - destruct (phase_demand e p) as [[d e1] |] eqn:E1; [| discriminate].
    simpl. destruct (demands_loop e1 ps) as [[ds' e2] |] eqn:E2; [| discriminate].
    simpl. intro H. injection H as <- <-.
    pose proof (phase_demand_inv _ _ _ _ E1) as (_ & Hi & _).
    apply phase_demand_smoothing in E1. destruct E1 as (Hds & Hprev & _).
    assert (Hraw : raw_ds (intersection e) p == 0).
    { apply raw_ds_zero. intros d0 Hd0. apply Hq; [now left | exact Hd0]. }
    assert (Hd : degree_of_saturation d == 0).
    { rewrite Hds.
      destruct (dict_get (_prev_ds e) (Signal.phase_id p)) as [v |] eqn:Eg.
      - rewrite (dict_get_zero _ _ _ Hz Eg), Hraw. ring.
      - rewrite Hraw. ring. }
    constructor; [exact Hd |].
    apply (IH e1 ds' e2).
    + intros p0 d0 Hp0 Hd0. rewrite Hi. apply Hq; [now right | exact Hd0].
    + rewrite Hprev. now apply dict_set_zero.
    + exact E2.
Qed.

Lemma cycle_length_low_demand e demands :
  Forall (fun d => degree_of_saturation d == 0) demands ->
  _compute_cycle_length e demands == min_cycle_s (timing e).
Proof.
  intro H. unfold _compute_cycle_length.
  assert (Hsum : Num.py_sum (map degree_of_saturation demands) == 0).
  { rewrite (py_sum_const 0).
    - ring.
    - apply Forall_forall. intros x Hx. apply in_map_iff in Hx.
      destruct Hx as (d & <- & Hd). rewrite Forall_forall in H. now apply H. }
  set (n := inject_Z (Z.max 1 (Z.of_nat (length demands)))).
  assert (Havg : Num.py_sum (map degree_of_saturation demands) / n == 0).
  { rewrite Hsum. unfold Qdiv. ring. }
  generalize dependent (Num.py_sum (map degree_of_saturation demands) / n).
  intros avg Havg.
  assert (Hy : Num.Qltb (Num.py_min 0.90 avg) 0.05 = true).
  { apply Qltb_lt. py_cases; lra. }
  rewrite Hy. py_cases; lra.
Qed.

(** X14.  No traffic, shortest cycle.  When every lane the ring draws on
    is empty and the engine remembers no saturation (a new engine, or a
    memory of zeros), the plan exists as soon as every phase serves a
    direction, every demand reports a zero queue and a zero degree of
    saturation, and the cycle length is [min_cycle_s] -- whatever the
    saturation flows, the smoothing factor and the other bounds are. *)
Theorem empty_intersection_gets_min_cycle (e : AdaptiveTimingEngine)
  (ring : PhaseRing) :
  (forall p d, In p (phases ring) -> In d (served_directions p) ->
     queue_of (intersection e) p d = 0%Z) ->
  Forall (fun kv => snd kv == 0) (_prev_ds e) ->
  Forall (fun p => served_directions p <> []) (phases ring) ->
  exists plan e',
    compute_cycle_plan e ring = Some (plan, e') /\
    cycle_length_s plan == min_cycle_s (timing e) /\
    Forall (fun d => total_queue d = 0%Z /\ degree_of_saturation d == 0)
      (phase_demands plan).
Proof.
  intros Hq Hz Hserved.
  destruct (compute_cycle_plan e ring) as [[plan e'] |] eqn:E.
  - exists plan, e'. split; [reflexivity |].
    unfold compute_cycle_plan, _compute_demands in E.
    destruct (demands_loop e (phases ring)) as [[ds e1] |] eqn:Ed; [| discriminate].
    pose proof (demands_loop_zero _ _ _ _ Hq Hz Ed) as Hzero.
    apply demands_loop_inv in Ed. destruct Ed as (Hds & _ & Ht).
    destruct (_allocate_green_splits e1 ds _ ring); [| discriminate].
    injection E as <- <-. simpl. split.
    + rewrite <- Ht. now apply cycle_length_low_demand.
    + assert (Hgen : forall ps ds0,
                incl ps (phases ring) ->
                Forall2 (demand_of (intersection e) (timing e)) ps ds0 ->
                Forall (fun d => degree_of_saturation d == 0) ds0 ->
                Forall (fun d => total_queue d = 0%Z /\ degree_of_saturation d == 0)
                  ds0).
      { intros ps ds0 Hin H2. induction H2 as [| p0 dm ps ds0 Hpd _ IH];
          intro H0; [constructor |].
        inversion H0 as [| ? ? Hd0 Hrest]; subst.
        constructor.
        - split; [| exact Hd0]. destruct Hpd as (_ & -> & _).
          apply phase_total_queue_zero. intros d0 Hd0'.
          apply Hq; [apply Hin; now left | exact Hd0'].
        - apply IH; [intros x Hx; apply Hin; now right | exact Hrest]. }
      apply (Hgen (phases ring) ds (incl_refl _) Hds Hzero).
  - exfalso. apply plan_failure_cause in E.
    destruct E as (p & Hin & [Hnil | (d & Hd & Hpos & _)]).
    + rewrite Forall_forall in Hserved. now apply (Hserved p Hin).
    + rewrite (Hq p d Hin Hd) in Hpos. lia.
Qed.

Lemma empty_intersection_gets_min_cycle_witness :
  exists plan e',
    compute_cycle_plan (engine_with 0 0 0 0) standard_ring = Some (plan, e') /\
    cycle_length_s plan == min_cycle_s default_timing /\
    Forall (fun d => total_queue d = 0%Z /\ degree_of_saturation d == 0)
      (phase_demands plan).
Proof.
  apply (empty_intersection_gets_min_cycle (engine_with 0 0 0 0) standard_ring).
  - intros p d _ _. unfold queue_of, relevant_lane.
    destruct (is_left_turn p), d; reflexivity.
  - constructor.
  - vm_compute. repeat constructor; discriminate.
Defined.

Lemma find_demand i tm : forall ps ds n p,
  Forall2 (demand_of i tm) ps ds ->
  NoDup (map Signal.phase_id ps) ->
  nth_error ps n = Some p ->
  exists d,
    demand_of i tm p d /\
    find (fun d => (phase_id d =? Signal.phase_id p)%Z) ds = Some d.
Proof.
  intros ps ds n p H. revert n.
  induction H as [| p0 d0 ps ds Hpd _ IH]; intros [| n] Hnd Hn; simpl in Hn;
    try discriminate.
  - injection Hn as <-. exists d0. split; [exact Hpd |]. simpl.
    destruct Hpd as (-> & _). now rewrite Z.eqb_refl.
  - inversion Hnd as [| ? ? Hnotin Hnd']; subst.
    destruct (IH n Hnd' Hn) as (d & Hd & Hf). exists d. split; [exact Hd |].
    simpl. destruct Hpd as (-> & _).
    destruct (Z.eqb_spec (Signal.phase_id p0) (Signal.phase_id p)) as [E | _];
      [| exact Hf].
    exfalso. apply Hnotin. rewrite E. apply in_map. now apply (nth_error_In _ n).
Qed.

Lemma apply_to_phase_layout plan p : same_layout p (apply_to_phase plan p).
Proof.
  unfold apply_to_phase, same_layout.
  destruct (dict_get _ _); destruct (find _ _); simpl; auto.
Qed.

Lemma apply_to_phase_mode plan p d :
  find (fun d => (phase_id d =? Signal.phase_id p)%Z) (phase_demands plan) = Some d ->
  use_protected_left (apply_to_phase plan p) = needs_protected_left d.
Proof.
  intro H. unfold apply_to_phase.
  destruct (dict_get _ _); simpl; rewrite H; reflexivity.
Qed.

(** X15.  What a timing recomputation leaves in the ring.  After
    [compute_cycle_plan] and [apply_plan] on a ring of distinct phase ids,
    the phase at each position keeps its identity, kind and served
    directions, satisfies every constraint of the enforcer, and is in
    protected-left mode exactly when it is a left-turn phase whose
    left-turn queues, summed over its served directions, reach
    [left_turn_queue_threshold]; a through phase never is. *)
Theorem recompute_sets_left_turn_mode (e e' : AdaptiveTimingEngine)
  (ring ring' : PhaseRing) (n : nat) (p p' : Phase) :
  Controller.recompute_timing e ring = Some (e', ring') ->
  NoDup (map Signal.phase_id (phases ring)) ->
  nth_error (phases ring) n = Some p ->
  nth_error (phases ring') n = Some p' ->
  same_layout p p' /\
  meets_constraints (timing e) p' /\
  use_protected_left p' =
    is_left_turn p
    && (left_turn_queue_threshold (timing e)
        <=? phase_total_queue (intersection e) p)%Z.
Proof.
  intros H Hnd Hp Hp'. unfold Controller.recompute_timing in H.
  destruct (compute_cycle_plan e ring) as [[plan e1] |] eqn:E; [| discriminate].
  simpl in H.
  destruct (apply_plan e1 plan ring) as [r |] eqn:Ea; [| discriminate].
  injection H as <- <-.
  destruct (plan_green e ring plan e1 E Hnd) as (Ht & _).
  destruct (plan_greens_closed e ring plan e1 E Hnd) as (ds & Hds & Hpd & _).
  unfold apply_plan in Ea. rewrite Ht in Ea.
  destruct (Constraints.enforce_cycle (timing e) _) as [ps' |] eqn:Ec;
    [| discriminate].
  injection Ea as <-. simpl in Hp'.
  apply enforce_cycle_image in Ec.
  assert (Hq : nth_error (map (apply_to_phase plan) (phases ring)) n
               = Some (apply_to_phase plan p)) by now apply map_nth_error.
  destruct (Forall2_nth_error_rel _ _ _ _ _ _ Ec Hq Hp')
    as (q & Hlay & Hprot & Henf).
  destruct (find_demand _ _ _ _ n p Hds Hnd Hp) as (d & Hd & Hfind).
  rewrite <- Hpd in Hfind.
  split; [| split].
  - apply (same_layout_trans p (apply_to_phase plan p) p');
      [apply apply_to_phase_layout |].
    apply (same_layout_trans _ q p' Hlay).
    now apply (enforce_same_layout (timing e)).
  - now apply (enforce_meets (timing e) q).
  - rewrite (enforce_protected _ _ _ Henf), Hprot,
      (apply_to_phase_mode plan p d Hfind).
    destruct Hd as (_ & _ & _ & ->). reflexivity.
Qed.

Lemma recompute_sets_left_turn_mode_witness :
  match Controller.recompute_timing (engine_with 15 12 2 1) standard_ring,
        nth_error (phases standard_ring) 0 with
  | Some (_, ring'), Some p =>
      match nth_error (phases ring') 0 with
      | Some p' =>
          same_layout p p' /\ meets_constraints default_timing p' /\
          use_protected_left p' = false
      | None => False
      end
  | _, _ => False
  end.
Proof.
  destruct (Controller.recompute_timing (engine_with 15 12 2 1) standard_ring)
    as [[e' ring'] |] eqn:E; [| vm_compute in E; discriminate].
  destruct (nth_error (phases standard_ring) 0) as [p |] eqn:Ep;
    [| vm_compute in Ep; discriminate].
  destruct (nth_error (phases ring') 0) as [p' |] eqn:Ep'.
  - pose proof (recompute_sets_left_turn_mode (engine_with 15 12 2 1) e'
                 standard_ring ring' 0 p p' E) as H.
    destruct H as (H1 & H2 & H3); auto.
    + vm_compute. repeat constructor; simpl; intuition discriminate.
    + split; [exact H1 |]. split; [exact H2 |]. rewrite H3.
      vm_compute in Ep. injection Ep as <-. reflexivity.
  - vm_compute in E. injection E as _ <-. vm_compute in Ep'. discriminate.
Defined.

End PlanComposition.

(* ------------------------------------------------------------------ *)
(** ** Lanes *)

Section LaneTheorems.
Import Config.
Import Intersection.

(** X16.  The green needed to clear a lane.  On lanes of one positive
    saturation flow and with a start-up lost time that is not negative,
    [green_time_to_clear] returns, and a longer queue never needs less
    green; an empty lane needs none, a lane with a queue needs the lost
    time plus the queue over the flow per second. *)
Theorem green_time_to_clear_monotone (l l' : Lane) (lost : Q) :
  saturation_flow l == saturation_flow l' ->
  0 < saturation_flow l ->
  0 <= lost ->
  (queue_count l <= queue_count l')%Z ->
  exists t t',
    green_time_to_clear l lost = Some t /\
    green_time_to_clear l' lost = Some t' /\
    t <= t' /\
    ((queue_count l <= 0)%Z -> t = 0) /\
    ((0 < queue_count l)%Z ->
     t == inject_Z (queue_count l) * 3600 / saturation_flow l + lost).
Proof.
  intros Hs Hpos Hlost Hq.
  assert (Hpos' : 0 < saturation_flow l') by (rewrite <- Hs; exact Hpos).
  assert (Hgt : forall x : Lane,
            0 < saturation_flow x -> (0 < queue_count x)%Z ->
            green_time_to_clear x lost
            = Some (inject_Z (queue_count x) / saturation_flow_per_sec x + lost)).
  { intros x Hx Hqx. unfold green_time_to_clear.
    destruct (Z.leb_spec (queue_count x) 0); [lia |].
    rewrite py_div_some; [reflexivity |].
    unfold saturation_flow_per_sec. intro Hz.
    assert (saturation_flow x == 0); [| lra].
    setoid_replace (saturation_flow x) with (saturation_flow x / 3600 * 3600)
      by field.
    rewrite Hz. reflexivity. }
  assert (Hle : forall x : Lane,
            (queue_count x <= 0)%Z -> green_time_to_clear x lost = Some 0).
  { intros x Hx. unfold green_time_to_clear.
    destruct (Z.leb_spec (queue_count x) 0); [reflexivity | lia]. }
  assert (Hnn : forall x : Lane,
            0 < saturation_flow x -> (0 < queue_count x)%Z ->
            0 < inject_Z (queue_count x) / saturation_flow_per_sec x).
  { intros x Hx Hqx. unfold saturation_flow_per_sec.
    apply Qlt_shift_div_l; [apply Qlt_shift_div_l; lra |].
    rewrite Qmult_0_l. change 0 with (inject_Z 0). rewrite <- Zlt_Qlt. exact Hqx. }
  destruct (Z_le_gt_dec (queue_count l) 0) as [Hl0 | Hl1].
  - rewrite (Hle l Hl0).
    destruct (Z_le_gt_dec (queue_count l') 0) as [Hl0' | Hl1'].
    + rewrite (Hle l' Hl0'). do 2 eexists. repeat split; try reflexivity.
      * lra.
      * intro. lia.
    + rewrite (Hgt l' Hpos') by lia. do 2 eexists.
      repeat split; try reflexivity.
      * assert (Hq' : (0 < queue_count l')%Z) by lia.
        pose proof (Hnn l' Hpos' Hq'). lra.
      * intro. lia.
  - rewrite (Hgt l Hpos) by lia. rewrite (Hgt l' Hpos') by lia.
    do 2 eexists. repeat split; try reflexivity.
    + unfold saturation_flow_per_sec. rewrite <- Hs.
      assert (inject_Z (queue_count l) <= inject_Z (queue_count l'))
        by now rewrite <- Zle_Qle.
      apply Qplus_le_l. apply Qmult_le_compat_r; [assumption |].
      apply Qinv_le_0_compat. apply Qlt_le_weak, Qlt_shift_div_l; lra.
    + intro. lia.
    + intros _. unfold saturation_flow_per_sec. field. lra.
Qed.

Lemma green_time_to_clear_monotone_witness :
  exists t t',
    green_time_to_clear
      {| direction := NORTH; lane_type := LT_THROUGH;
         saturation_flow := 1800; queue_count := 10 |} 2 = Some t /\
    green_time_to_clear
      {| direction := SOUTH; lane_type := LT_THROUGH;
         saturation_flow := 1800; queue_count := 15 |} 2 = Some t' /\
    t <= t' /\
    ((10 <= 0)%Z -> t = 0) /\
    ((0 < 10)%Z -> t == inject_Z 10 * 3600 / 1800 + 2).
Proof.
  apply (green_time_to_clear_monotone
           {| direction := NORTH; lane_type := LT_THROUGH;
              saturation_flow := 1800; queue_count := 10 |}
           {| direction := SOUTH; lane_type := LT_THROUGH;
              saturation_flow := 1800; queue_count := 15 |} 2).
  - reflexivity.
  - reflexivity.
  - discriminate.
  - simpl. lia.
Defined.

End LaneTheorems.

(* ------------------------------------------------------------------ *)
(** ** The conflict monitor and the state machine's own check *)

Section MonitorAccounting.
Import Config Signal Conflict.

Lemma conflict_seen_found heads : conflict_seen heads = conflict_found heads.
Proof. reflexivity. Qed.

Lemma tick_output_clean sc now sc' : tick sc now = Some sc' -> clean sc'.
Proof.
  intro H. unfold clean. rewrite conflict_seen_found.
  destruct (tick_inv _ _ _ H) as [-> | (sc1 & _ & ->)];
    apply check_conflicts_no_conflict.
Qed.

Lemma check_clean_result m sc clock :
  clean sc ->
  fst (fst (check m sc clock)) = true /\
  snd (check m sc clock) = sc /\
  conflict_count (snd (fst (check m sc clock))) = conflict_count m /\
  clean_checks_to_clear (snd (fst (check m sc clock))) = clean_checks_to_clear m /\
  (fault_active m = false ->
   fault_active (snd (fst (check m sc clock))) = false /\
   _consecutive_clean (snd (fst (check m sc clock))) = _consecutive_clean m).
Proof.
  intro Hc. unfold clean in Hc. unfold check. rewrite Hc. simpl.
  destruct (fault_active m) eqn:Ef.
  - destruct (_ <=? _)%Z; simpl; repeat split; auto; discriminate.
  - simpl. repeat split; auto.
Qed.

(** X17.  What a check reports and counts.  [check] returns False exactly
    on conflicting heads; it touches the controller only to force the fault
    display, and only when the conflict is new (no fault latched yet); and
    over any run of checks [conflict_count] grows by the number of checks
    that saw a conflict, latched or not. *)
Theorem monitor_counts_conflicts (m : ConflictMonitor) (clock : Q) :
  (forall sc,
     fst (fst (check m sc clock)) = negb (conflict_seen (signal_heads sc)) /\
     snd (check m sc clock) =
       (if conflict_seen (signal_heads sc) && negb (fault_active m)
        then _enter_fault_mode sc else sc)) /\
  forall scs,
    conflict_count (checks m scs clock) =
      (conflict_count m
       + Z.of_nat (length (filter (fun sc => conflict_seen (signal_heads sc)) scs)))%Z.
Proof.
  split.
  - intro sc. unfold check, _on_conflict_detected.
    destruct (conflict_seen (signal_heads sc)); simpl.
    + destruct (fault_active m); simpl; auto.
    + destruct (fault_active m); simpl; [| auto].
      destruct (_ <=? _)%Z; auto.
  - intro scs. revert m. induction scs as [| sc scs IH]; intro m; simpl.
    + lia.
    + rewrite IH. clear IH.
      assert (Hc : conflict_count (snd (fst (check m sc clock)))
                   = (conflict_count m
                      + if conflict_seen (signal_heads sc) then 1 else 0)%Z).
      { unfold check, _on_conflict_detected.
        destruct (conflict_seen (signal_heads sc)); simpl.
        - destruct (fault_active m); simpl; reflexivity.
        - destruct (fault_active m); simpl; [| lia].
          destruct (_ <=? _)%Z; simpl; lia. }
      rewrite Hc. destruct (conflict_seen (signal_heads sc)); simpl length; lia.
Qed.

(** X18.  The monitor never fires right after a tick.  The state machine
    ends every tick with its own conflict check, which leaves no two
    conflicting greens (it forces the fault display when it finds any), so
    a monitor check on the state a tick produced reports a healthy
    intersection, leaves the controller untouched, counts nothing and does
    not latch -- whatever the ring serves. *)
Theorem monitor_silent_after_tick (m : ConflictMonitor) (sc sc' : SignalController)
  (now clock : Q) :
  tick sc now = Some sc' ->
  fst (fst (check m sc' clock)) = true /\
  snd (check m sc' clock) = sc' /\
  conflict_count (snd (fst (check m sc' clock))) = conflict_count m /\
  (fault_active m = false ->
   fault_active (snd (fst (check m sc' clock))) = false).
Proof.
  intro H. apply tick_output_clean in H.
  destruct (check_clean_result m sc' clock H) as (H1 & H2 & H3 & _ & H4).
  repeat split; auto. intro Hf. now apply H4.
Qed.

Lemma monitor_silent_after_tick_witness :
  fst (fst (check (new_monitor 50 0) (observed 1) 8)) = true /\
  snd (check (new_monitor 50 0) (observed 1) 8) = observed 1 /\
  conflict_count (snd (fst (check (new_monitor 50 0) (observed 1) 8))) = 0%Z /\
  (fault_active (new_monitor 50 0) = false ->
   fault_active (snd (fst (check (new_monitor 50 0) (observed 1) 8))) = false).
Proof.
  apply (monitor_silent_after_tick (new_monitor 50 0) standard_controller
           (observed 1) 8 8).
  vm_compute. reflexivity.
Defined.

End MonitorAccounting.

(* ------------------------------------------------------------------ *)
(** ** The preemption manager over a run of calls *)

Section ManagerRuns.
Import Config Preemption.

Lemma new_manager_inv h : manager_inv (new_manager h).
Proof. repeat split; simpl; try constructor. discriminate. Qed.

Lemma activate_manager m sc ev clock m' sc' :
  _activate m sc ev clock = Some (m', sc') ->
  m' = {| max_hold_s := max_hold_s m; pending := pending m;
          active_event := Some (set_activated_at ev clock);
          history := history m |} /\
  Signal.request_preemption sc (direction ev) clock = Some sc'.
Proof.
  unfold _activate. simpl.
  destruct (Signal.request_preemption sc (direction ev) clock) as [sc1 |];
    [| discriminate].
  intro H. injection H as <- <-. auto.
Qed.

Lemma activate_next_manager m sc clock m' sc' :
  activate_next m sc clock = Some (m', sc') ->
  match pending m with
  | [] => m' = m /\ sc' = sc
  | ev :: rest =>
      m' = {| max_hold_s := max_hold_s m; pending := rest;
              active_event := Some (set_activated_at ev clock);
              history := history m |} /\
      Signal.request_preemption sc (direction ev) clock = Some sc'
  end.
Proof.
  unfold activate_next. destruct (pending m) as [| ev rest].
  - intro H. injection H as <- <-. auto.
  - intro H. apply activate_manager in H. exact H.
Qed.

Lemma clear_manager m sc clock m' sc' ev :
  active_event m = Some ev ->
  clear m sc clock = Some (m', sc') ->
  match pending m with
  | [] =>
      m' = {| max_hold_s := max_hold_s m; pending := [];
              active_event := None;
              history := history m ++ [set_cleared_at ev clock] |} /\
      sc' = Signal.clear_preemption sc
  | next :: rest =>
      m' = {| max_hold_s := max_hold_s m; pending := rest;
              active_event := Some (set_activated_at next clock);
              history := history m ++ [set_cleared_at ev clock] |} /\
      Signal.request_preemption (Signal.clear_preemption sc) (direction next) clock
      = Some sc'
  end.
Proof.
  intros Ha. unfold clear. rewrite Ha. intro H.
  apply activate_next_manager in H. simpl in H.
  destruct (pending m) as [| next rest] eqn:Ep; simpl in H.
  - destruct H as [-> ->]. auto.
  - exact H.
Qed.

Lemma call_service_order st c st' :
  no_idle_wait (fst st) ->
  call st c = Some st' ->
  service_order (fst st') = service_order (fst st) ++ requested [c] /\
  no_idle_wait (fst st').
Proof.
  destruct st as [m sc], st' as [m' sc']. simpl. intros Hidle.
  assert (Hclear : forall clock,
            clear m sc clock = Some (m', sc') ->
            service_order m' = service_order m ++ [] /\ no_idle_wait m').
  { intros clock H. rewrite app_nil_r.
    destruct (active_event m) as [ev |] eqn:Ha.
    - pose proof (clear_manager m sc clock m' sc' ev Ha H) as Hc.
      unfold service_order, no_idle_wait. rewrite Ha.
      destruct (pending m) as [| next rest]; destruct Hc as [-> _]; simpl;
        rewrite ?map_app, <- ?app_assoc; simpl; split; auto; discriminate.
    - unfold clear in H. rewrite Ha in H. injection H as <- <-. auto. }
  destruct c as [d h clock | clock | clock | now]; simpl.
  - unfold request. destruct (active_event m) as [ev |] eqn:Ha.
    + intro H. injection H as <- <-.
      unfold service_order, no_idle_wait. simpl. rewrite Ha.
      rewrite !map_app. simpl. rewrite !map_app, <- !app_assoc. simpl.
      split; [reflexivity | discriminate].
    + intro H. apply activate_manager in H. destruct H as [-> _].
      unfold service_order, no_idle_wait. simpl. rewrite Ha, (Hidle Ha).
      rewrite !map_app. simpl. rewrite !app_nil_r.
      split; [reflexivity | discriminate].
  - apply Hclear.
  - unfold tick. destruct (active_event m) as [ev |] eqn:Ha.
    + destruct (Qle_bool _ _); [apply Hclear |].
      intro H. injection H as <- <-. rewrite app_nil_r. auto.
    + intro H. apply activate_next_manager in H.
      rewrite (Hidle Ha) in H. destruct H as [-> _].
      rewrite app_nil_r. auto.
  - destruct (Signal.tick sc now) as [sc1 |]; [| discriminate].
    intro H. injection H as <- <-. rewrite app_nil_r. auto.
Qed.

Lemma calls_service_order : forall cs st st',
  no_idle_wait (fst st) ->
  calls st cs = Some st' ->
  service_order (fst st') = service_order (fst st) ++ requested cs /\
  no_idle_wait (fst st').
Proof.
  induction cs as [| c cs IH]; intros st st' Hidle; simpl.
  - intro H. injection H as <-. rewrite app_nil_r. auto.
  - destruct (call st c) as [st1 |] eqn:E; [| discriminate].
    intro H. destruct (call_service_order st c st1 Hidle E) as [Ho Hi].
    destruct (IH st1 st' Hi H) as [Ho' Hi'].
    split; [| exact Hi'].
    rewrite Ho', Ho. simpl. rewrite app_nil_r, <- app_assoc. reflexivity.
Qed.

Lemma request_sets_preemption sc d clock sc' :
  Signal.is_preempted sc = false ->
  Signal.request_preemption sc d clock = Some sc' ->
  Signal.is_preempted sc' = true /\ Signal.preemption_direction sc' = Some d.
Proof.
  intros Hf. unfold Signal.request_preemption. rewrite Hf. simpl.
  destruct (Signal.current_step sc); intro H;
    try (injection H as <-; auto);
    apply apply_signals_inv in H; destruct H as (phase & _ & ->); auto.
Qed.

Lemma call_agree st c st' :
  no_idle_wait (fst st) -> agree (fst st) (snd st) ->
  call st c = Some st' ->
  agree (fst st') (snd st').
Proof.
  destruct st as [m sc], st' as [m' sc']. simpl. intros Hidle [Hp Hd].
  assert (Hclear : forall clock,
            clear m sc clock = Some (m', sc') -> agree m' sc').
  { intros clock H.
    destruct (active_event m) as [ev |] eqn:Ha.
    - pose proof (clear_manager m sc clock m' sc' ev Ha H) as Hc.
      destruct (pending m) as [| next rest]; destruct Hc as [-> Hsc].
      + subst sc'. split; reflexivity.
      + apply request_sets_preemption in Hsc; [| reflexivity].
        destruct Hsc as [H1 H2]. split; simpl; assumption.
    - unfold clear in H. rewrite Ha in H. injection H as <- <-.
      unfold agree, is_active in *. rewrite ?Ha in *. auto. }
  destruct c as [d h clock | clock | clock | now]; simpl.
  - unfold request. destruct (active_event m) as [ev |] eqn:Ha.
    + intro H. injection H as <- <-. unfold agree, is_active in *. simpl.
      rewrite ?Ha in *. auto.
    + intro H. apply activate_manager in H. destruct H as [-> Hsc].
      unfold is_active in Hp. rewrite ?Ha in Hp.
      apply request_sets_preemption in Hsc; [| exact Hp].
      destruct Hsc as [H1 H2]. split; simpl; assumption.
  - apply Hclear.
  - unfold tick. destruct (active_event m) as [ev |] eqn:Ha.
    + destruct (Qle_bool _ _); [apply Hclear |].
      intro H. injection H as <- <-. unfold agree, is_active in *.
      rewrite ?Ha in *. auto.
    + intro H. apply activate_next_manager in H.
      rewrite (Hidle Ha) in H. destruct H as [-> ->].
      unfold agree, is_active in *. rewrite ?Ha in *. auto.
  - destruct (Signal.tick sc now) as [sc1 |] eqn:E; [| discriminate].
    intro H. injection H as <- <-.
    destruct (tick_ring_position _ _ _ E) as (_ & H1 & H2 & _).
    unfold agree. rewrite H1, H2. auto.
Qed.

Lemma calls_agree : forall cs st st',
  no_idle_wait (fst st) -> agree (fst st) (snd st) ->
  calls st cs = Some st' ->
  agree (fst st') (snd st').
Proof.
  induction cs as [| c cs IH]; intros st st' Hidle Hag; simpl.
  - intro H. injection H as <-. exact Hag.
  - destruct (call st c) as [st1 |] eqn:E; [| discriminate].
    intro H. apply (IH st1 st'); [| | exact H].
    + now destruct (call_service_order st c st1 Hidle E).
    + now apply (call_agree st c st1).
Qed.

(** X19.  First come, first served, nothing lost.  After any run of
    calls on a new manager the events it holds -- archived, active,
    waiting, in that order -- are the requested directions in the order of
    the requests, each once; and no event waits while the manager is
    idle. *)
Theorem preemption_requests_served_in_order (max_hold : Q)
  (sc0 : Signal.SignalController) (cs : list Call) :
  valid sc0 ->
  exists m sc,
    calls (new_manager max_hold, sc0) cs = Some (m, sc) /\
    service_order m = requested cs /\
    no_idle_wait m.
Proof.
  intro Hv.
  destruct (calls_inv cs (new_manager max_hold, sc0) Hv (new_manager_inv max_hold))
    as ([m sc] & E & _).
  exists m, sc. split; [exact E |].
  apply (calls_service_order cs (new_manager max_hold, sc0) (m, sc)); [| exact E].
  intros _. reflexivity.
Qed.

Lemma preemption_requests_served_in_order_witness :
  exists m sc,
    calls (new_manager 120, standard_controller) manager_run = Some (m, sc) /\
    service_order m = [NORTH; EAST; WEST] /\
    no_idle_wait m.
Proof.
  apply (preemption_requests_served_in_order 120 standard_controller manager_run).
  unfold valid. vm_compute. lia.
Defined.

(** X20.  The manager and the state machine stay in step.  Starting from
    a new manager and a controller that is not preempted, after any run of
    requests, clears, manager ticks and state-machine ticks the controller
    is preempted exactly when the manager has an active event, and for that
    event's direction. *)
Theorem manager_and_controller_agree (max_hold : Q)
  (sc0 : Signal.SignalController) (cs : list Call) :
  valid sc0 ->
  Signal.is_preempted sc0 = false ->
  Signal.preemption_direction sc0 = None ->
  exists m sc,
    calls (new_manager max_hold, sc0) cs = Some (m, sc) /\
    Signal.is_preempted sc = is_active m /\
    Signal.preemption_direction sc = option_map direction (active_event m).
Proof.
  intros Hv Hp Hd.
  destruct (calls_inv cs (new_manager max_hold, sc0) Hv (new_manager_inv max_hold))
    as ([m sc] & E & _).
  exists m, sc. split; [exact E |].
  apply (calls_agree cs (new_manager max_hold, sc0) (m, sc)); [| | exact E].
  - intros _. reflexivity.
  - split; simpl; assumption.
Qed.

Lemma manager_and_controller_agree_witness :
  exists m sc,
    calls (new_manager 120, standard_controller) manager_run = Some (m, sc) /\
    Signal.is_preempted sc = is_active m /\
    Signal.preemption_direction sc = option_map direction (active_event m).
Proof.
  apply (manager_and_controller_agree 120 standard_controller manager_run).
  - unfold valid. vm_compute. lia.
  - vm_compute. reflexivity.
  - vm_compute. reflexivity.
Defined.

End ManagerRuns.

(* ------------------------------------------------------------------ *)
(** ** Counting vehicles *)

Section CountingFacts.
Import Config Vision.

Lemma Qltb_compat (a b b' : Q) : b == b' -> Num.Qltb a b = Num.Qltb a b'.
Proof.
  intro H. destruct (Num.Qltb a b') eqn:E.
  - apply Qltb_lt in E. apply Qltb_lt. now rewrite H.
  - apply Qltb_ge in E. apply Qltb_ge. now rewrite H.
Qed.

Lemma crossing_guard (py yi yj : Q) :
  negb (Bool.eqb (Num.Qltb py yi) (Num.Qltb py yj)) = true -> ~ yj - yi == 0.
Proof.
  intros H Hz. assert (E : yi == yj) by lra.
  rewrite (Qltb_compat py yi yj E), Bool.eqb_reflx in H. discriminate.
Qed.

Lemma crossings_total px py : forall vs vj inside,
  exists b, crossings px py vj vs inside = Some b.
Proof.
  induction vs as [| [xi yi] vs IH]; intros [xj yj] inside; simpl; [eauto |].
  destruct (negb (Bool.eqb (Num.Qltb py yi) (Num.Qltb py yj))) eqn:G; [| apply IH].
  rewrite (py_div_some _ _ (crossing_guard _ _ _ G)).
  destruct (Num.Qltb px _); apply IH.
Qed.

(** What one visited vertex does to the parity, with the division done. *)
Lemma crossings_step px py xi yi xj yj rest inside :
  ~ yj - yi == 0 ->
  crossings px py (xj, yj) ((xi, yi) :: rest) inside =
    crossings px py (xi, yi) rest
      (if negb (Bool.eqb (Num.Qltb py yi) (Num.Qltb py yj))
          && Num.Qltb px ((xj - xi) * (py - yi) / (yj - yi) + xi)
       then negb inside else inside).
Proof.
  intro Hne. simpl. rewrite (py_div_some _ _ Hne).
  destruct (negb _); simpl; [| reflexivity].
  destruct (Num.Qltb px _); reflexivity.
Qed.

Lemma crossings_flat px py xi xj yy rest inside :
  crossings px py (xj, yy) ((xi, yy) :: rest) inside =
    crossings px py (xi, yy) rest inside.
Proof. simpl. now rewrite Bool.eqb_reflx. Qed.

Lemma counts_set_keys (c : Counts) k v :
  In k (map fst c) -> map fst (counts_set c k v) = map fst c.
Proof.
  induction c as [| [k' v'] c IH]; simpl; [contradiction |].
  destruct (key_eqb k k') eqn:E; simpl.
  - intros _. f_equal. destruct k as [d l], k' as [d' l'].
    unfold key_eqb in E. simpl in E. apply andb_true_iff in E.
    destruct E as [E1 E2]. apply Direction_eqb_eq in E1. subst.
    destruct l, l'; try discriminate; reflexivity.
  - intros [-> | Hin].
    + unfold key_eqb in E. destruct k as [d l].
      simpl in E. destruct d, l; discriminate.
    + now rewrite IH.
Qed.

Lemma key_eqb_eq (a b : Key) : key_eqb a b = true <-> a = b.
Proof.
  destruct a as [d l], b as [d' l']. unfold key_eqb. simpl.
  rewrite andb_true_iff, Direction_eqb_eq. split.
  - intros [-> H]. destruct l, l'; try discriminate; reflexivity.
  - intro H. injection H as -> ->. split; [reflexivity |]. now destruct l'.
Qed.

Lemma counts_bump (c : Counts) k :
  In k (map fst c) ->
  total (counts_set c k (counts_get c k 0 + 1)%Z) = (total c + 1)%Z.
Proof.
  unfold total. induction c as [| [k' v'] c IH]; simpl; [contradiction |].
  destruct (key_eqb k k') eqn:E; simpl.
  - intros _. lia.
  - intros [-> | Hin].
    + assert (key_eqb k k = true) by now apply key_eqb_eq. congruence.
    + rewrite (IH Hin). lia.
Qed.

Lemma counts_init : forall (rois : list LaneROI) (acc : Counts),
  NoDup (map fst acc ++ map roi_key rois) ->
  fold_left (fun c roi => counts_set c (roi_key roi) 0%Z) rois acc
  = acc ++ map (fun roi => (roi_key roi, 0%Z)) rois.
Proof.
  induction rois as [| roi rois IH]; intros acc Hnd; simpl.
  - now rewrite app_nil_r.
  - assert (Hfresh : counts_set acc (roi_key roi) 0%Z = acc ++ [(roi_key roi, 0%Z)]).
    { apply NoDup_remove_2 in Hnd.
      assert (Hn : ~ In (roi_key roi) (map fst acc))
        by (intro H; apply Hnd; apply in_or_app; now left).
      clear - Hn. induction acc as [| [k' v'] acc IHa]; simpl; [reflexivity |].
      destruct (key_eqb (roi_key roi) k') eqn:E.
      - apply key_eqb_eq in E. exfalso. apply Hn. now left.
      - rewrite IHa; [reflexivity |]. intro H. apply Hn. now right. }
    rewrite Hfresh, IH.
    + now rewrite <- app_assoc.
    + rewrite map_app. simpl. rewrite <- app_assoc. exact Hnd.
Qed.

Lemma counts_get_listed (c : Counts) :
  NoDup (map fst c) ->
  map (fun k => counts_get c k 0%Z) (map fst c) = map snd c.
Proof.
  induction c as [| [k v] c IH]; simpl; intro Hnd; [reflexivity |].
  inversion Hnd as [| ? ? Hk Hnd']; subst.
  assert (Ek : key_eqb k k = true) by now apply key_eqb_eq.
  rewrite Ek. f_equal. rewrite <- (IH Hnd').
  apply map_ext_in. intros k' Hk'.
  destruct (key_eqb k' k) eqn:E; [| reflexivity].
  apply key_eqb_eq in E. subst. contradiction.
Qed.

Lemma first_match_total px py : forall rois,
  exists m, first_match px py rois = Some m.
Proof.
  induction rois as [| roi rois IH]; simpl; [eauto |].
  destruct (polygon roi) as [| v vs] eqn:Ep; [exact IH |].
  unfold point_in_polygon.
  destruct (length (v :: vs) <? 3)%nat; [exact IH |].
  destruct (nth_error (v :: vs) (length (v :: vs) - 1)) as [lst |] eqn:El.
  - destruct (crossings_total px py (v :: vs) lst false) as [b ->].
    destruct b; [eauto | exact IH].
  - exfalso. apply nth_error_None in El. simpl in El. lia.
Qed.

Lemma first_match_In px py : forall rois roi,
  first_match px py rois = Some (Some roi) -> In roi rois.
Proof.
  induction rois as [| r rois IH]; intros roi; simpl; [discriminate |].
  destruct (polygon r); [intro H; right; now apply IH |].
  destruct (point_in_polygon px py _) as [[|] |]; try discriminate.
  - intro H. injection H as <-. now left.
  - intro H. right. now apply IH.
Qed.

Lemma count_loop_total_sum rois : forall vs counts,
  map fst counts = map roi_key rois ->
  exists counts',
    count_loop rois counts vs = Some counts' /\
    map fst counts' = map roi_key rois /\
    total counts' = (total counts + how_many (caught rois) vs)%Z.
Proof.
  induction vs as [| v vs IH]; intros counts Hk; simpl.
  - exists counts. unfold how_many. simpl. repeat split; auto. lia.
  - unfold count_vehicle, how_many, caught. simpl.
    destruct (first_match_total (x v) (y v) rois) as [m Hm]. rewrite Hm.
    destruct m as [roi |].
    + assert (Hin : In (roi_key roi) (map fst counts)).
      { rewrite Hk. apply in_map. now apply (first_match_In (x v) (y v)). }
      destruct (IH (counts_set counts (roi_key roi)
                      (counts_get counts (roi_key roi) 0 + 1)%Z))
        as (c' & Hc & Hk' & Ht).
      { now rewrite counts_set_keys. }
      exists c'. split; [exact Hc |]. split; [exact Hk' |].
      rewrite Ht, (counts_bump counts _ Hin). unfold how_many, caught.
      simpl length. lia.
    + destruct (IH counts Hk) as (c' & Hc & Hk' & Ht).
      exists c'. split; [exact Hc |]. split; [exact Hk' |].
      rewrite Ht. reflexivity.
Qed.

Lemma simple_counts_fold (d : Direction) : forall vs counts,
  dm_get
    (fold_left
       (fun counts v =>
          if Num.Qltb (y v) 0.3 then dm_set counts NORTH (dm_get counts NORTH + 1)%Z
          else if Num.Qltb 0.7 (y v)
               then dm_set counts SOUTH (dm_get counts SOUTH + 1)%Z
          else if Num.Qltb 0.7 (x v)
               then dm_set counts EAST (dm_get counts EAST + 1)%Z
          else if Num.Qltb (x v) 0.3
               then dm_set counts WEST (dm_get counts WEST + 1)%Z
          else counts)
       vs counts) d
  = (dm_get counts d + how_many (in_band d) vs)%Z.
Proof.
  induction vs as [| v vs IH]; intro counts; simpl.
  - unfold how_many. simpl. lia.
  - rewrite IH. clear IH. unfold how_many. simpl.
    assert (Hband : forall a b : Q,
              Num.Qltb a b = false -> Qle_bool b a = true).
    { intros a b H. apply Qltb_ge in H. now apply Qle_bool_iff. }
    assert (Hexcl : Num.Qltb (y v) 0.3 = true -> Num.Qltb 0.7 (y v) = false).
    { intro H. apply Qltb_lt in H. apply Qltb_ge. lra. }
    assert (Hexcl2 : Num.Qltb 0.7 (x v) = true -> Num.Qltb (x v) 0.3 = false).
    { intro H. apply Qltb_lt in H. apply Qltb_ge. lra. }
    assert (Hle : forall a b : Q, Num.Qltb a b = true -> Qle_bool b a = false).
    { intros a b H. apply Qltb_lt in H. now apply Qle_bool_gt. }
    destruct (Num.Qltb (y v) 0.3) eqn:E1.
    { destruct d; simpl; rewrite ?E1, ?(Hexcl eq_refl),
        ?(Hle _ _ E1); simpl; lia. }
    destruct (Num.Qltb 0.7 (y v)) eqn:E2.
    { destruct d; simpl; rewrite ?E1, ?E2, ?(Hle _ _ E2),
        ?andb_false_r; simpl; lia. }
    destruct (Num.Qltb 0.7 (x v)) eqn:E3.
    { destruct d; simpl;
        rewrite ?E1, ?E2, ?E3, ?(Hband _ _ E1), ?(Hband _ _ E2),
          ?(Hexcl2 eq_refl); simpl; lia. }
    destruct (Num.Qltb (x v) 0.3) eqn:E4.
    { destruct d; simpl;
        rewrite ?E1, ?E2, ?E3, ?E4, ?(Hband _ _ E1), ?(Hband _ _ E2);
        simpl; lia. }
    destruct d; simpl; rewrite ?E1, ?E2, ?E3, ?E4, ?andb_false_r; simpl; lia.
Qed.

Lemma bands_partition (v : DetectedVehicle) :
  ((if in_band NORTH v then 1 else 0) + (if in_band SOUTH v then 1 else 0)
   + (if in_band EAST v then 1 else 0) + (if in_band WEST v then 1 else 0)
   + (if in_centre v then 1 else 0) = 1)%Z.
Proof.
  unfold in_band, in_centre.
  destruct (Num.Qltb (y v) 0.3) eqn:E1;
  destruct (Num.Qltb 0.7 (y v)) eqn:E2;
  destruct (Num.Qltb 0.7 (x v)) eqn:E3;
  destruct (Num.Qltb (x v) 0.3) eqn:E4;
  destruct (Qle_bool 0.3 (y v)) eqn:E5;
  destruct (Qle_bool (y v) 0.7) eqn:E6;
  destruct (Qle_bool 0.3 (x v)) eqn:E7;
  destruct (Qle_bool (x v) 0.7) eqn:E8; simpl; try reflexivity; exfalso;
  try apply Qltb_lt in E1; try apply Qltb_ge in E1;
  try apply Qltb_lt in E2; try apply Qltb_ge in E2;
  try apply Qltb_lt in E3; try apply Qltb_ge in E3;
  try apply Qltb_lt in E4; try apply Qltb_ge in E4;
  try apply Qle_bool_iff in E5; try apply Qle_bool_gt in E5;
  try apply Qle_bool_iff in E6; try apply Qle_bool_gt in E6;
  try apply Qle_bool_iff in E7; try apply Qle_bool_gt in E7;
  try apply Qle_bool_iff in E8; try apply Qle_bool_gt in E8; lra.
Qed.

Lemma how_many_cons {A} (f : A -> bool) a l :
  how_many f (a :: l) = ((if f a then 1 else 0) + how_many f l)%Z.
Proof. unfold how_many. simpl. destruct (f a); simpl length; lia. Qed.

End CountingFacts.

Section CountingTheorems.
Import Config Vision.

(** X21.  The ray casting never divides by zero.  [point_in_polygon]
    returns for every point and every polygon: the slope expression is
    evaluated only for an edge whose end points lie on different sides of
    the ray, so its denominator [yj - yi] is not zero.  On fewer than three
    vertices the answer is False. *)
Theorem point_in_polygon_never_divides_by_zero (px py : Q)
  (polygon : list (Q * Q)) :
  exists b,
    point_in_polygon px py polygon = Some b /\
    ((length polygon < 3)%nat -> b = false).
Proof.
  unfold point_in_polygon.
  destruct (Nat.ltb_spec (length polygon) 3) as [Hlt | Hge].
  - exists false. auto.
  - destruct (nth_error polygon (length polygon - 1)) as [lst |] eqn:El.
    + destruct (crossings_total px py polygon lst false) as [b Hb].
      exists b. split; [exact Hb | lia].
    + apply nth_error_None in El. lia.
Qed.

(** X22.  Ray casting on a rectangle.  For an axis-parallel rectangle
    given by its four corners in order, [point_in_polygon] answers True
    exactly for the points with [x0 <= px < x1] and [y0 <= py < y1]: the
    left and lower edges belong to the region, the right and upper edges do
    not. *)
Theorem point_in_rectangle (x0 y0 x1 y1 px py : Q) :
  x0 < x1 -> y0 < y1 ->
  point_in_polygon px py (rectangle x0 y0 x1 y1)
  = Some (Qle_bool x0 px && Num.Qltb px x1 && Qle_bool y0 py && Num.Qltb py y1).
Proof.
  intros Hx Hy. unfold point_in_polygon, rectangle.
  change (length [(x0, y0); (x1, y0); (x1, y1); (x0, y1)] <? 3)%nat with false.
  cbv iota.
  change (nth_error [(x0, y0); (x1, y0); (x1, y1); (x0, y1)]
            (length [(x0, y0); (x1, y0); (x1, y1); (x0, y1)] - 1))
    with (Some (x0, y1)).
  cbv iota beta.
  rewrite crossings_step by lra. rewrite crossings_flat.
  rewrite crossings_step by lra. rewrite crossings_flat.
  simpl crossings.
  rewrite (Qltb_compat px ((x0 - x0) * (py - y0) / (y1 - y0) + x0) x0)
    by (field; lra).
  rewrite (Qltb_compat px ((x1 - x1) * (py - y1) / (y0 - y1) + x1) x1)
    by (field; lra).
  f_equal.
  destruct (Num.Qltb py y0) eqn:E1; destruct (Num.Qltb py y1) eqn:E2;
  destruct (Num.Qltb px x0) eqn:E3; destruct (Num.Qltb px x1) eqn:E4;
  destruct (Qle_bool x0 px) eqn:E5; destruct (Qle_bool y0 py) eqn:E6;
  simpl; try reflexivity; exfalso;
  try apply Qltb_lt in E1; try apply Qltb_ge in E1;
  try apply Qltb_lt in E2; try apply Qltb_ge in E2;
  try apply Qltb_lt in E3; try apply Qltb_ge in E3;
  try apply Qltb_lt in E4; try apply Qltb_ge in E4;
  try apply Qle_bool_iff in E5; try apply Qle_bool_gt in E5;
  try apply Qle_bool_iff in E6; try apply Qle_bool_gt in E6; lra.
Qed.

Lemma point_in_rectangle_witness :
  point_in_polygon 0.45 0.1 (rectangle 0.42 0 0.6 0.3)
  = Some (Qle_bool 0.42 0.45 && Num.Qltb 0.45 0.6
          && Qle_bool 0 0.1 && Num.Qltb 0.1 0.3).
Proof.
  apply (point_in_rectangle 0.42 0 0.6 0.3 0.45 0.1); reflexivity.
Defined.

(** X23.  Quadrant counting partitions the frame.  [count_vehicles_simple]
    counts for NORTH the vehicles of the top band ([y < 0.3]) and for SOUTH
    those of the bottom band ([y > 0.7]), each over the full width, and for
    EAST and WEST those right ([x > 0.7]) and left ([x < 0.3]) of the
    centre between these bands; every vehicle is counted once or lies in the
    central square, so the four counts and the vehicles of the centre add up
    to the number of detections. *)
Theorem quadrant_counts_partition (result : DetectionResult) :
  (forall d,
     dm_get (count_vehicles_simple result) d
     = how_many (in_band d) (vehicles result)) /\
  (dm_get (count_vehicles_simple result) NORTH
   + dm_get (count_vehicles_simple result) SOUTH
   + dm_get (count_vehicles_simple result) EAST
   + dm_get (count_vehicles_simple result) WEST
   + how_many in_centre (vehicles result)
   = Z.of_nat (length (vehicles result)))%Z.
Proof.
  assert (Hd : forall d,
            dm_get (count_vehicles_simple result) d
            = how_many (in_band d) (vehicles result)).
  { intro d. unfold count_vehicles_simple. rewrite simple_counts_fold.
    destruct d; reflexivity. }
  split; [exact Hd |]. rewrite !Hd. clear Hd.
  induction (vehicles result) as [| v vs IH]; [reflexivity |].
  rewrite !how_many_cons. pose proof (bands_partition v).
  simpl length. lia.
Qed.

(** X24.  Counting by lane regions.  For regions of distinct lanes
    [count_vehicles_by_lane] returns one count per region, in order, and
    the counts add up to the number of vehicles that some region with a
    polygon holds -- each such vehicle is counted once, in the first region
    that holds it -- so never to more than the number of detections. *)
Theorem lane_counts_count_each_vehicle_once (result : DetectionResult)
  (lane_rois : list LaneROI) :
  NoDup (map roi_key lane_rois) ->
  exists lcs,
    count_vehicles_by_lane result lane_rois = Some lcs /\
    map (fun lc => (lc_direction lc, lc_lane_type lc)) lcs
    = map roi_key lane_rois /\
    fold_right Z.add 0%Z (map count lcs)
    = how_many (caught lane_rois) (vehicles result) /\
    (fold_right Z.add 0%Z (map count lcs)
     <= Z.of_nat (length (vehicles result)))%Z.
Proof.
  intro Hnd. unfold count_vehicles_by_lane.
  rewrite (counts_init lane_rois []) by exact Hnd. simpl app.
  destruct (count_loop_total_sum lane_rois (vehicles result)
              (map (fun roi => (roi_key roi, 0%Z)) lane_rois))
    as (counts & Hc & Hk & Ht).
  { rewrite map_map. reflexivity. }
  rewrite Hc. eexists. split; [reflexivity |].
  rewrite !map_map. simpl. split; [reflexivity |].
  assert (Hsum : fold_right Z.add 0%Z
                   (map (fun roi => counts_get counts (roi_key roi) 0) lane_rois)
                 = how_many (caught lane_rois) (vehicles result)).
  { rewrite <- (map_map roi_key (fun k => counts_get counts k 0%Z)).
    rewrite <- Hk, counts_get_listed by (rewrite Hk; exact Hnd).
    fold (total counts). rewrite Ht. unfold total. rewrite map_map. simpl.
    assert (Hz : forall l : list LaneROI,
              fold_right Z.add 0%Z (map (fun _ => 0%Z) l) = 0%Z)
      by (induction l; simpl; lia).
    rewrite Hz. lia. }
  split; [exact Hsum |]. rewrite Hsum. unfold how_many.
  apply inj_le. apply filter_length_le.
Qed.

Lemma lane_counts_count_each_vehicle_once_witness :
  exists lcs,
    count_vehicles_by_lane sample_result sample_rois = Some lcs /\
    map (fun lc => (lc_direction lc, lc_lane_type lc)) lcs
    = [(NORTH, LT_THROUGH); (NORTH, LT_LEFT_TURN); (EAST, LT_THROUGH)] /\
    fold_right Z.add 0%Z (map count lcs)
    = how_many (caught sample_rois) (vehicles sample_result) /\
    (fold_right Z.add 0%Z (map count lcs) <= 6)%Z.
Proof.
  apply (lane_counts_count_each_vehicle_once sample_result sample_rois).
  vm_compute. repeat constructor; simpl; intuition discriminate.
Defined.

End CountingTheorems.

(* ------------------------------------------------------------------ *)
(** ** The simulated camera *)

Section MockFacts.
Import Config Vision Mock.

Lemma how_many_app {A} (f : A -> bool) l l' :
  how_many f (l ++ l') = (how_many f l + how_many f l')%Z.
Proof. unfold how_many. rewrite filter_app, length_app. lia. Qed.

Lemma how_many_all {A} (f : A -> bool) l :
  Forall (fun a => f a = true) l -> how_many f l = Z.of_nat (length l).
Proof.
  unfold how_many. induction 1 as [| a l Ha _ IH]; simpl; [reflexivity |].
  rewrite Ha. simpl. lia.
Qed.

Lemma how_many_none {A} (f : A -> bool) l :
  Forall (fun a => f a = false) l -> how_many f l = 0%Z.
Proof. unfold how_many. intro H. now rewrite (filter_none f l H). Qed.

Lemma range_length n : Z.of_nat (length (range n)) = Z.max 0 n.
Proof. unfold range. rewrite length_map, length_seq. lia. Qed.

Lemma range_nonneg n i : In i (range n) -> (0 <= i)%Z.
Proof.
  unfold range. intro H. apply in_map_iff in H. destruct H as (k & <- & _). lia.
Qed.

(** A rendered vehicle lies in the band of its approach. *)
Lemma make_vehicle_band looks d lt index :
  (0 <= index)%Z -> in_band d (_make_vehicle looks d lt index) = true.
Proof.
  intro Hi. assert (Hq : 0 <= inject_Z index).
  { change 0 with (inject_Z 0). now rewrite <- Zle_Qle. }
  destruct d, lt; unfold _make_vehicle, in_band; cbn [x y];
    generalize dependent (inject_Z index); intros k Hk;
    rewrite ?andb_true_iff, ?Qltb_lt; repeat split;
    try apply Qle_bool_iff; py_cases; lra.
Qed.

Lemma band_unique d d' v :
  in_band d v = true -> d' <> d -> in_band d' v = false.
Proof.
  intros H Hne. pose proof (bands_partition v) as Hp.
  destruct d, d'; try contradiction; rewrite H in Hp;
    destruct (in_band _ v) eqn:E; try reflexivity;
    repeat match goal with
           | H : context [if ?b then _ else _] |- _ => destruct b
           end; lia.
Qed.

Lemma band_not_centre d v : in_band d v = true -> in_centre v = false.
Proof.
  intro H. pose proof (bands_partition v) as Hp.
  destruct d; rewrite H in Hp; destruct (in_centre v); try reflexivity;
    repeat match goal with
           | H : context [if ?b then _ else _] |- _ => destruct b
           end; lia.
Qed.

Lemma rendered_bands looks d a b :
  Forall (fun v => in_band d v = true) (rendered looks d a b).
Proof.
  unfold rendered. apply Forall_app. split; apply Forall_forall; intros v Hv;
    apply in_map_iff in Hv; destruct Hv as (i & <- & Hi);
    apply make_vehicle_band; now apply range_nonneg in Hi.
Qed.

Lemma rendered_length looks d a b :
  Z.of_nat (length (rendered looks d a b)) = (Z.max 0 a + Z.max 0 b)%Z.
Proof.
  unfold rendered. rewrite length_app, !length_map, Nat2Z.inj_add.
  rewrite <- !range_length. unfold range. now rewrite !length_map.
Qed.

Lemma rendered_count looks d d' a b :
  how_many (in_band d') (rendered looks d a b)
  = if Direction_eqb d' d then (Z.max 0 a + Z.max 0 b)%Z else 0%Z.
Proof.
  destruct (Direction_eqb d' d) eqn:E.
  - apply Direction_eqb_eq in E. subst.
    rewrite how_many_all by apply rendered_bands. apply rendered_length.
  - apply how_many_none. eapply Forall_impl; [| apply rendered_bands].
    intros v Hv. apply (band_unique d d' v Hv).
    intro Heq. subst. assert (Direction_eqb d d = true) by now apply Direction_eqb_eq.
    congruence.
Qed.

Lemma queue_of_write q d lt v d' lt' :
  queue_of (write_queue q d lt v) d' lt'
  = if Direction_eqb d' d && LaneType_eqb lt' lt then v else queue_of q d' lt'.
Proof.
  unfold queue_of, write_queue. rewrite dm_get_set.
  destruct (Direction_eqb d' d) eqn:E.
  - apply Direction_eqb_eq in E. subst. destruct lt, lt'; reflexivity.
  - reflexivity.
Qed.

Lemma detect_direction_eq draws looks vs qs d :
  detect_direction draws looks (vs, qs) d
  = (vs ++ rendered looks d (drawn_queue draws qs d LT_THROUGH)
             (drawn_queue draws qs d LT_LEFT_TURN),
     write_queue
       (write_queue qs d LT_THROUGH (drawn_queue draws qs d LT_THROUGH))
       d LT_LEFT_TURN (drawn_queue draws qs d LT_LEFT_TURN)).
Proof.
  unfold detect_direction, rendered, drawn_queue.
  rewrite !queue_of_write.
  assert (E : Direction_eqb d d = true) by now apply Direction_eqb_eq.
  rewrite E. simpl. now rewrite <- app_assoc.
Qed.

Lemma step_queue_range q a b : (0 <= step_queue q a b <= 25)%Z.
Proof. unfold step_queue. lia. Qed.

Lemma mem_dir_cons d d0 ds :
  Signal.mem_dir d (d0 :: ds) = Direction_eqb d d0 || Signal.mem_dir d ds.
Proof. reflexivity. Qed.

Lemma detect_fold draws looks : forall ds vs qs,
  NoDup ds ->
  forall vs' qs',
    fold_left (detect_direction draws looks) ds (vs, qs) = (vs', qs') ->
    (forall d lt,
       queue_of qs' d lt
       = if Signal.mem_dir d ds then drawn_queue draws qs d lt else queue_of qs d lt) /\
    (forall d,
       how_many (in_band d) vs'
       = (how_many (in_band d) vs
          + if Signal.mem_dir d ds
            then queue_of qs' d LT_THROUGH + queue_of qs' d LT_LEFT_TURN
            else 0)%Z) /\
    how_many in_centre vs' = how_many in_centre vs.
Proof.
  induction ds as [| d0 ds IH]; intros vs qs Hnd vs' qs' H.
  - simpl in H. injection H as <- <-. repeat split; intros; simpl; auto; lia.
  - cbn [fold_left] in H. rewrite detect_direction_eq in H.
    inversion Hnd as [| ? ? Hnotin Hnd']; subst.
    destruct (IH _ _ Hnd' _ _ H) as (Hq & Hb & Hc). clear IH H.
    assert (Hself : Direction_eqb d0 d0 = true) by now apply Direction_eqb_eq.
    assert (Hmem0 : Signal.mem_dir d0 ds = false).
    { destruct (Signal.mem_dir d0 ds) eqn:E; [| reflexivity].
      apply mem_dir_In in E. contradiction. }
    assert (Hother : forall d lt,
              Direction_eqb d d0 = false ->
              drawn_queue draws
                (write_queue
                   (write_queue qs d0 LT_THROUGH (drawn_queue draws qs d0 LT_THROUGH))
                   d0 LT_LEFT_TURN (drawn_queue draws qs d0 LT_LEFT_TURN)) d lt
              = drawn_queue draws qs d lt).
    { intros d lt E. unfold drawn_queue. rewrite !queue_of_write, E. simpl.
      reflexivity. }
    assert (Hq0 : forall lt, queue_of qs' d0 lt = drawn_queue draws qs d0 lt).
    { intro lt. rewrite Hq, Hmem0, !queue_of_write, Hself. simpl.
      destruct lt; reflexivity. }
    split; [| split].
    + intros d lt. rewrite mem_dir_cons.
      destruct (Direction_eqb d d0) eqn:E; cbn [orb].
      * apply Direction_eqb_eq in E. subst. apply Hq0.
      * rewrite Hq. destruct (Signal.mem_dir d ds); [now apply Hother |].
        rewrite !queue_of_write, E. reflexivity.
    + intro d. rewrite Hb, how_many_app, rendered_count, mem_dir_cons.
      destruct (Direction_eqb d d0) eqn:E; cbn [orb].
      * apply Direction_eqb_eq in E. subst. rewrite Hmem0, !Hq0.
        pose proof (step_queue_range (queue_of qs d0 LT_THROUGH)
                      (through_arrival (draws d0)) (through_departure (draws d0))).
        pose proof (step_queue_range (queue_of qs d0 LT_LEFT_TURN)
                      (left_arrival (draws d0)) (left_departure (draws d0))).
        unfold drawn_queue. lia.
      * lia.
    + rewrite Hc, how_many_app.
      rewrite (how_many_none in_centre (rendered _ _ _ _)); [lia |].
      eapply Forall_impl; [| apply rendered_bands].
      intros v Hv. now apply (band_not_centre d0).
Qed.

(** X25.  The simulated frame and the simulated queues tell the same
    story.  One [detect] of an initialised mock provider moves every queue
    by its drawn arrival and departure, kept within 0 and 25, and renders
    each queued vehicle inside the band of its approach: quadrant counting
    on the returned frame gives, for every direction, the through queue plus
    the left-turn queue of that approach, and finds no vehicle in the
    centre. *)
Theorem mock_frame_matches_queues (p : MockProvider)
  (draws : Direction -> Draws) (looks : Direction -> LaneType -> Z -> Looks)
  (t0 elapsed_ms : Q) :
  _initialized p = true ->
  exists r p',
    detect p draws looks t0 elapsed_ms = Some (r, p') /\
    (forall d lt,
       queue_of (get_queue_counts p') d lt = drawn_queue draws (_queues p) d lt /\
       (0 <= queue_of (get_queue_counts p') d lt <= 25)%Z) /\
    (forall d,
       dm_get (count_vehicles_simple r) d
       = (queue_of (get_queue_counts p') d LT_THROUGH
          + queue_of (get_queue_counts p') d LT_LEFT_TURN)%Z) /\
    how_many in_centre (vehicles r) = 0%Z.
Proof.
  intro Hi. unfold detect. rewrite Hi. simpl negb. cbv iota.
  destruct (fold_left (detect_direction draws looks) all_directions ([], _queues p))
    as [vs qs] eqn:E.
  do 2 eexists. split; [reflexivity |].
  assert (Hnd : NoDup all_directions).
  { unfold all_directions. repeat constructor; simpl; intuition discriminate. }
  destruct (detect_fold draws looks all_directions [] (_queues p) Hnd vs qs E)
    as (Hq & Hb & Hc).
  assert (Hall : forall d, Signal.mem_dir d all_directions = true)
    by (intro d; now destruct d).
  unfold get_queue_counts. simpl. split; [| split].
  - intros d lt. rewrite Hq, Hall. split; [reflexivity |].
    destruct lt; apply step_queue_range.
  - intro d. unfold count_vehicles_simple. rewrite simple_counts_fold. simpl vehicles.
    rewrite Hb, Hall. destruct d; reflexivity.
  - exact Hc.
Qed.

Lemma mock_frame_matches_queues_witness :
  exists r p',
    detect busy_provider sample_draws sample_looks 10 2 = Some (r, p') /\
    (forall d lt,
       queue_of (get_queue_counts p') d lt
       = drawn_queue sample_draws (_queues busy_provider) d lt /\
       (0 <= queue_of (get_queue_counts p') d lt <= 25)%Z) /\
    (forall d,
       dm_get (count_vehicles_simple r) d
       = (queue_of (get_queue_counts p') d LT_THROUGH
          + queue_of (get_queue_counts p') d LT_LEFT_TURN)%Z) /\
    how_many in_centre (vehicles r) = 0%Z.
Proof.
  apply (mock_frame_matches_queues busy_provider sample_draws sample_looks 10 2).
  reflexivity.
Defined.

End MockFacts.

(* ------------------------------------------------------------------ *)
(** ** The state machine with its observer *)

Section ObservedFacts.
Import Config Signal.
Context {S : Type}.
Variable cb : Z -> S -> PhaseRing -> option (S * PhaseRing).

Lemma check_conflicts_set_phase_ring sc r :
  _check_conflicts (set_phase_ring sc r) = set_phase_ring (_check_conflicts sc) r.
Proof. unfold _check_conflicts. simpl. destruct (conflict_found _); reflexivity. Qed.

Lemma check_conflicts_cycle_count sc :
  cycle_count (_check_conflicts sc) = cycle_count sc.
Proof. unfold _check_conflicts. now destruct (conflict_found _). Qed.

Lemma observed_advance_step_inv s sc now s' sc' :
  Observed._advance_step cb s sc now = Some (s', sc') ->
  exists sc1,
    Signal._advance_step sc now = Some sc1 /\ observed_step cb s sc s' sc1 sc'.
Proof.
  unfold Observed._advance_step, Signal._advance_step.
  destruct (current_phase sc) as [phase |] eqn:Hp; [| discriminate].
  assert (Henter : forall st,
            (do sc0 <- enter_step sc st now; Some (s, sc0)) = Some (s', sc') ->
            exists sc1, enter_step sc st now = Some sc1 /\
                        observed_step cb s sc s' sc1 sc').
  { intros st H. rewrite (enter_step_eq sc st now phase Hp) in *.
    injection H as <- <-. eexists. split; [reflexivity |]. left. auto. }
  destruct (current_step sc).
  - destruct (_ && _); apply Henter.
  - apply Henter.
  - apply Henter.
  - destruct (is_preempted sc) eqn:Epre;
      [destruct (preemption_direction sc) as [d |] eqn:Ed |]; simpl.
    + intro H. injection H as <- <-. eexists. split; [reflexivity |]. left. auto.
    + unfold Observed._advance_to_next_phase, Signal._advance_to_next_phase.
      destruct (_apply_signals_for_current_state _) as [sc2 |] eqn:Ea;
        [| discriminate].
      pose proof Ea as Ea'. apply apply_signals_inv in Ea'.
      destruct Ea' as (phase' & _ & Hsc2).
      destruct (_ && _).
      * destruct (cb _ s _) as [[s1 ring1] |] eqn:Ecb; [| discriminate].
        intro H. injection H as <- <-. eexists. split; [reflexivity |].
        right. exists ring1. simpl in *. rewrite Hsc2 in *. simpl in *.
        repeat split; auto.
      * intro H. injection H as <- <-. eexists. split; [reflexivity |].
        left. rewrite Hsc2. auto.
    + unfold Observed._advance_to_next_phase, Signal._advance_to_next_phase.
      destruct (_apply_signals_for_current_state _) as [sc2 |] eqn:Ea;
        [| discriminate].
      pose proof Ea as Ea'. apply apply_signals_inv in Ea'.
      destruct Ea' as (phase' & _ & Hsc2).
      destruct (_ && _).
      * destruct (cb _ s _) as [[s1 ring1] |] eqn:Ecb; [| discriminate].
        intro H. injection H as <- <-. eexists. split; [reflexivity |].
        right. exists ring1. simpl in *. rewrite Hsc2 in *. simpl in *.
        repeat split; auto.
      * intro H. injection H as <- <-. eexists. split; [reflexivity |].
        left. rewrite Hsc2. auto.
Qed.

Lemma observed_tick_inv s sc now s' sc' :
  Observed.tick cb s sc now = Some (s', sc') ->
  exists sc1, Signal.tick sc now = Some sc1 /\ observed_step cb s sc s' sc1 sc'.
Proof.
  unfold Observed.tick, Signal.tick.
  destruct (_current_step_duration sc) as [dur |]; [| discriminate].
  destruct (Num.elapsed_ge _ _).
  - destruct (Observed._advance_step cb s sc now) as [[s1 sc1] |] eqn:E;
      [| discriminate].
    intro H. injection H as <- <-.
    destruct (observed_advance_step_inv _ _ _ _ _ E) as (sc2 & -> & Hstep).
    eexists. split; [reflexivity |].
    destruct Hstep as [(-> & -> & Hc) | (ring' & Hcb & -> & Hc & Hfree)].
    + left. rewrite check_conflicts_cycle_count. auto.
    + right. exists ring'.
      destruct (check_conflicts_frame sc2) as (Hr & _).
      rewrite check_conflicts_cycle_count, Hr, check_conflicts_set_phase_ring.
      auto.
  - intro H. injection H as <- <-. eexists. split; [reflexivity |].
    left. rewrite check_conflicts_cycle_count. auto.
Qed.


End ObservedFacts.

(* ------------------------------------------------------------------ *)
(** ** The controller loop *)

Section AppFacts.
Import Config Signal.

Lemma recompute_frame e ring e' ring' :
  Controller.recompute_timing e ring = Some (e', ring') ->
  Adaptive.intersection e' = Adaptive.intersection e /\
  Adaptive.timing e' = Adaptive.timing e /\
  Forall2 same_layout (phases ring) (phases ring') /\
  exists rs, phases ring' = retime_phases (phases ring) rs.
Proof.
  unfold Controller.recompute_timing.
  destruct (Adaptive.compute_cycle_plan e ring) as [[plan e1] |] eqn:E;
    [| discriminate].
  simpl. destruct (Adaptive.apply_plan e1 plan ring) as [r |] eqn:Ea;
    [| discriminate].
  intro H. injection H as <- <-.
  unfold Adaptive.compute_cycle_plan, Adaptive._compute_demands in E.
  destruct (Adaptive.demands_loop e (phases ring)) as [[ds e2] |] eqn:Ed;
    [| discriminate].
  apply demands_loop_inv in Ed. destruct Ed as (_ & Hi & Ht).
  destruct (Adaptive._allocate_green_splits e2 ds _ ring); [| discriminate].
  injection E as _ <-.
  split; [exact Hi |]. split; [exact Ht |]. split.
  - unfold Adaptive.apply_plan in Ea.
    destruct (Constraints.enforce_cycle _ _) as [ps |] eqn:Ec; [| discriminate].
    injection Ea as <-. simpl.
    apply enforce_cycle_same_layout in Ec.
    apply (proj1 (Forall2_map_l same_layout _ _ _)) in Ec.
    eapply Forall2_impl; [| exact Ec].
    intros p f Hpf. apply (same_layout_trans p (Adaptive.apply_to_phase plan p) f);
      [apply apply_to_phase_layout | exact Hpf].
  - now apply (apply_plan_retimes e2 plan).
Qed.

Lemma retimed_safe sc ring' rs :
  safe_state sc ->
  phases ring' = retime_phases (phases (phase_ring sc)) rs ->
  safe_state (set_phase_ring sc ring').
Proof.
  intros Hs Hr. destruct ring' as [ps]. simpl in Hr. subst ps.
  apply (exec_safe sc (Retime rs)); [exact Hs | reflexivity].
Qed.

Lemma set_own_ring sc : set_phase_ring sc (phase_ring sc) = sc.
Proof. now destruct sc. Qed.

Lemma safe_state_clean sc : safe_state sc -> clean sc.
Proof. intros (_ & _ & H). exact H. Qed.

(** What a call on the manager can do to the controller. *)
Lemma manager_call_shapes m sc c m' sc' :
  Preemption.call (m, sc) c = Some (m', sc') ->
  match c with
  | Preemption.SignalTick now => tick sc now = Some sc'
  | _ =>
      sc' = sc \/ sc' = clear_preemption sc \/
      (exists d clock, request_preemption sc d clock = Some sc') \/
      (exists d clock, request_preemption (clear_preemption sc) d clock = Some sc')
  end.
Proof.
  assert (Hclear : forall clock,
            Preemption.clear m sc clock = Some (m', sc') ->
            sc' = sc \/ sc' = clear_preemption sc \/
            (exists d clock, request_preemption sc d clock = Some sc') \/
            (exists d clock,
               request_preemption (clear_preemption sc) d clock = Some sc')).
  { intros clock H.
    destruct (Preemption.active_event m) as [ev |] eqn:Ha.
    - pose proof (clear_manager m sc clock m' sc' ev Ha H) as Hc.
      destruct (Preemption.pending m) as [| next rest]; destruct Hc as [_ Hsc].
      + auto.
      + right. right. right. eauto.
    - unfold Preemption.clear in H. rewrite Ha in H. injection H as _ <-. auto. }
  assert (Hnext : forall clock,
            Preemption.activate_next m sc clock = Some (m', sc') ->
            sc' = sc \/ sc' = clear_preemption sc \/
            (exists d clock, request_preemption sc d clock = Some sc') \/
            (exists d clock,
               request_preemption (clear_preemption sc) d clock = Some sc')).
  { intros clock H. apply activate_next_manager in H.
    destruct (Preemption.pending m) as [| next rest]; destruct H as [_ Hsc].
    - auto.
    - right. right. left. eauto. }
  destruct c as [d h clock | clock | clock | now]; simpl.
  - unfold Preemption.request. destruct (Preemption.active_event m).
    + intro H. injection H as _ <-. auto.
    + intro H. apply activate_manager in H. destruct H as [_ Hsc].
      right. right. left. eauto.
  - apply Hclear.
  - unfold Preemption.tick. destruct (Preemption.active_event m).
    + destruct (Qle_bool _ _); [apply Hclear |].
      intro H. injection H as _ <-. auto.
    + apply Hnext.
  - destruct (tick sc now) as [sc1 |]; [| discriminate].
    intro H. now injection H as _ <-.
Qed.

Lemma manager_call_keeps m sc c m' sc' :
  Preemption.call (m, sc) c = Some (m', sc') ->
  (forall now, c <> Preemption.SignalTick now) ->
  (safe_state sc -> safe_state sc') /\
  cycle_count sc' = cycle_count sc /\
  phase_ring sc' = phase_ring sc.
Proof.
  intros H Hc. apply manager_call_shapes in H.
  assert (Hshape : sc' = sc \/ sc' = clear_preemption sc \/
            (exists d clock, request_preemption sc d clock = Some sc') \/
            (exists d clock,
               request_preemption (clear_preemption sc) d clock = Some sc')).
  { destruct c as [d h clock | clock | clock | now]; try exact H.
    exfalso. now apply (Hc now). }
  clear H. destruct Hshape as [-> | [-> | [(d0 & c0 & Hr) | (d0 & c0 & Hr)]]].
  - auto.
  - split; [intro Hs; exact Hs | auto].
  - destruct (request_ring_position _ _ _ _ Hr) as (Hring & _ & Hcc).
    split; [intro Hs; now apply (request_safe sc d0 c0) | auto].
  - destruct (request_ring_position _ _ _ _ Hr) as (Hring & _ & Hcc).
    split; [intro Hs; now apply (request_safe (clear_preemption sc) d0 c0) | auto].
Qed.

Lemma standard_ring_safe tm ring :
  create_standard_4way tm = Some ring ->
  Forall (fun p => phase_safe p = true) (phases ring) /\
  Forall2 same_layout (phases standard_ring) (phases ring).
Proof.
  unfold create_standard_4way.
  destruct (ped_clearance_s tm) as [ped |]; [| discriminate].
  intro H. injection H as <-. simpl. split.
  - repeat constructor.
  - unfold standard_ring. simpl. repeat constructor.
Qed.

Lemma new_controller_fields ring tm start sc :
  new_controller ring tm start = Some sc ->
  phase_ring sc = ring /\ is_preempted sc = false /\
  preemption_direction sc = None /\ cycle_count sc = 0%Z.
Proof.
  unfold new_controller. intro H. apply apply_signals_inv in H.
  destruct H as (phase & _ & ->). auto.
Qed.

Lemma update_nonneg l q : (0 <= Intersection.queue_count (Intersection.update l q))%Z.
Proof. simpl. lia. Qed.

Lemma run_vision_frame tc env tc1 :
  App._run_vision tc env = Some tc1 ->
  App.config tc1 = App.config tc /\
  App.signal_controller tc1 = App.signal_controller tc /\
  App.conflict_monitor tc1 = App.conflict_monitor tc /\
  App.preemption_manager tc1 = App.preemption_manager tc /\
  App.last_cycle_count tc1 = App.last_cycle_count tc /\
  App.tick_count tc1 = App.tick_count tc /\
  Adaptive.timing (App.timing_engine tc1) = Adaptive.timing (App.timing_engine tc) /\
  lanes_nonneg (App.intersection tc1) /\
  (forall d,
     Intersection.saturation_flow
       (Intersection.through_lane (Intersection.approach (App.intersection tc1) d))
     = Intersection.saturation_flow
         (Intersection.through_lane (Intersection.approach (App.intersection tc) d)) /\
     Intersection.saturation_flow
       (Intersection.left_turn_lane (Intersection.approach (App.intersection tc1) d))
     = Intersection.saturation_flow
         (Intersection.left_turn_lane (Intersection.approach (App.intersection tc) d))) /\
  match App.provider tc1 with
  | App.MockProvider p => Mock._initialized p = true
  | App.YOLOv8Provider => True
  end.
Proof.
  unfold App._run_vision. destruct (App.provider tc) as [p |].
  - destruct (Mock.detect p _ _ _ _) as [[r p'] |] eqn:E; [| discriminate].
    intro H. injection H as <-. simpl.
    repeat split; auto; try (destruct d; simpl; lia); try (destruct d; reflexivity).
    unfold Mock.detect in E. destruct (negb _); [discriminate |].
    destruct (fold_left _ _ _). now injection E as _ <-.
  - intro H. injection H as <-. simpl.
    repeat split; auto; try (destruct d; simpl; lia); try (destruct d; reflexivity).
Qed.

End AppFacts.

Section AppInvariant.
Import Config Signal.

Lemma layouts_trans l1 : forall l2 l3,
  Forall2 same_layout l1 l2 -> Forall2 same_layout l2 l3 ->
  Forall2 same_layout l1 l3.
Proof.
  induction l1 as [| p l1 IH]; intros l2 l3 H12 H23;
    inversion H12; subst; inversion H23; subst; constructor.
  - eapply same_layout_trans; eauto.
  - eapply IH; eauto.
Qed.

Lemma layouts_refl l : Forall2 same_layout l l.
Proof. induction l; constructor; auto. repeat split. Qed.

Lemma agree_inactive m sc :
  agree m sc ->
  is_preempted sc = false \/ preemption_direction sc = None ->
  Preemption.is_active m = false.
Proof.
  intros [Hp Hd] [H | H].
  - now rewrite <- Hp.
  - rewrite Hd in H. unfold Preemption.is_active.
    destruct (Preemption.active_event m); [discriminate | reflexivity].
Qed.

(** One tick of the state machine inside the controller: the observer is
    [_on_cycle_complete]. *)
Lemma app_signal_tick mgr e last sc now e' last' sc' :
  safe_state sc -> agree mgr sc -> last = cycle_count sc ->
  Observed.tick (App._on_cycle_complete (Preemption.is_active mgr))
    (e, last) sc now = Some (e', last', sc') ->
  safe_state sc' /\ agree mgr sc' /\ last' = cycle_count sc' /\
  Adaptive.intersection e' = Adaptive.intersection e /\
  Adaptive.timing e' = Adaptive.timing e /\
  Forall2 same_layout (phases (phase_ring sc)) (phases (phase_ring sc')).
Proof.
  intros Hs Hag Hl H.
  destruct (observed_tick_inv _ _ _ _ _ _ H) as (sc1 & Ht & Hstep).
  pose proof (tick_safe sc now sc1 Hs Ht) as Hs1.
  destruct (tick_ring_position _ _ _ Ht) as (Hr1 & Hp1 & Hd1 & _).
  assert (Hag1 : agree mgr sc1).
  { destruct Hag as [Ha Hb]. split; congruence. }
  pose proof (layouts_refl (phases (phase_ring sc))) as Hsame.
  destruct Hstep as [(He & -> & Hc) | (ring' & Hcb & -> & Hc & Hfree)].
  - injection He as -> ->. rewrite Hr1.
    split; [exact Hs1 |]. split; [exact Hag1 |]. split; [congruence |].
    auto.
  - unfold App._on_cycle_complete in Hcb.
    rewrite (agree_inactive mgr sc Hag Hfree) in Hcb. simpl in Hcb.
    destruct (Controller.recompute_timing e (phase_ring sc1)) as [[e2 r2] |] eqn:Er;
      [| discriminate].
    simpl in Hcb. injection Hcb as <- <- <-.
    destruct (recompute_frame _ _ _ _ Er) as (Hi & Htm & Hlay & rs & Hrs).
    split; [now apply (retimed_safe sc1 r2 rs) |].
    split; [exact Hag1 |]. split; [reflexivity |].
    split; [exact Hi |]. split; [exact Htm |].
    simpl. rewrite <- Hr1. exact Hlay.
Qed.

Lemma app_step_inv tc i tc' :
  app_inv tc -> App.step tc i = Some tc' -> app_inv tc'.
Proof.
  intros (Hs & Hidle & Hc & Hf & Hn & Hag & Hl & Hq).
  assert (Hcall : forall c m' sc',
            (forall now, c <> Preemption.SignalTick now) ->
            Preemption.call (App.preemption_manager tc, App.signal_controller tc) c
            = Some (m', sc') ->
            safe_state sc' /\ no_idle_wait m' /\ agree m' sc' /\
            cycle_count sc' = cycle_count (App.signal_controller tc)).
  { intros c m' sc' Hc' H.
    destruct (manager_call_keeps _ _ _ _ _ H Hc') as (Hsafe & Hcc & _).
    destruct (call_service_order
                (App.preemption_manager tc, App.signal_controller tc) c (m', sc')
                Hidle H) as [_ Hidle'].
    pose proof (call_agree
                  (App.preemption_manager tc, App.signal_controller tc) c (m', sc')
                  Hidle Hag H) as Hag'.
    auto. }
  destruct i as [now env | d clock | clock]; simpl.
  - unfold App.tick.
    destruct (Num.py_div 1 _) as [interval |]; [| discriminate].
    set (tcv := if Qle_bool interval _ then _ else _).
    destruct tcv as [tc1 |] eqn:Ev; [| discriminate].
    assert (Hv : App.signal_controller tc1 = App.signal_controller tc /\
                 App.conflict_monitor tc1 = App.conflict_monitor tc /\
                 App.preemption_manager tc1 = App.preemption_manager tc /\
                 App.last_cycle_count tc1 = App.last_cycle_count tc /\
                 lanes_nonneg (App.intersection tc1)).
    { unfold tcv in Ev. destruct (Qle_bool interval _).
      - destruct (App._run_vision tc env) as [tc2 |] eqn:E2; [| discriminate].
        injection Ev as <-. simpl.
        destruct (run_vision_frame _ _ _ E2)
          as (_ & H1 & H2 & H3 & H4 & _ & _ & H5 & _).
        auto.
      - injection Ev as <-. auto. }
    destruct Hv as (Hsc & Hmon & Hmgr & Hlast & Hq1).
    clear Ev tcv. rewrite Hsc, Hmon, Hmgr, Hlast.
    destruct (Observed.tick _ _ _ now) as [[[e' last'] sc1] |] eqn:Et;
      [| discriminate].
    destruct (app_signal_tick _ _ _ _ _ _ _ _ Hs Hag Hl Et)
      as (Hs1 & Hag1 & Hl1 & Hi1 & _).
    pose proof (check_clean_result (App.conflict_monitor tc) sc1
                  (App.check_clock env) (safe_state_clean _ Hs1))
      as (_ & Hsc1 & Hcnt & _ & Hfa).
    destruct (Conflict.check (App.conflict_monitor tc) sc1 (App.check_clock env))
      as [[healthy mon'] sc2].
    simpl in Hsc1, Hcnt, Hfa. subst sc2.
    destruct (Preemption.tick (App.preemption_manager tc) sc1 (App.manager_clock env))
      as [[m' sc3] |] eqn:Em; [| discriminate].
    intro H. injection H as <-.
    assert (Hm : Preemption.call (App.preemption_manager tc, sc1)
                   (Preemption.ManagerTick (App.manager_clock env))
                 = Some (m', sc3)) by exact Em.
    destruct (manager_call_keeps _ _ _ _ _ Hm) as (Hsafe & Hcc & _);
      [discriminate |].
    destruct (call_service_order (App.preemption_manager tc, sc1) _ (m', sc3)
                Hidle Hm) as [_ Hidle'].
    pose proof (call_agree (App.preemption_manager tc, sc1) _ (m', sc3)
                  Hidle Hag1 Hm) as Hag'.
    unfold app_inv, in_order, App.intersection. simpl.
    split; [now apply Hsafe |]. split; [exact Hidle' |].
    split; [apply safe_state_clean; now apply Hsafe |].
    split; [now apply Hfa |]. split; [congruence |].
    split; [exact Hag' |]. split; [congruence |].
    unfold App.intersection in Hq1. rewrite Hi1. exact Hq1.
  - unfold App.trigger_preemption.
    destruct (Preemption.request _ _ d 10 clock) as [[m' sc'] |] eqn:E;
      [| discriminate].
    intro H. injection H as <-.
    destruct (Hcall (Preemption.Request d 10 clock) m' sc') as (H1 & H2 & H3 & H4);
      [discriminate | exact E |].
    unfold app_inv, in_order. simpl.
    split; [exact H1 |]. split; [exact H2 |].
    split; [now apply safe_state_clean |].
    split; [exact Hf |]. split; [exact Hn |]. split; [exact H3 |].
    split; [congruence | exact Hq].
  - unfold App.clear_preemption.
    destruct (Preemption.clear _ _ clock) as [[m' sc'] |] eqn:E; [| discriminate].
    intro H. injection H as <-.
    destruct (Hcall (Preemption.Clear clock) m' sc') as (H1 & H2 & H3 & H4);
      [discriminate | exact E |].
    unfold app_inv, in_order. simpl.
    split; [exact H1 |]. split; [exact H2 |].
    split; [now apply safe_state_clean |].
    split; [exact Hf |]. split; [exact Hn |]. split; [exact H3 |].
    split; [congruence | exact Hq].
Qed.

Lemma setup_inv cfg clock mclock tc :
  App.setup cfg clock mclock = Some tc ->
  app_inv tc /\ App.config tc = cfg /\ as_configured tc.
Proof.
  unfold App.setup.
  destruct (create_standard_4way (App.timing cfg)) as [ring |] eqn:Er;
    [| discriminate].
  destruct (new_controller ring (App.timing cfg) clock) as [sc |] eqn:En;
    [| discriminate].
  destruct (App.create_provider cfg) as [prov |] eqn:Ep; [| discriminate].
  destruct (Controller.recompute_timing _ ring) as [[e' ring'] |] eqn:Ec;
    [| discriminate].
  intro H. injection H as <-.
  destruct (standard_ring_safe _ _ Er) as [Hsafe Hlay].
  pose proof (new_controller_safe ring _ _ sc Hsafe En) as Hs.
  destruct (new_controller_fields _ _ _ _ En) as (Hring & Hp & Hd & Hc).
  destruct (recompute_frame _ _ _ _ Ec) as (Hi & Ht & Hlay' & rs & Hrs).
  split; [| split; [reflexivity |]].
  - unfold app_inv, in_order, App.intersection. simpl.
    split; [apply (retimed_safe sc ring' rs Hs); now rewrite Hring |].
    split; [intros _; reflexivity |].
    split; [apply (safe_state_clean sc Hs) |].
    split; [reflexivity |]. split; [reflexivity |].
    split; [split; simpl; assumption |].
    split; [now rewrite Hc |].
    rewrite Hi. simpl. intro d. destruct d; simpl; lia.
  - unfold as_configured, App.phase_ring, App.intersection. simpl.
    split.
    + exact (layouts_trans _ _ _ Hlay Hlay').
    + split; [exact Ht |]. rewrite Hi. simpl. split.
      * intro d. destruct d; simpl; auto.
      * unfold App.create_provider in Ep.
        destruct (App.provider_type cfg); try discriminate;
          injection Ep as <-; auto.
Qed.

Lemma run_Forall (P : App.TrafficController -> Prop) :
  (forall tc i tc', P tc -> App.step tc i = Some tc' -> P tc') ->
  forall inputs tc states,
    P tc -> App.run tc inputs = Some states -> Forall P states.
Proof.
  intro Hstep. induction inputs as [| i inputs IH]; intros tc states HP H;
    simpl in H.
  - injection H as <-. constructor; [exact HP | constructor].
  - destruct (App.step tc i) as [tc' |] eqn:E; [| discriminate].
    destruct (App.run tc' inputs) as [states' |] eqn:R; [| discriminate].
    injection H as <-. constructor; [exact HP |].
    eapply IH; [| exact R]. eapply Hstep; eauto.
Qed.

End AppInvariant.

Section AppTotality.
Import Config Signal.









End AppTotality.

Section AppTheorems.
Import Config Signal.

(** X26.  The controller loop stays in order.  From [setup], through any
    sequence of ticks (with whatever the camera reports), preemption
    triggers and clears, every state the loop reaches shows no conflicting
    greens; the conflict monitor, checked right after the state machine's
    tick, has seen no conflict and latched no fault; the signal controller
    is preempted exactly when the manager holds an active event, and for
    its direction; [last_cycle_count] equals the state machine's cycle
    counter, so the retiming of a completed cycle is never skipped (no cycle
    completes during a preemption); and no lane holds a negative queue. *)
Theorem controller_loop_stays_in_order (cfg : App.IntersectionConfig)
  (clock monitor_clock : Q) (tc0 : App.TrafficController)
  (inputs : list App.Input) (states : list App.TrafficController) :
  App.setup cfg clock monitor_clock = Some tc0 ->
  App.run tc0 inputs = Some states ->
  Forall in_order states.
Proof.
  intros Hsetup Hrun.
  destruct (setup_inv _ _ _ _ Hsetup) as (Hinv & _ & _).
  pose proof (run_Forall app_inv app_step_inv inputs tc0 states Hinv Hrun) as H.
  eapply Forall_impl; [| exact H]. intros tc (_ & _ & Hin). exact Hin.
Qed.

Lemma controller_loop_stays_in_order_witness :
  match App.setup default_config 0 0 with
  | Some tc0 =>
      match App.run tc0 sample_inputs with
      | Some states => Forall in_order states
      | None => False
      end
  | None => False
  end.
Proof.
  destruct (App.setup default_config 0 0) as [tc0 |] eqn:Es;
    [| vm_compute in Es; discriminate].
  destruct (App.run tc0 sample_inputs) as [states |] eqn:Er.
  - exact (controller_loop_stays_in_order default_config 0 0 tc0 sample_inputs
             states Es Er).
  - vm_compute in Es. injection Es as <-. vm_compute in Er. discriminate.
Defined.



End AppTheorems.

Section VisionUpdate.
Import Config.

Lemma py_int_share (c : Z) :
  (0 <= c)%Z ->
  (0 <= App.py_int (inject_Z c * 0.85) <= c)%Z.
Proof.
  intro Hc. unfold App.py_int. simpl.
  rewrite Z.quot_div_nonneg by lia. split.
  - apply Z.div_pos; lia.
  - apply Z.div_le_upper_bound; lia.
Qed.

Lemma how_many_nonneg {A} (f : A -> bool) l : (0 <= how_many f l)%Z.
Proof. unfold how_many. lia. Qed.

(** X28.  From the quadrant counts to the lanes.  With a real provider
    one vision pass writes, for every approach, the truncated 85 percent of
    its quadrant count to the through lane and the rest to the left-turn
    lane: neither is negative, together they are the number of detections in
    the approach's band, and the intersection's total queue plus the
    vehicles seen in the centre is the number of detections. *)
Theorem quadrant_counts_reach_the_lanes (tc tc' : App.TrafficController)
  (env : App.Sensed) :
  App.provider tc = App.YOLOv8Provider ->
  App._run_vision tc env = Some tc' ->
  (forall d,
     let a := Intersection.approach (App.intersection tc') d in
     let seen := how_many (in_band d) (Vision.vehicles (App.detections env)) in
     Intersection.queue_count (Intersection.through_lane a)
     = App.py_int (inject_Z seen * 0.85) /\
     (0 <= Intersection.queue_count (Intersection.through_lane a) <= seen)%Z /\
     (0 <= Intersection.queue_count (Intersection.left_turn_lane a))%Z /\
     QueueViews.approach_total_queue a = seen) /\
  (QueueViews.total_queue (App.intersection tc')
   + how_many in_centre (Vision.vehicles (App.detections env))
   = Z.of_nat (length (Vision.vehicles (App.detections env))))%Z.
Proof.
  intros Hp H. unfold App._run_vision in H. rewrite Hp in H.
  injection H as <-.
  assert (Hd : forall d,
            dm_get (Vision.count_vehicles_simple (App.detections env)) d
            = how_many (in_band d) (Vision.vehicles (App.detections env))).
  { intro d. unfold Vision.count_vehicles_simple. rewrite simple_counts_fold.
    destruct d; reflexivity. }
  assert (Happroach : forall d,
            let a := Intersection.approach
                       (App.intersection
                          {| App.config := App.config tc;
                             App.signal_controller := App.signal_controller tc;
                             App.timing_engine :=
                               App.set_intersection (App.timing_engine tc)
                                 (App.update_from_counts (App.intersection tc)
                                    (Vision.count_vehicles_simple (App.detections env)));
                             App.conflict_monitor := App.conflict_monitor tc;
                             App.preemption_manager := App.preemption_manager tc;
                             App.provider := App.YOLOv8Provider;
                             App.tick_count := App.tick_count tc;
                             App.last_vision_time := App.last_vision_time tc;
                             App.last_cycle_count := App.last_cycle_count tc |}) d in
            let seen := how_many (in_band d) (Vision.vehicles (App.detections env)) in
            Intersection.queue_count (Intersection.through_lane a)
            = App.py_int (inject_Z seen * 0.85) /\
            (0 <= Intersection.queue_count (Intersection.through_lane a) <= seen)%Z /\
            (0 <= Intersection.queue_count (Intersection.left_turn_lane a))%Z /\
            QueueViews.approach_total_queue a = seen).
  { intro d. cbv zeta.
    pose proof (how_many_nonneg (in_band d) (Vision.vehicles (App.detections env)))
      as Hn.
    pose proof (py_int_share _ Hn) as Hs.
    unfold QueueViews.approach_total_queue, App.intersection, Intersection.approach.
    cbn [App.timing_engine App.set_intersection Adaptive.intersection
         App.update_from_counts Intersection.approaches].
    assert (Hget : forall f : Direction -> Intersection.Approach,
              dm_get (dm_init f) d = f d) by (intro f; destruct d; reflexivity).
    rewrite Hget. cbn [App.set_lanes Intersection.through_lane
                       Intersection.left_turn_lane Intersection.update
                       Intersection.queue_count].
    rewrite Hd. lia. }
  split; [exact Happroach |].
  unfold QueueViews.total_queue, all_directions. cbn [map fold_left].
  rewrite (proj2 (proj2 (proj2 (Happroach NORTH)))),
    (proj2 (proj2 (proj2 (Happroach SOUTH)))),
    (proj2 (proj2 (proj2 (Happroach EAST)))),
    (proj2 (proj2 (proj2 (Happroach WEST)))).
  clear. induction (Vision.vehicles (App.detections env)) as [| v vs IH];
    [reflexivity |].
  rewrite !how_many_cons. pose proof (bands_partition v).
  simpl length. lia.
Qed.

Lemma quadrant_counts_reach_the_lanes_witness :
  match App.setup real_config 0 0 with
  | Some tc =>
      match App._run_vision tc (sample_sensed 1) with
      | Some tc' =>
          (QueueViews.total_queue (App.intersection tc')
           + how_many in_centre (Vision.vehicles sample_result) = 6)%Z
      | None => False
      end
  | None => False
  end.
Proof.
  destruct (App.setup real_config 0 0) as [tc |] eqn:Es;
    [| vm_compute in Es; discriminate].
  destruct (App._run_vision tc (sample_sensed 1)) as [tc' |] eqn:Er.
  - apply (quadrant_counts_reach_the_lanes tc tc' (sample_sensed 1)); [| exact Er].
    vm_compute in Es. injection Es as <-. reflexivity.
  - vm_compute in Es. injection Es as <-. vm_compute in Er. discriminate.
Defined.

End VisionUpdate.
